(** * CLH-CMS-Sync: the Webflow connection, its request queue and its sagas

    A shallow embedding of [Webflow.ts] (class [WebflowConnection]) and of
    the enum of [Locales.ts], together with the part of the JavaScript
    run time the class relies on: promises with their reaction jobs, the
    microtask queue, the global [fetch], [Response] body decoding and
    [setTimeout].  Closures of the source are defunctionalised: every
    callback passed to [then] is a constructor of [kont] that records the
    variables the closure captures.  The two formatters of [I18n.ts]
    follow in a module of their own. *)

From Stdlib Require Import List String Ascii ZArith QArith Qreduction Lia Bool Arith.
Import ListNotations.
Local Close Scope Q_scope.
Local Open Scope string_scope.
Local Open Scope list_scope.

Set Warnings "-register-all".

(* ================================================================== *)
(** ** Locales.ts *)

Inductive Locales := ENGLISH | SPANISH | CHINESE.

(** The string value of each enum member. *)
Definition Locales_value (l : Locales) : string :=
  match l with
  | ENGLISH => "6501245cc8bf8aa9d483b104"
  | SPANISH => "657ce37cdbd66c75792d9429"
  | CHINESE => "65d667943dcdf4188e58f15e"
  end.

(** [Object.values(Locales)]: a string enum has no reverse mapping. *)
Definition Locales_values : list Locales := [ENGLISH; SPANISH; CHINESE].

Definition Locales_eqb (a b : Locales) : bool :=
  match a, b with
  | ENGLISH, ENGLISH | SPANISH, SPANISH | CHINESE, CHINESE => true
  | _, _ => false
  end.

(* ================================================================== *)
(** ** Plain JavaScript data: what a request body is made of *)

(** An object literal handed to [JSON.stringify], or a JSON value read
    from a body.  [JUndefined] is the value of a property that is
    present but holds [undefined]; [JNull] is [null].  Numbers are left
    out: the program puts none in a body and reads none from a body of
    this kind. *)
Inductive jsv :=
| JUndefined
| JNull
| JBool (b : bool)
| JStr (s : string)
| JArr (l : list jsv)
| JObj (fields : list (string * jsv)).

(** Property read [o.k] on an object literal. *)
Fixpoint assoc_get (k : string) (fields : list (string * jsv)) : option jsv :=
  match fields with
  | [] => None
  | (k', v) :: rest => if String.eqb k k' then Some v else assoc_get k rest
  end.

Definition obj_get (k : string) (o : jsv) : option jsv :=
  match o with
  | JObj fields => assoc_get k fields
  | _ => None
  end.

(** An optional property ([p?: T]): absent, present with [undefined], or
    present with a value.  An object spread copies the last two. *)
Inductive optional (A : Type) :=
| Missing
| Undefined
| Defined (a : A).
Arguments Missing {A}.
Arguments Undefined {A}.
Arguments Defined {A} a.

(* ================================================================== *)
(** ** The interfaces of Webflow.ts *)

Record FieldData := {
  fd_name : string;
  fd_slug : string;
  fd_active : bool;
  fd_is_virtual : bool;
  fd_start_date : string;
  fd_end_date : string;
  fd_maps_link : string;
  fd_class_offering : string;
  fd_class_language : string;
  fd_days_class_held : string;
  fd_start_time_3 : string;
  fd_class_end_3 : string;
  fd_city : string;
  fd_state : string;
  fd_address_formatted : string;
  fd_region : string
}.

(** [Partial<FieldData>]: every member may be left out. *)
Record PartialFieldData := {
  pfd_name : option string;
  pfd_slug : option string;
  pfd_active : option bool;
  pfd_is_virtual : option bool;
  pfd_start_date : option string;
  pfd_end_date : option string;
  pfd_maps_link : option string;
  pfd_class_offering : option string;
  pfd_class_language : option string;
  pfd_days_class_held : option string;
  pfd_start_time_3 : option string;
  pfd_class_end_3 : option string;
  pfd_city : option string;
  pfd_state : option string;
  pfd_address_formatted : option string;
  pfd_region : option string
}.

Record Item := {
  Item_id : string;
  Item_cmsLocaleId : Locales;
  Item_lastPublished : string;
  Item_lastUpdated : string;
  Item_createdOn : string;
  Item_isArchived : bool;
  Item_isDraft : bool;
  Item_fieldData : FieldData
}.

(** [ItemData] and [PartialItemData] differ in the type of [fieldData]
    only. *)
Record ItemDataOf (F : Type) := {
  cmsLocaleId : optional Locales;
  isArchived : bool;
  isDraft : bool;
  fieldData : F
}.

Arguments cmsLocaleId {F} _.
Arguments isArchived {F} _.
Arguments isDraft {F} _.
Arguments fieldData {F} _.
Arguments Build_ItemDataOf {F} _ _ _ _.

Definition ItemData := ItemDataOf FieldData.
Definition PartialItemData := ItemDataOf PartialFieldData.

Record Pagination := {
  pg_limit : Z;
  pg_offset : Z;
  pg_total : Z
}.

Record GetItemsResponse := {
  items : list Item;
  pagination : Pagination
}.

Inductive Method := GET | POST | PATCH | DELETE.

Record RequestOptions := {
  endpoint : string;
  method : option Method;
  body : option jsv
}.

(** *** The object literals built from these records *)

Definition js_of_FieldData (f : FieldData) : jsv :=
  JObj [ ("name", JStr (fd_name f));
         ("slug", JStr (fd_slug f));
         ("active", JBool (fd_active f));
         ("is-virtual", JBool (fd_is_virtual f));
         ("start-date", JStr (fd_start_date f));
         ("end-date", JStr (fd_end_date f));
         ("maps-link", JStr (fd_maps_link f));
         ("class-offering", JStr (fd_class_offering f));
         ("class-language", JStr (fd_class_language f));
         ("days-class-held", JStr (fd_days_class_held f));
         ("start-time-3", JStr (fd_start_time_3 f));
         ("class-end-3", JStr (fd_class_end_3 f));
         ("city", JStr (fd_city f));
         ("state", JStr (fd_state f));
         ("address-formatted", JStr (fd_address_formatted f));
         ("region", JStr (fd_region f)) ].

Definition opt_field (k : string) (mk : string -> jsv) (o : option string)
  : list (string * jsv) :=
  match o with Some s => [(k, mk s)] | None => [] end.

Definition opt_flag (k : string) (o : option bool) : list (string * jsv) :=
  match o with Some b => [(k, JBool b)] | None => [] end.

Definition js_of_PartialFieldData (f : PartialFieldData) : jsv :=
  JObj (opt_field "name" JStr (pfd_name f)
        ++ opt_field "slug" JStr (pfd_slug f)
        ++ opt_flag "active" (pfd_active f)
        ++ opt_flag "is-virtual" (pfd_is_virtual f)
        ++ opt_field "start-date" JStr (pfd_start_date f)
        ++ opt_field "end-date" JStr (pfd_end_date f)
        ++ opt_field "maps-link" JStr (pfd_maps_link f)
        ++ opt_field "class-offering" JStr (pfd_class_offering f)
        ++ opt_field "class-language" JStr (pfd_class_language f)
        ++ opt_field "days-class-held" JStr (pfd_days_class_held f)
        ++ opt_field "start-time-3" JStr (pfd_start_time_3 f)
        ++ opt_field "class-end-3" JStr (pfd_class_end_3 f)
        ++ opt_field "city" JStr (pfd_city f)
        ++ opt_field "state" JStr (pfd_state f)
        ++ opt_field "address-formatted" JStr (pfd_address_formatted f)
        ++ opt_field "region" JStr (pfd_region f)).

Definition js_of_locale (l : Locales) : jsv := JStr (Locales_value l).

(** The value read by [itemData.cmsLocaleId]. *)
Definition js_of_optional_locale (o : optional Locales) : jsv :=
  match o with
  | Defined l => js_of_locale l
  | _ => JUndefined
  end.

(** The own properties of an item-data object, in declaration order. *)
Definition js_of_ItemDataOf {F} (js_of_F : F -> jsv) (d : ItemDataOf F) : jsv :=
  JObj ((match cmsLocaleId d with
         | Missing => []
         | o => [("cmsLocaleId", js_of_optional_locale o)]
         end)
        ++ [ ("isArchived", JBool (isArchived d));
             ("isDraft", JBool (isDraft d));
             ("fieldData", js_of_F (fieldData d)) ]).

Definition js_of_ItemData : ItemData -> jsv := js_of_ItemDataOf js_of_FieldData.
Definition js_of_PartialItemData : PartialItemData -> jsv :=
  js_of_ItemDataOf js_of_PartialFieldData.

(* ================================================================== *)
(** ** Numbers: [Number(s)], [x || 0], [Math.ceil] and [`${n}`]

    A JavaScript number is an IEEE-754 double: here a rational (the
    value of a finite double), NaN or an infinity.  Every mathematical
    value that becomes a number goes through [binary64], the rounding
    to the nearest double with ties to even, overflow to an infinity and
    underflow to zero.  The sign of a zero is not kept: nothing in the
    program tells [-0] from [0]. *)

Inductive jsnum :=
| JNum (q : Q)
| JNaN
| JInf (negative : bool).

(** [n / d] rounded to the nearest integer, a tie going to the even
    one ([0 <= n], [0 < d]). *)
Definition round_half_even (n d : Z) : Z :=
  let q := (n / d)%Z in
  let r := (n mod d)%Z in
  if (2 * r <? d)%Z then q
  else if (d <? 2 * r)%Z then (q + 1)%Z
  else if Z.even q then q else (q + 1)%Z.

(** The exponent of [n / d]: the [e] with [2^e <= n / d < 2^(e+1)]
    ([0 < n], [0 < d]). *)
Definition floor_log2 (n d : Z) : Z :=
  let e := (Z.log2 n - Z.log2 d)%Z in
  let below :=
    if (0 <=? e)%Z then (n <? d * 2 ^ e)%Z else (n * 2 ^ (- e) <? d)%Z in
  if below then (e - 1)%Z else e.

(** The double nearest to [n / d] ([0 < n], [0 < d]): a significand of
    53 bits at the exponent of the value, or at the least exponent
    [-1074] for a subnormal; from [2^1024] on, an infinity. *)
Definition nearest_double (negative : bool) (n d : Z) : jsnum :=
  let s := Z.max (floor_log2 n d - 52) (-1074) in
  let m :=
    if (0 <=? s)%Z then round_half_even n (d * 2 ^ s)
    else round_half_even (n * 2 ^ (- s)) d in
  let m := if negative then (- m)%Z else m in
  if (0 <=? s)%Z then
    if (2 ^ 1024 <=? Z.abs m * 2 ^ s)%Z then JInf negative
    else JNum (inject_Z (m * 2 ^ s))
  else JNum (Qred (Qmake m (Z.to_pos (2 ^ (- s))))).

Definition binary64 (q : Q) : jsnum :=
  match Qnum q with
  | Z0 => JNum 0%Q
  | Zpos n => nearest_double false (Zpos n) (Zpos (Qden q))
  | Zneg n => nearest_double true (Zpos n) (Zpos (Qden q))
  end.

(** RoundMVResult, and the result of an arithmetic operation. *)
Definition rounded (x : jsnum) : jsnum :=
  match x with
  | JNum q => binary64 q
  | other => other
  end.

Definition code (c : ascii) : nat := nat_of_ascii c.

(** StrWhiteSpaceChar, restricted to the code units a header can hold. *)
Definition is_ws (c : ascii) : bool :=
  existsb (Nat.eqb (code c)) [9; 10; 11; 12; 13; 32; 160]%nat.

Definition digit_of (base : nat) (c : ascii) : option Z :=
  let n := code c in
  let v :=
    (if (48 <=? n) && (n <=? 57) then Some (n - 48)
     else if (97 <=? n) && (n <=? 102) then Some (n - 87)
     else if (65 <=? n) && (n <=? 70) then Some (n - 55)
     else None)%nat in
  match v with
  | Some d => if (d <? base)%nat then Some (Z.of_nat d) else None
  | None => None
  end.

(** The longest prefix of digits, and what follows it. *)
Fixpoint span_digits (base : nat) (l : list ascii) : list Z * list ascii :=
  match l with
  | [] => ([], [])
  | c :: rest =>
      match digit_of base c with
      | Some d => let (ds, tl) := span_digits base rest in (d :: ds, tl)
      | None => ([], l)
      end
  end.

Definition digits_value (base : Z) (ds : list Z) : Z :=
  fold_left (fun acc d => base * acc + d)%Z ds 0%Z.

Fixpoint drop_ws (l : list ascii) : list ascii :=
  match l with
  | c :: rest => if is_ws c then drop_ws rest else l
  | [] => []
  end.

Definition trim (l : list ascii) : list ascii :=
  rev (drop_ws (rev (drop_ws l))).

(** [m * 10^e] as a reduced fraction. *)
Definition scale10 (m e : Z) : Q :=
  if (0 <=? e)%Z then inject_Z (m * 10 ^ e)%Z
  else Qred (Qmake m (Z.to_pos (10 ^ (- e))%Z)).

(** ExponentPart_opt at the end of a decimal literal. *)
Definition parse_exponent (l : list ascii) : option Z :=
  match l with
  | [] => Some 0%Z
  | c :: rest =>
      if (code c =? 101)%nat || (code c =? 69)%nat then
        let (neg, rest') :=
          match rest with
          | s :: r => if (code s =? 45)%nat then (true, r)
                      else if (code s =? 43)%nat then (false, r)
                      else (false, rest)
          | [] => (false, rest)
          end in
        match span_digits 10 rest' with
        | ((_ :: _) as ds, []) =>
            let v := digits_value 10%Z ds in Some (if neg then (- v)%Z else v)
        | _ => None
        end
      else None
  end.

(** StrUnsignedDecimalLiteral, without its [Infinity] alternative. *)
Definition parse_unsigned_decimal (l : list ascii) : option Q :=
  let (ip, rest) := span_digits 10 l in
  let (fp, rest') :=
    match rest with
    | c :: r => if (code c =? 46)%nat then
                  let (fp, r') := span_digits 10 r in (Some fp, r')
                else (None, rest)
    | [] => (None, rest)
    end in
  let frac := match fp with Some ds => ds | None => [] end in
  let well_formed :=
    match ip, fp with
    | _ :: _, _ => true
    | [], Some (_ :: _) => true
    | [], _ => false
    end in
  if well_formed then
    match parse_exponent rest' with
    | Some e =>
        Some (scale10 (digits_value 10%Z (ip ++ frac)) (e - Z.of_nat (List.length frac))%Z)
    | None => None
    end
  else None.

Definition parse_radix (base : nat) (l : list ascii) : jsnum :=
  match span_digits base l with
  | ((_ :: _) as ds, []) => JNum (inject_Z (digits_value (Z.of_nat base) ds))
  | _ => JNaN
  end.

Definition Infinity_chars : list ascii := list_ascii_of_string "Infinity".

Definition list_ascii_eqb (a b : list ascii) : bool :=
  String.eqb (string_of_list_ascii a) (string_of_list_ascii b).

(** StrDecimalLiteral: an optional sign, then [Infinity] or digits. *)
Definition parse_decimal (l : list ascii) : jsnum :=
  let (neg, rest) :=
    match l with
    | s :: r => if (code s =? 45)%nat then (true, r)
                else if (code s =? 43)%nat then (false, r)
                else (false, l)
    | [] => (false, l)
    end in
  if list_ascii_eqb rest Infinity_chars then JInf neg
  else match parse_unsigned_decimal rest with
       | Some q => JNum (if neg then Qred (Qopp q) else q)
       | None => JNaN
       end.

(** The mathematical value of a StringNumericLiteral, before it is
    rounded. *)
Definition StringNumericValue (s : string) : jsnum :=
  match trim (list_ascii_of_string s) with
  | [] => JNum 0%Q
  | (z :: x :: rest) as l =>
      if (code z =? 48)%nat then
        if (code x =? 120)%nat || (code x =? 88)%nat then parse_radix 16 rest
        else if (code x =? 111)%nat || (code x =? 79)%nat then parse_radix 8 rest
        else if (code x =? 98)%nat || (code x =? 66)%nat then parse_radix 2 rest
        else parse_decimal l
      else parse_decimal l
  | l => parse_decimal l
  end.

(** StringToNumber. *)
Definition StringToNumber (s : string) : jsnum :=
  rounded (StringNumericValue s).

(** [Number(v)] for [v : string | null], the result type of
    [headers.get]: [Number(null)] is [0]. *)
Definition Number (v : option string) : jsnum :=
  match v with
  | None => JNum 0%Q
  | Some s => StringToNumber s
  end.

(** [x || 0] on a number: NaN and both zeros are falsy. *)
Definition or_zero (x : jsnum) : jsnum :=
  match x with
  | JNaN => JNum 0%Q
  | JNum q => if Qeq_bool q 0%Q then JNum 0%Q else JNum q
  | JInf b => JInf b
  end.

(** Zero, a positive number or [+Infinity]. *)
Definition not_negative (x : jsnum) : Prop :=
  match x with
  | JNum q => (0 <= q)%Q
  | JInf negative => negative = false
  | JNaN => False
  end.

(** [x < 60 ? 1000 * (60 - x) : 0], the delay handed to [setTimeout]:
    the difference is rounded, then the product. *)
Definition pacing_delay (x : jsnum) : jsnum :=
  match x with
  | JNum q =>
      if Qle_bool 60%Q q then JNum 0%Q
      else match binary64 (60 - q)%Q with
           | JNum d => binary64 (1000 * d)%Q
           | other => other
           end
  | JNaN => JNum 0%Q
  | JInf true => JInf false
  | JInf false => JNum 0%Q
  end.

(** [Math.ceil(total / 100)] for an integer [total]. *)
Definition ceil_div_100 (total : Z) : Z := ((total + 99) / 100)%Z.

(** [`${n}`] for an integer [n]. *)
Definition string_of_digit (d : Z) : string :=
  String (ascii_of_nat (48 + Z.to_nat d)) EmptyString.

Fixpoint string_of_pos_aux (fuel : nat) (n : Z) (acc : string) : string :=
  match fuel with
  | O => acc
  | S fuel' =>
      let acc' := (string_of_digit (n mod 10)%Z ++ acc)%string in
      if (n <? 10)%Z then acc' else string_of_pos_aux fuel' (n / 10)%Z acc'
  end.

Definition string_of_Z (n : Z) : string :=
  if (n <? 0)%Z
  then ("-" ++ string_of_pos_aux (S (Z.to_nat (Z.log2 (- n)))) (- n)%Z "")%string
  else string_of_pos_aux (S (Z.to_nat (Z.log2 n))) n "".

(* ================================================================== *)
(** ** Run-time values *)

Definition pid := nat.   (** a promise *)
Definition aref := nat.  (** an array object, by reference *)

(** The [Response] of the global [fetch]: the status line, the two
    headers the connection reads, and what [text()] and [json()] yield
    once the body has arrived ([body_json = None]: the body is not JSON,
    [json()] rejects).

    A JSON body is kept by its shape: an item, a page of items (an
    [items] array with a [pagination] member), the answer of a bulk
    creation (an [items] array alone), or any other JSON value, which
    has no [items] array. *)
Inductive payload :=
| PItem (i : Item)
| PGetItems (r : GetItemsResponse)
| PBulk (created : list Item)
| PJson (j : jsv).

Record Response := {
  status : Z;
  statusText : string;
  x_ratelimit_remaining : option string;
  content_type : option string;
  body_text : string;
  body_json : option payload
}.

Inductive value :=
| VUndefined
| VNumber (n : Z)
| VString (s : string)
| VItem (i : Item)
| VGetItemsResponse (r : GetItemsResponse)
| VBulk (created : list Item)
| VJson (j : jsv)
| VArray (l : list value)
| VItemsRef (a : aref)
| VPromise (p : pid)
| VResponse (r : Response)
| VTypeError (msg : string)
| VSyntaxError
| VTransportError (msg : string).

Definition value_of_payload (p : payload) : value :=
  match p with
  | PItem i => VItem i
  | PGetItems r => VGetItemsResponse r
  | PBulk l => VBulk l
  | PJson j => VJson j
  end.

(** [interface Request extends RequestOptions]: [resolve] and [reject]
    are the two resolving functions of one promise, the completion
    handle [handle]. *)
Record Request := {
  options : RequestOptions;
  handle : pid
}.

(** The callbacks of Webflow.ts, each with its captured variables. *)
Inductive kont :=
| KFetchAllItems (collectionId : string)
    (** [async response => { ... }] of [fetchAllItems] *)
| KPushItems (target : aref)
    (** [response => items.push(...response.items)] *)
| KReturnItems (target : aref)
    (** [() => items] *)
| KFetchItem
    (** [(item: Item) => !item.id ? undefined : item] *)
| KFetchLocales
    (** [siteData => siteData.locales] *)
| KCreateItemAllLocales (collectionId : string)
    (itemData : list (Locales * PartialItemData))
    (** [({items}) => { ... }] of [createItemAllLocales] *)
| KPublish (collectionId : string)
    (** [items => this.publishItems(collectionId, [items[0].id])] *)
| KConsoleLog
    (** [console.log] *)
| KResponse (request : Request).
    (** [response => { ... }] of [request] *)

(** What [then] may be given: nothing, a callback of the source, or a
    built-in function of the promise machinery. *)
Inductive handler :=
| HNone
| HKont (k : kont)
| HAdoptResolve (p : pid)
    (** the resolve function a thenable job makes for [p] *)
| HAdoptReject (p : pid)
    (** the reject function a thenable job makes for [p] *)
| HReject (p : pid)
    (** the reject function of [p]'s own capability *)
| HAllElement (rec : nat) (index : nat)
    (** a resolve-element function of Promise.all *).

Record reaction := {
  on_fulfilled : handler;
  on_rejected : handler;
  capability : pid
}.

Inductive pstate :=
| Pending
| Fulfilled (v : value)
| Rejected (reason : value).

Record pcell := {
  pstatus : pstate;
  alreadyResolved : bool;
  reactions : list reaction
}.

Inductive job :=
| PromiseReactionJob (r : reaction) (rejected : bool) (argument : value)
| PromiseResolveThenableJob (promiseToResolve : pid) (thenable : pid).

(** The record shared by the resolve-element functions of one
    [Promise.all]. *)
Record all_record := {
  all_promise : pid;
  all_values : list value;
  all_remaining : nat
}.

Inductive console_entry :=
| LogDispatch (ratelimit : jsnum) (m : Method) (endpoint : string)
| LogErrorRequest (r : Request)
| LogErrorStatus (status : Z) (statusText : string)
| LogValue (v : value).

(** One call of the global [fetch]. *)
Record Exchange := {
  url : string;
  x_method : Method;
  x_authorization : string;
  x_body : option jsv;
  x_request : Request
}.

(** The fields of [class WebflowConnection]. *)
Record WebflowConnection := {
  PRIMARY_LOCALE : Locales;
  queue : list Request;
  token : string;
  ratelimit : jsnum;
  isFetching : bool
}.

(** The whole machine: the connection, the promise heap and microtask
    queue, the array heap, what the environment still owes (exchanges in
    flight, bodies being read, timers) and the observable traces.

    The promise that the global [fetch] returns belongs to the
    environment: the program only attaches one reaction to it and never
    holds it otherwise, so [inflight] keeps, for each exchange on the
    wire, that reaction.  [submitted] and [exchanged] record every
    request pushed on the queue and every exchange started, in order. *)
Record machine := {
  wf : WebflowConnection;
  promises : list pcell;
  microtasks : list job;
  all_records : list all_record;
  arrays : list (list Item);
  inflight : list reaction;
  decoding : list (pid * (value + value));
  timers : list jsnum;
  console : list console_entry;
  submitted : list Request;
  exchanged : list Exchange
}.

(** [new WebflowConnection(token, primaryLocale)] in a fresh run time. *)
Definition new_WebflowConnection (tok : string) (primaryLocale : Locales)
  : machine :=
  {| wf := {| PRIMARY_LOCALE := primaryLocale; queue := []; token := tok;
              ratelimit := JNum 120%Q; isFetching := false |};
     promises := []; microtasks := []; all_records := []; arrays := [];
     inflight := []; decoding := []; timers := []; console := [];
     submitted := []; exchanged := [] |}.

(** *** Field updates *)

Definition set_wf (f : WebflowConnection -> WebflowConnection) (s : machine)
  : machine :=
  {| wf := f (wf s); promises := promises s; microtasks := microtasks s;
     all_records := all_records s; arrays := arrays s; inflight := inflight s;
     decoding := decoding s; timers := timers s; console := console s;
     submitted := submitted s; exchanged := exchanged s |}.

Definition set_promises (f : list pcell -> list pcell) (s : machine) : machine :=
  {| wf := wf s; promises := f (promises s); microtasks := microtasks s;
     all_records := all_records s; arrays := arrays s; inflight := inflight s;
     decoding := decoding s; timers := timers s; console := console s;
     submitted := submitted s; exchanged := exchanged s |}.

Definition set_microtasks (f : list job -> list job) (s : machine) : machine :=
  {| wf := wf s; promises := promises s; microtasks := f (microtasks s);
     all_records := all_records s; arrays := arrays s; inflight := inflight s;
     decoding := decoding s; timers := timers s; console := console s;
     submitted := submitted s; exchanged := exchanged s |}.

Definition set_all_records (f : list all_record -> list all_record)
  (s : machine) : machine :=
  {| wf := wf s; promises := promises s; microtasks := microtasks s;
     all_records := f (all_records s); arrays := arrays s;
     inflight := inflight s; decoding := decoding s; timers := timers s;
     console := console s; submitted := submitted s;
     exchanged := exchanged s |}.

Definition set_arrays (f : list (list Item) -> list (list Item)) (s : machine)
  : machine :=
  {| wf := wf s; promises := promises s; microtasks := microtasks s;
     all_records := all_records s; arrays := f (arrays s);
     inflight := inflight s; decoding := decoding s; timers := timers s;
     console := console s; submitted := submitted s;
     exchanged := exchanged s |}.

Definition set_inflight (f : list reaction -> list reaction) (s : machine)
  : machine :=
  {| wf := wf s; promises := promises s; microtasks := microtasks s;
     all_records := all_records s; arrays := arrays s;
     inflight := f (inflight s); decoding := decoding s; timers := timers s;
     console := console s; submitted := submitted s;
     exchanged := exchanged s |}.

Definition set_decoding
  (f : list (pid * (value + value)) -> list (pid * (value + value)))
  (s : machine) : machine :=
  {| wf := wf s; promises := promises s; microtasks := microtasks s;
     all_records := all_records s; arrays := arrays s;
     inflight := inflight s; decoding := f (decoding s); timers := timers s;
     console := console s; submitted := submitted s;
     exchanged := exchanged s |}.

Definition set_timers (f : list jsnum -> list jsnum) (s : machine) : machine :=
  {| wf := wf s; promises := promises s; microtasks := microtasks s;
     all_records := all_records s; arrays := arrays s;
     inflight := inflight s; decoding := decoding s; timers := f (timers s);
     console := console s; submitted := submitted s;
     exchanged := exchanged s |}.

Definition set_console (f : list console_entry -> list console_entry)
  (s : machine) : machine :=
  {| wf := wf s; promises := promises s; microtasks := microtasks s;
     all_records := all_records s; arrays := arrays s;
     inflight := inflight s; decoding := decoding s; timers := timers s;
     console := f (console s); submitted := submitted s;
     exchanged := exchanged s |}.

Definition set_submitted (f : list Request -> list Request) (s : machine)
  : machine :=
  {| wf := wf s; promises := promises s; microtasks := microtasks s;
     all_records := all_records s; arrays := arrays s;
     inflight := inflight s; decoding := decoding s; timers := timers s;
     console := console s; submitted := f (submitted s);
     exchanged := exchanged s |}.

Definition set_exchanged (f : list Exchange -> list Exchange) (s : machine)
  : machine :=
  {| wf := wf s; promises := promises s; microtasks := microtasks s;
     all_records := all_records s; arrays := arrays s;
     inflight := inflight s; decoding := decoding s; timers := timers s;
     console := console s; submitted := submitted s;
     exchanged := f (exchanged s) |}.

Definition with_queue (f : list Request -> list Request)
  (c : WebflowConnection) : WebflowConnection :=
  {| PRIMARY_LOCALE := PRIMARY_LOCALE c; queue := f (queue c);
     token := token c; ratelimit := ratelimit c;
     isFetching := isFetching c |}.

Definition with_ratelimit (r : jsnum) (c : WebflowConnection)
  : WebflowConnection :=
  {| PRIMARY_LOCALE := PRIMARY_LOCALE c; queue := queue c;
     token := token c; ratelimit := r; isFetching := isFetching c |}.

Definition with_isFetching (b : bool) (c : WebflowConnection)
  : WebflowConnection :=
  {| PRIMARY_LOCALE := PRIMARY_LOCALE c; queue := queue c;
     token := token c; ratelimit := ratelimit c; isFetching := b |}.

(* ================================================================== *)
(** ** A state monad with exceptions *)

Inductive result (A : Type) :=
| Ok (a : A)
| Throw (e : value).
Arguments Ok {A} a.
Arguments Throw {A} e.

Definition M (A : Type) := machine -> result A * machine.

Definition ret {A} (a : A) : M A := fun s => (Ok a, s).

Definition throw {A} (e : value) : M A := fun s => (Throw e, s).

Definition bind {A B} (m : M A) (f : A -> M B) : M B :=
  fun s =>
    match m s with
    | (Ok a, s') => f a s'
    | (Throw e, s') => (Throw e, s')
    end.

Definition get : M machine := fun s => (Ok s, s).

Definition modify (f : machine -> machine) : M unit := fun s => (Ok tt, f s).

Declare Scope monad_scope.
Delimit Scope monad_scope with monad.
Notation "x <- c1 ;; c2" := (bind c1 (fun x => c2))
  (at level 61, c1 at next level, right associativity) : monad_scope.
Notation "c1 ;; c2" := (bind c1 (fun _ => c2))
  (at level 61, right associativity) : monad_scope.
Local Open Scope monad_scope.

Fixpoint mapM {A B} (f : A -> M B) (l : list A) : M (list B) :=
  match l with
  | [] => ret []
  | x :: rest => y <- f x ;; ys <- mapM f rest ;; ret (y :: ys)
  end.

(** The state a computation leaves behind. *)
Definition exec {A} (m : M A) (s : machine) : machine := snd (m s).

(* ================================================================== *)
(** ** Promises *)

Fixpoint list_update {A} (n : nat) (f : A -> A) (l : list A) : list A :=
  match l, n with
  | [], _ => []
  | x :: rest, O => f x :: rest
  | x :: rest, S n' => x :: list_update n' f rest
  end.

Fixpoint list_remove {A} (n : nat) (l : list A) : list A :=
  match l, n with
  | [], _ => []
  | _ :: rest, O => rest
  | x :: rest, S n' => x :: list_remove n' rest
  end.

Definition fresh_cell : pcell :=
  {| pstatus := Pending; alreadyResolved := false; reactions := [] |}.

Definition cell (p : pid) (s : machine) : pcell := nth p (promises s) fresh_cell.

Definition new_promise : M pid :=
  fun s => (Ok (List.length (promises s)),
            set_promises (fun l => l ++ [fresh_cell]) s).

Definition update_cell (p : pid) (f : pcell -> pcell) : M unit :=
  modify (set_promises (list_update p f)).

Definition enqueue_jobs (js : list job) : M unit :=
  modify (set_microtasks (fun q => q ++ js)).

(** FulfillPromise / RejectPromise: settle a pending promise and hand
    one reaction job per registered reaction to the microtask queue. *)
Definition settle (p : pid) (rejected : bool) (v : value) : M unit :=
  s <- get ;;
  match pstatus (cell p s) with
  | Pending =>
      update_cell p (fun c =>
        {| pstatus := if rejected then Rejected v else Fulfilled v;
           alreadyResolved := alreadyResolved c;
           reactions := [] |}) ;;
      enqueue_jobs
        (map (fun r => PromiseReactionJob r rejected v) (reactions (cell p s)))
  | _ => ret tt
  end.

Definition mark_resolved (p : pid) : M unit :=
  update_cell p (fun c =>
    {| pstatus := pstatus c; alreadyResolved := true;
       reactions := reactions c |}).

(** The steps of a resolve function once its already-resolved flag has
    let the call through: a promise given as the resolution is adopted
    by a later job, anything else fulfils at once. *)
Definition resolve_with (p : pid) (v : value) : M unit :=
  match v with
  | VPromise q =>
      if Nat.eqb q p
      then settle p true (VTypeError "Chaining cycle detected for promise")
      else enqueue_jobs [PromiseResolveThenableJob p q]
  | _ => settle p false v
  end.

(** The resolve function of the promise's own capability (the one an
    executor, a [then] or an [async] function holds).  It shares its
    already-resolved flag with [reject_fn]. *)
Definition resolve_fn (p : pid) (v : value) : M unit :=
  s <- get ;;
  if alreadyResolved (cell p s) then ret tt
  else mark_resolved p ;; resolve_with p v.

(** The reject function of the promise's own capability: the reason is
    taken as it is, also when it is a promise. *)
Definition reject_fn (p : pid) (reason : value) : M unit :=
  s <- get ;;
  if alreadyResolved (cell p s) then ret tt
  else mark_resolved p ;; settle p true reason.

(** [p.then(onFulfilled, onRejected)]. *)
Definition perform_then (p : pid) (onFulfilled onRejected : handler) : M pid :=
  d <- new_promise ;;
  let r := {| on_fulfilled := onFulfilled; on_rejected := onRejected;
              capability := d |} in
  s <- get ;;
  match pstatus (cell p s) with
  | Pending =>
      update_cell p (fun c =>
        {| pstatus := pstatus c; alreadyResolved := alreadyResolved c;
           reactions := reactions c ++ [r] |})
  | Fulfilled v => enqueue_jobs [PromiseReactionJob r false v]
  | Rejected e => enqueue_jobs [PromiseReactionJob r true e]
  end ;;
  ret d.

(** [Promise.resolve(v)]. *)
Definition promise_resolve (v : value) : M pid :=
  match v with
  | VPromise p => ret p
  | _ => p <- new_promise ;; resolve_fn p v ;; ret p
  end.

Definition rec_at (r : nat) (s : machine) : all_record :=
  nth r (all_records s)
      {| all_promise := 0; all_values := []; all_remaining := 0 |}.

Definition update_rec (r : nat) (f : all_record -> all_record) : M unit :=
  modify (set_all_records (list_update r f)).

(** The countdown shared by the end of [Promise.all]'s loop and by each
    resolve-element function. *)
Definition all_countdown (r : nat) : M unit :=
  update_rec r (fun a =>
    {| all_promise := all_promise a; all_values := all_values a;
       all_remaining := pred (all_remaining a) |}) ;;
  s <- get ;;
  let a := rec_at r s in
  if Nat.eqb (all_remaining a) 0
  then resolve_fn (all_promise a) (VArray (all_values a))
  else ret tt.

(** A resolve-element function of [Promise.all].  Its own
    already-called flag is left out: the promise it is attached to calls
    it at most once. *)
Definition all_resolve_element (r index : nat) (v : value) : M unit :=
  update_rec r (fun a =>
    {| all_promise := all_promise a;
       all_values := list_update index (fun _ => v) (all_values a);
       all_remaining := all_remaining a |}) ;;
  all_countdown r.

Fixpoint all_loop (r : nat) (result : pid) (index : nat) (vs : list value)
  : M unit :=
  match vs with
  | [] => ret tt
  | v :: rest =>
      update_rec r (fun a =>
        {| all_promise := all_promise a;
           all_values := all_values a ++ [VUndefined];
           all_remaining := S (all_remaining a) |}) ;;
      next <- promise_resolve v ;;
      _ <- perform_then next (HAllElement r index) (HReject result) ;;
      all_loop r result (S index) rest
  end.

(** [Promise.all(vs)]. *)
Definition promise_all (vs : list value) : M pid :=
  result <- new_promise ;;
  s <- get ;;
  let r := List.length (all_records s) in
  modify (set_all_records (fun l =>
    l ++ [{| all_promise := result; all_values := []; all_remaining := 1 |}])) ;;
  all_loop r result 0 vs ;;
  all_countdown r ;;
  ret result.

(** An [async] function: its promise is made first, the body runs at
    once, a returned value resolves the promise and a thrown one rejects
    it; the call itself never throws. *)
Definition async (body : M value) : M pid :=
  fun s =>
    let (_, s0) := new_promise s in
    let p := List.length (promises s) in
    match body s0 with
    | (Ok v, s1) => (Ok p, exec (resolve_fn p v) s1)
    | (Throw e, s1) => (Ok p, exec (reject_fn p e) s1)
    end.

(* ================================================================== *)
(** ** The environment: global [fetch], body decoding, timers, console *)

Definition console_log (e : console_entry) : M unit :=
  modify (set_console (fun l => l ++ [e])).

(** [s.includes(needle)]. *)
Definition includes (needle s : string) : bool :=
  match String.index 0 needle s with
  | Some _ => true
  | None => false
  end.

(** [fetch(url, init).then(onFulfilled)] on the global [fetch]: the
    exchange goes on the wire, and the reaction waits for the
    environment to settle the promise of the exchange.  [x_body] is the
    object handed to [JSON.stringify]. *)
Definition global_fetch_then (x : Exchange) (onFulfilled : handler) : M pid :=
  d <- new_promise ;;
  modify (set_exchanged (fun l => l ++ [x])) ;;
  modify (set_inflight (fun l =>
    l ++ [{| on_fulfilled := onFulfilled; on_rejected := HNone;
             capability := d |}])) ;;
  ret d.

(** [response.headers.get("Content-Type")?.includes("application/json")
    ? response.json() : response.text()] yields a promise; [decoded] is
    what that promise settles with once the body has been read: the
    decoded body, or the error of a body that is not JSON. *)
Definition decoded (response : Response) : value + value :=
  if match content_type response with
     | Some ct => includes "application/json" ct
     | None => false
     end
  then match body_json response with
       | Some p => inl (value_of_payload p)
       | None => inr VSyntaxError
       end
  else inl (VString (body_text response)).

Definition decode (response : Response) : M pid :=
  d <- new_promise ;;
  modify (set_decoding (fun l => l ++ [(d, decoded response)])) ;;
  ret d.

(** [setTimeout(() => this.request(), delay)]. *)
Definition setTimeout (delay : jsnum) : M unit :=
  modify (set_timers (fun l => l ++ [delay])).

(* ================================================================== *)
(** ** class WebflowConnection *)

Definition method_or_GET (o : option Method) : Method :=
  match o with Some m => m | None => GET end.

(** [private async request()]: one dispatch cycle. *)
Definition request_body : M value :=
  s <- get ;;
  if isFetching (wf s) then ret VUndefined
  else
    match queue (wf s) with
    | [] => ret VUndefined
    | req :: rest =>
        modify (set_wf (with_queue (fun _ => rest))) ;;
        console_log (LogDispatch (ratelimit (wf s))
                       (method_or_GET (method (options req)))
                       (endpoint (options req))) ;;
        modify (set_wf (with_isFetching true)) ;;
        _ <- global_fetch_then
               {| url := ("https://api.webflow.com/beta/"
                            ++ endpoint (options req))%string;
                  x_method := method_or_GET (method (options req));
                  x_authorization := ("Bearer " ++ token (wf s))%string;
                  x_body := body (options req);
                  x_request := req |}
               (HKont (KResponse req)) ;;
        ret VUndefined
    end.

Definition request : M pid := async request_body.

(** [fetch(options: RequestOptions | string)]. *)
Definition fetch (options : RequestOptions + string) : M pid :=
  let options :=
    match options with
    | inr e => {| endpoint := e; method := None; body := None |}
    | inl o => o
    end in
  promise <- new_promise ;;
  let req := {| options := options; handle := promise |} in
  modify (set_wf (with_queue (fun q => q ++ [req]))) ;;
  modify (set_submitted (fun l => l ++ [req])) ;;
  _ <- request ;;
  ret promise.

(** The callback of [request]: [response => { ... }]. *)
Definition on_response (req : Request) (response : Response) : M value :=
  modify (set_wf (with_isFetching false)) ;;
  modify (set_wf (with_ratelimit
                    (or_zero (Number (x_ratelimit_remaining response))))) ;;
  (if (status response >? 299)%Z then
     console_log (LogErrorRequest req) ;;
     console_log (LogErrorStatus (status response) (statusText response)) ;;
     d <- decode response ;;
     reject_fn (handle req) (VPromise d)
   else
     d <- decode response ;;
     resolve_fn (handle req) (VPromise d)) ;;
  s <- get ;;
  match queue (wf s) with
  | [] => ret VUndefined
  | _ :: _ => setTimeout (pacing_delay (ratelimit (wf s))) ;; ret VUndefined
  end.

Definition items_endpoint (collectionId : string) (limit offset : Z) : string :=
  ("collections/" ++ collectionId ++ "/items?offset=" ++ string_of_Z offset
     ++ "&limit=" ++ string_of_Z limit)%string.

(** [async fetchItems(collectionId, limit = 100, offset = 0)]. *)
Definition fetchItems (collectionId : string) (limit offset : Z) : M pid :=
  async (p <- fetch (inr (items_endpoint collectionId limit offset)) ;;
         ret (VPromise p)).

(** [response.items], or the [items] of a destructuring pattern: the
    array of a page or of a bulk answer, [undefined] on anything else. *)
Definition response_items (response : value) : option (list Item) :=
  match response with
  | VGetItemsResponse r => Some (items r)
  | VBulk created => Some created
  | _ => None
  end.

(** The callback of [fetchAllItems]: [async response => { ... }].  Only a
    page has the [pagination] member the callback reads next. *)
Definition fetchAllItems_pages (collectionId : string) (response : value)
  : M pid :=
  async
    (match response with
     | VGetItemsResponse r =>
         s <- get ;;
         let target := List.length (arrays s) in
         modify (set_arrays (fun l => l ++ [items r])) ;;
         let totalItems := pg_total (pagination r) in
         promises <-
           mapM (fun i =>
                   p <- fetchItems collectionId 100 (Z.of_nat i * 100) ;;
                   d <- perform_then p (HKont (KPushItems target)) HNone ;;
                   ret (VPromise d))
                (seq 1 (Z.to_nat (ceil_div_100 totalItems - 1))) ;;
         all <- promise_all promises ;;
         d <- perform_then all (HKont (KReturnItems target)) HNone ;;
         ret (VPromise d)
     | _ => throw (VTypeError "Cannot read properties of undefined")
     end).

(** [response => items.push(...response.items)]. *)
Definition push_items (target : aref) (response : value) : M value :=
  match response_items response with
  | Some pushed =>
      modify (set_arrays (list_update target (fun l => l ++ pushed))) ;;
      s <- get ;;
      ret (VNumber (Z.of_nat (List.length (nth target (arrays s) []))))
  | None => throw (VTypeError "Spread syntax requires ...iterable")
  end.

(** [async fetchAllItems(collectionId)]. *)
Definition fetchAllItems (collectionId : string) : M pid :=
  async (p <- fetchItems collectionId 100 0 ;;
         d <- perform_then p (HKont (KFetchAllItems collectionId)) HNone ;;
         ret (VPromise d)).

(** [(item: Item) => !item.id ? undefined : item]. *)
Definition fetchItem_normalize (item : value) : M value :=
  match item with
  | VItem i => ret (if String.eqb (Item_id i) "" then VUndefined else item)
  | VJson (JObj fields) =>
      ret (match assoc_get "id" fields with
           | None | Some JUndefined | Some JNull | Some (JBool false) =>
               VUndefined
           | Some (JStr s) => if String.eqb s "" then VUndefined else item
           | Some _ => item
           end)
  | VUndefined => throw (VTypeError "Cannot read properties of undefined")
  | VJson JNull => throw (VTypeError "Cannot read properties of null")
  | _ => ret VUndefined
  end.

(** [async fetchItem(collectionId, itemId, localeId?)]. *)
Definition fetchItem (collectionId itemId : string) (localeId : option Locales)
  : M pid :=
  async (p <- fetch (inr ("collections/" ++ collectionId ++ "/items/" ++ itemId
                            ++ "?"
                            ++ match localeId with
                               | Some l => "cmsLocaleId=" ++ Locales_value l
                               | None => ""
                               end)%string) ;;
         d <- perform_then p (HKont KFetchItem) HNone ;;
         ret (VPromise d)).

(** [siteData => siteData.locales]. *)
Definition fetchLocales_pick (siteData : value) : M value :=
  match siteData with
  | VJson JNull => throw (VTypeError "Cannot read properties of null")
  | VJson j => ret (match obj_get "locales" j with
                    | Some l => VJson l
                    | None => VUndefined
                    end)
  | VUndefined => throw (VTypeError "Cannot read properties of undefined")
  | _ => ret VUndefined
  end.

(** [async fetchLocales()]. *)
Definition fetchLocales : M pid :=
  async (p <- fetch (inr "sites/65012459c8bf8aa9d483a9f7") ;;
         d <- perform_then p (HKont KFetchLocales) HNone ;;
         ret (VPromise d)).

Definition live_suffix (live : bool) : string := if live then "/live" else "".

(** [async updateItem(collectionId, itemId, itemData, live = true)]. *)
Definition updateItem (collectionId itemId : string)
  (itemData : PartialItemData) (live : bool) : M pid :=
  async (p <- fetch (inl
           {| endpoint := ("collections/" ++ collectionId ++ "/items/" ++ itemId
                             ++ live_suffix live)%string;
              method := Some PATCH;
              body := Some (JObj
                [ ("isArchived", JBool (isArchived itemData));
                  ("isDraft", JBool (isDraft itemData));
                  ("fieldData", js_of_PartialFieldData (fieldData itemData));
                  ("cmsLocaleId",
                   js_of_optional_locale (cmsLocaleId itemData)) ]) |}) ;;
         ret (VPromise p)).

(** [async createItem(collectionId, itemData, live = true)]. *)
Definition createItem (collectionId : string) (itemData : ItemData)
  (live : bool) : M pid :=
  async (p <- fetch (inl
           {| endpoint := ("collections/" ++ collectionId ++ "/items"
                             ++ live_suffix live)%string;
              method := Some POST;
              body := Some (JObj
                [ ("isArchived", JBool (isArchived itemData));
                  ("isDraft", JBool (isDraft itemData));
                  ("fieldData", js_of_ItemData itemData) ]) |}) ;;
         ret (VPromise p)).

(** [async publishItems(collectionId, itemIds)]. *)
Definition publishItems (collectionId : string) (itemIds : list string)
  : M pid :=
  async (p <- fetch (inl
           {| endpoint := ("collections/" ++ collectionId
                             ++ "/items/publish")%string;
              method := Some POST;
              body := Some (JObj [("itemIds", JArr (map JStr itemIds))]) |}) ;;
         ret (VPromise p)).

(** [itemData[locale]] on a [Record<Locales, PartialItemData>], kept as
    its list of entries in key order. *)
Fixpoint lookup_locale (l : Locales) (itemData : list (Locales * PartialItemData))
  : option PartialItemData :=
  match itemData with
  | [] => None
  | (k, d) :: rest => if Locales_eqb l k then Some d else lookup_locale l rest
  end.

(** [Object.keys(itemData)]. *)
Definition Object_keys (itemData : list (Locales * PartialItemData))
  : list Locales := map fst itemData.

(** [{cmsLocaleId: locale, ...data}]: an own [cmsLocaleId] of [data]
    overrides the one written first. *)
Definition spread_locale (locale : Locales) (data : PartialItemData)
  : PartialItemData :=
  {| cmsLocaleId := match cmsLocaleId data with
                    | Missing => Defined locale
                    | o => o
                    end;
     isArchived := isArchived data;
     isDraft := isDraft data;
     fieldData := fieldData data |}.

(** The loop of the callback of [createItemAllLocales]: one [updateItem]
    per key other than the primary locale.  [mainItem.id] throws when
    [find] found nothing; [itemData[locale]] is there for every key of
    [itemData]. *)
Fixpoint update_locales (collectionId : string) (mainItem : option Item)
  (primary : Locales) (itemData : list (Locales * PartialItemData))
  (keys : list Locales) : M (list value) :=
  match keys with
  | [] => ret []
  | locale :: rest =>
      if Locales_eqb locale primary
      then update_locales collectionId mainItem primary itemData rest
      else
        match mainItem, lookup_locale locale itemData with
        | Some m, Some data =>
            p <- updateItem collectionId (Item_id m)
                   (spread_locale locale data) false ;;
            ps <- update_locales collectionId mainItem primary itemData rest ;;
            ret (VPromise p :: ps)
        | _, _ => throw (VTypeError "Cannot read properties of undefined")
        end
  end.

(** [items.find(item => item.cmsLocaleId === this.PRIMARY_LOCALE)]. *)
Definition find_main (primary : Locales) (created : list Item) : option Item :=
  find (fun item => Locales_eqb (Item_cmsLocaleId item) primary) created.

(** The callback of [createItemAllLocales]: [({items}) => { ... }]. *)
Definition createItemAllLocales_updates (collectionId : string)
  (itemData : list (Locales * PartialItemData)) (response : value) : M value :=
  match response_items response with
  | Some created =>
      s <- get ;;
      let primary := PRIMARY_LOCALE (wf s) in
      let mainItem := find_main primary created in
      promises <- update_locales collectionId mainItem primary itemData
                    (Object_keys itemData) ;;
      all <- promise_all
               (match mainItem with Some m => VItem m | None => VUndefined end
                :: promises) ;;
      ret (VPromise all)
  | None => throw (VTypeError "Cannot read properties of undefined")
  end.

(** [items => this.publishItems(collectionId, [items[0].id])]. *)
Definition publish_first (collectionId : string) (created : value) : M value :=
  match created with
  | VArray (VItem m :: _) =>
      p <- publishItems collectionId [Item_id m] ;; ret (VPromise p)
  | _ => throw (VTypeError "Cannot read properties of undefined")
  end.

(** [async createItemAllLocales(collectionId, itemData, live = true)]. *)
Definition createItemAllLocales (collectionId : string)
  (itemData : list (Locales * PartialItemData)) (live : bool) : M pid :=
  async
    (s <- get ;;
     match lookup_locale (PRIMARY_LOCALE (wf s)) itemData with
     | None => throw (VTypeError "Cannot read properties of undefined")
     | Some primaryData =>
         p <- fetch (inl
                {| endpoint := ("collections/" ++ collectionId
                                  ++ "/items/bulk")%string;
                   method := Some POST;
                   body := Some (JObj
                     [ ("isArchived", JBool (isArchived primaryData));
                       ("isDraft", JBool (isDraft primaryData));
                       ("fieldData",
                        js_of_PartialFieldData (fieldData primaryData));
                       ("cmsLocaleIds",
                        JArr (map js_of_locale (Object_keys itemData))) ]) |}) ;;
         promise <- perform_then p
                      (HKont (KCreateItemAllLocales collectionId itemData))
                      HNone ;;
         (if live then
            published <- perform_then promise (HKont (KPublish collectionId))
                           HNone ;;
            _ <- perform_then published (HKont KConsoleLog) HNone ;;
            ret tt
          else ret tt) ;;
         ret (VPromise promise)
     end).

Definition delete_endpoint (collectionId itemId : string) (live : bool)
  (locale : Locales) : string :=
  ("collections/" ++ collectionId ++ "/items/" ++ itemId
     ++ (if live then "" else "/live")
     ++ "?cmsLocaleIds=" ++ Locales_value locale)%string.

Definition delete_options (collectionId itemId : string) (live : bool)
  (locale : Locales) : RequestOptions :=
  {| endpoint := delete_endpoint collectionId itemId live locale;
     method := Some DELETE;
     body := None |}.

(** [async deleteItem(collectionId, itemId,
    localeIds = Object.values(Locales), live = true)]. *)
Definition deleteItem (collectionId itemId : string) (localeIds : list Locales)
  (live : bool) : M pid :=
  async
    (handles <- mapM (fun locale =>
                        p <- fetch (inl (delete_options collectionId itemId
                                           live locale)) ;;
                        ret (VPromise p))
                     localeIds ;;
     all <- promise_all handles ;;
     ret (VPromise all)).

(* ================================================================== *)
(** ** Jobs, the microtask queue and the environment's events *)

Definition run_kont (k : kont) (v : value) : M value :=
  match k with
  | KFetchAllItems collectionId =>
      p <- fetchAllItems_pages collectionId v ;; ret (VPromise p)
  | KPushItems target => push_items target v
  | KReturnItems target => ret (VItemsRef target)
  | KFetchItem => fetchItem_normalize v
  | KFetchLocales => fetchLocales_pick v
  | KCreateItemAllLocales collectionId itemData =>
      createItemAllLocales_updates collectionId itemData v
  | KPublish collectionId => publish_first collectionId v
  | KConsoleLog => console_log (LogValue v) ;; ret VUndefined
  | KResponse req =>
      match v with
      | VResponse response => on_response req response
      | _ => throw (VTypeError "Cannot read properties of undefined")
      end
  end.

Definition run_handler (h : handler) (rejected : bool) (v : value) : M value :=
  match h with
  | HNone => if rejected then throw v else ret v
  | HKont k => run_kont k v
  | HAdoptResolve p => resolve_with p v ;; ret VUndefined
  | HAdoptReject p => settle p true v ;; ret VUndefined
  | HReject p => reject_fn p v ;; ret VUndefined
  | HAllElement r index => all_resolve_element r index v ;; ret VUndefined
  end.

Definition run_job (j : job) : M unit :=
  match j with
  | PromiseReactionJob r rejected v =>
      fun s =>
        match run_handler (if rejected then on_rejected r else on_fulfilled r)
                rejected v s with
        | (Ok x, s') => resolve_fn (capability r) x s'
        | (Throw e, s') => reject_fn (capability r) e s'
        end
  | PromiseResolveThenableJob p thenable =>
      _ <- perform_then thenable (HAdoptResolve p) (HAdoptReject p) ;; ret tt
  end.

(** Run the oldest microtask, if there is one. *)
Definition microtask (s : machine) : option machine :=
  match microtasks s with
  | [] => None
  | j :: rest => Some (exec (run_job j) (set_microtasks (fun _ => rest) s))
  end.

(** Run microtasks until none is left; [None] when [fuel] of them were
    not enough. *)
Fixpoint drain (fuel : nat) (s : machine) : option machine :=
  match microtask s with
  | None => Some s
  | Some s' =>
      match fuel with
      | O => None
      | S fuel' => drain fuel' s'
      end
  end.

(** What the environment can do between two turns of the event loop. *)
Inductive event :=
| EvResponse (n : nat) (r : Response)
    (** the n-th exchange in flight completes with a response *)
| EvTransportFailure (n : nat) (msg : string)
    (** the n-th exchange in flight fails: its [fetch] promise rejects *)
| EvBody (n : nat)
    (** the n-th body being read has arrived *)
| EvTimer (n : nat)
    (** the n-th timer fires *).

Definition occur (e : event) : M unit :=
  s <- get ;;
  match e with
  | EvResponse n r =>
      match nth_error (inflight s) n with
      | None => ret tt
      | Some waiting =>
          modify (set_inflight (list_remove n)) ;;
          enqueue_jobs [PromiseReactionJob waiting false (VResponse r)]
      end
  | EvTransportFailure n msg =>
      match nth_error (inflight s) n with
      | None => ret tt
      | Some waiting =>
          modify (set_inflight (list_remove n)) ;;
          enqueue_jobs [PromiseReactionJob waiting true (VTransportError msg)]
      end
  | EvBody n =>
      match nth_error (decoding s) n with
      | None => ret tt
      | Some (d, outcome) =>
          modify (set_decoding (list_remove n)) ;;
          match outcome with
          | inl v => settle d false v
          | inr e => settle d true e
          end
      end
  | EvTimer n =>
      match nth_error (timers s) n with
      | None => ret tt
      | Some _ =>
          modify (set_timers (list_remove n)) ;;
          _ <- request ;;
          ret tt
      end
  end.

(** The calls the program that owns the connection can make. *)
Inductive api_call :=
| CallFetch (options : RequestOptions + string)
| CallFetchAllItems (collectionId : string)
| CallFetchItems (collectionId : string) (limit offset : Z)
| CallFetchItem (collectionId itemId : string) (localeId : option Locales)
| CallFetchLocales
| CallUpdateItem (collectionId itemId : string) (itemData : PartialItemData)
    (live : bool)
| CallCreateItem (collectionId : string) (itemData : ItemData) (live : bool)
| CallCreateItemAllLocales (collectionId : string)
    (itemData : list (Locales * PartialItemData)) (live : bool)
| CallPublishItems (collectionId : string) (itemIds : list string)
| CallDeleteItem (collectionId itemId : string) (localeIds : list Locales)
    (live : bool).

Definition perform (c : api_call) : M pid :=
  match c with
  | CallFetch o => fetch o
  | CallFetchAllItems c => fetchAllItems c
  | CallFetchItems c l o => fetchItems c l o
  | CallFetchItem c i l => fetchItem c i l
  | CallFetchLocales => fetchLocales
  | CallUpdateItem c i d l => updateItem c i d l
  | CallCreateItem c d l => createItem c d l
  | CallCreateItemAllLocales c d l => createItemAllLocales c d l
  | CallPublishItems c l => publishItems c l
  | CallDeleteItem c i ls l => deleteItem c i ls l
  end.

(** One turn of the event loop: a call by the program or an event of
    the environment, then every microtask it leaves. *)
Inductive action :=
| Call (c : api_call)
| Event (e : event).

Definition begin (a : action) (s : machine) : machine :=
  match a with
  | Call c => exec (perform c) s
  | Event e => exec (occur e) s
  end.

Definition turn (fuel : nat) (a : action) (s : machine) : option machine :=
  drain fuel (begin a s).

Fixpoint run (fuel : nat) (script : list action) (s : machine)
  : option machine :=
  match script with
  | [] => Some s
  | a :: rest =>
      match turn fuel a s with
      | Some s' => run fuel rest s'
      | None => None
      end
  end.

(** Everything that can happen to the machine, one step at a time: an
    event of the environment, one microtask, or a call by the program.
    (The event loop only lets an event or a call in when no microtask is
    left; the steps below allow every interleaving, those included.) *)
Inductive step : machine -> machine -> Prop :=
| step_event e s : step s (exec (occur e) s)
| step_microtask s s' : microtask s = Some s' -> step s s'
| step_call c s : step s (exec (perform c) s).

Inductive steps : machine -> machine -> Prop :=
| steps_refl s : steps s s
| steps_snoc s1 s2 s3 : steps s1 s2 -> step s2 s3 -> steps s1 s3.

Definition reachable (s : machine) : Prop :=
  exists tok primaryLocale, steps (new_WebflowConnection tok primaryLocale) s.

(** [preserves I m]: the computation [m] keeps the invariant [I]. *)
Definition preserves {A} (I : machine -> Prop) (m : M A) : Prop :=
  forall s, I s -> I (snd (m s)).


(* ================================================================== *)
(** ** What the dispatcher's discipline is stated on *)

(** A handler that runs the callback of [request]. *)
Definition is_response_handler (h : handler) : bool :=
  match h with
  | HKont (KResponse _) => true
  | _ => false
  end.

(** A microtask that will run the callback of [request]. *)
Definition is_response_job (j : job) : bool :=
  match j with
  | PromiseReactionJob r rejected _ =>
      is_response_handler (if rejected then on_rejected r else on_fulfilled r)
  | PromiseResolveThenableJob _ _ => false
  end.

(** The responses that have arrived and wait for their callback. *)
Definition arrived (s : machine) : nat :=
  List.length (filter is_response_job (microtasks s)).

(** No reaction stored in the promise heap runs the callback of
    [request]: that callback only ever waits on the environment, and
    nothing waits there for a failure. *)
Definition clean_reaction (r : reaction) : Prop :=
  is_response_handler (on_fulfilled r) = false
  /\ is_response_handler (on_rejected r) = false.

Definition clean (s : machine) : Prop :=
  Forall (fun c => Forall clean_reaction (reactions c)) (promises s)
  /\ Forall (fun r => on_rejected r = HNone) (inflight s).

(** What the dispatcher's invariant looks at. *)
Definition view (s : machine)
  : WebflowConnection * list reaction * list Request * list Exchange * nat :=
  (wf s, inflight s, submitted s, exchanged s, arrived s).

(** [quiet m]: [m] works on promises, arrays, timers and the console
    only. *)
Definition quiet {A} (m : M A) : Prop :=
  forall s, clean s -> clean (snd (m s)) /\ view (snd (m s)) = view s.

(** An invariant that only depends on [clean] and [view]. *)
Definition respects (I : machine -> Prop) : Prop :=
  (forall s, I s -> clean s)
  /\ (forall s s', clean s' -> view s' = view s -> I s -> I s').

(** The exchanges on the wire or answered but not yet handled. *)
Definition busy (s : machine) : nat := List.length (inflight s) + arrived s.

(** The discipline of the dispatcher:
    - every request ever pushed is either still queued or was sent, and
      the requests sent followed by the queue are the requests pushed,
      in the order they were pushed;
    - at most one exchange is under way;
    - none is under way while [isFetching] is false. *)
Definition single_flight (s : machine) : Prop :=
  clean s
  /\ submitted s = map x_request (exchanged s) ++ queue (wf s)
  /\ busy s <= 1
  /\ (isFetching (wf s) = false -> busy s = 0).

(** The same with no exchange under way: what the callback of [request]
    finds when it starts. *)
Definition answered (s : machine) : Prop :=
  clean s
  /\ submitted s = map x_request (exchanged s) ++ queue (wf s)
  /\ busy s = 0.

(** [keeps f m]: the computation [m] leaves [f] of the state as it is. *)
Definition keeps {A X} (f : machine -> X) (m : M A) : Prop :=
  forall s, f (snd (m s)) = f s.

(** The part of the state the promise machinery never writes. *)
Definition dispatch (s : machine)
  : WebflowConnection * list reaction * list Request * list Exchange :=
  (wf s, inflight s, submitted s, exchanged s).

(** The options [fetch] works with: a string is an endpoint to GET. *)
Definition options_of (o : RequestOptions + string) : RequestOptions :=
  match o with
  | inl o' => o'
  | inr e => {| endpoint := e; method := None; body := None |}
  end.

(** *** Sample data *)

Definition sample_fields : FieldData :=
  {| fd_name := "Emotional Resilience"; fd_slug := "emotional-resilience";
     fd_active := true; fd_is_virtual := false;
     fd_start_date := "2024-03-01"; fd_end_date := "2024-05-31";
     fd_maps_link := ""; fd_class_offering := "Emotional Resilience";
     fd_class_language := "English"; fd_days_class_held := "Monday";
     fd_start_time_3 := "18:00"; fd_class_end_3 := "19:30";
     fd_city := "Dallas"; fd_state := "TX";
     fd_address_formatted := "1 Main St, Dallas, TX"; fd_region := "South" |}.

Definition sample_partial_fields (name days : string) : PartialFieldData :=
  {| pfd_name := Some name; pfd_slug := None; pfd_active := None;
     pfd_is_virtual := None; pfd_start_date := None; pfd_end_date := None;
     pfd_maps_link := None; pfd_class_offering := None;
     pfd_class_language := None; pfd_days_class_held := Some days;
     pfd_start_time_3 := None; pfd_class_end_3 := None; pfd_city := None;
     pfd_state := None; pfd_address_formatted := None; pfd_region := None |}.

Definition sample_item (id : string) (locale : Locales) : Item :=
  {| Item_id := id; Item_cmsLocaleId := locale; Item_lastPublished := "";
     Item_lastUpdated := ""; Item_createdOn := ""; Item_isArchived := false;
     Item_isDraft := false; Item_fieldData := sample_fields |}.

Definition sample_itemData : ItemData :=
  {| cmsLocaleId := Missing; isArchived := false; isDraft := true;
     fieldData := sample_fields |}.

Definition sample_partial (name days : string) : PartialItemData :=
  {| cmsLocaleId := Missing; isArchived := false; isDraft := false;
     fieldData := sample_partial_fields name days |}.

Definition sample_locales : list (Locales * PartialItemData) :=
  [ (ENGLISH, sample_partial "Class" "Monday");
    (SPANISH, sample_partial "Clase" "Lunes");
    (CHINESE, sample_partial "Ke" "Zhouyi") ].

(** A response with a JSON body. *)
Definition json_response (code : Z) (remaining : option string) (p : payload)
  : Response :=
  {| status := code; statusText := "";
     x_ratelimit_remaining := remaining;
     content_type := Some "application/json; charset=utf-8";
     body_text := ""; body_json := Some p |}.

Definition page (total : Z) (offset : Z) (l : list Item) : payload :=
  PGetItems {| items := l;
               pagination := {| pg_limit := 100; pg_offset := offset;
                                pg_total := total |} |}.

(** The dispatcher after a transport failure: [isFetching] is set and
    nothing is under way that could clear it.  [stalled_at x s] also
    says that the exchanges started so far are [x]. *)
Definition stalled_at (x : list Exchange) (s : machine) : Prop :=
  clean s /\ isFetching (wf s) = true /\ busy s = 0 /\ exchanged s = x.

(** A header value made of decimal digits only, and the number it
    denotes. *)
Definition is_decimal_digit (c : ascii) : bool :=
  ((48 <=? code c) && (code c <=? 57))%nat.

Definition decimal_value (ds : list ascii) : Z :=
  digits_value 10 (map (fun c => Z.of_nat (code c - 48)) ds).

(** A first call on a new connection: [fetch(endpoint)]. *)
Definition first_fetch (endpoint : string) : machine :=
  exec (fetch (inr endpoint)) (new_WebflowConnection "token" ENGLISH).

Definition first_request (endpoint : string) : Request :=
  {| options := {| endpoint := endpoint; method := None; body := None |};
     handle := 0 |}.

(** An error body such as the server sends with a 400. *)
Definition validation_error : payload :=
  PJson (JObj [("code", JStr "validation_error");
               ("message", JStr "Validation Failure")]).

(** A response that reports success and whose body decodes to [p]. *)
Definition successful (r : Response) (p : payload) : Prop :=
  (status r <= 299)%Z /\ decoded r = inl (value_of_payload p).

(** *** The runs the claims about the sagas are stated on *)

Definition api_base : string := "https://api.webflow.com/beta/".

(** The method and URL of every exchange started so far. *)
Definition wire (s : machine) : list (Method * string) :=
  map (fun x => (x_method x, url x)) (exchanged s).

(** [fetchAllItems(c)] on a new connection, answered with three pages.
    The first page must be decoded before the other two are asked for;
    the second request waits in the queue until the timer set after the
    first response fires.  That leaves four orders of events, told apart
    by when the body of the page at offset 100 arrives: before the timer
    (0), after it (1), after the response for offset 200 (2), or after
    the body of that response (3). *)
Definition fetchAll_schedule (c : string) (r0 r1 r2 : Response) (k : nat)
  : list action :=
  [ Call (CallFetchAllItems c);
    Event (EvResponse 0 r0); Event (EvBody 0); Event (EvResponse 0 r1) ]
  ++ match k with
     | 0 => [ Event (EvBody 0); Event (EvTimer 0);
              Event (EvResponse 0 r2); Event (EvBody 0) ]
     | 1 => [ Event (EvTimer 0); Event (EvBody 0);
              Event (EvResponse 0 r2); Event (EvBody 0) ]
     | 2 => [ Event (EvTimer 0); Event (EvResponse 0 r2);
              Event (EvBody 0); Event (EvBody 0) ]
     | _ => [ Event (EvTimer 0); Event (EvResponse 0 r2);
              Event (EvBody 1); Event (EvBody 0) ]
     end.

(** The method, URL and body of every exchange started so far. *)
Definition sent (s : machine) : list (Method * string * option jsv) :=
  map (fun x => (x_method x, url x, x_body x)) (exchanged s).

(** The exchanges of the creation saga, as they should appear. *)
Definition bulk_exchange (c : string)
  (itemData : list (Locales * PartialItemData)) (primaryData : PartialItemData)
  : Method * string * option jsv :=
  (POST, (api_base ++ "collections/" ++ c ++ "/items/bulk")%string,
   Some (JObj [ ("isArchived", JBool (isArchived primaryData));
                ("isDraft", JBool (isDraft primaryData));
                ("fieldData", js_of_PartialFieldData (fieldData primaryData));
                ("cmsLocaleIds",
                 JArr (map js_of_locale (map fst itemData))) ])).

Definition update_exchange (c itemId : string) (live : bool)
  (entry : Locales * PartialItemData) : Method * string * option jsv :=
  (PATCH,
   (api_base ++ "collections/" ++ c ++ "/items/" ++ itemId
      ++ live_suffix live)%string,
   Some (JObj [ ("isArchived", JBool (isArchived (snd entry)));
                ("isDraft", JBool (isDraft (snd entry)));
                ("fieldData",
                 js_of_PartialFieldData (fieldData (snd entry)));
                ("cmsLocaleId",
                 js_of_optional_locale
                   (cmsLocaleId (spread_locale (fst entry) (snd entry)))) ])).

Definition publish_exchange (c itemId : string) : Method * string * option jsv :=
  (POST, (api_base ++ "collections/" ++ c ++ "/items/publish")%string,
   Some (JObj [("itemIds", JArr [JStr itemId])])).

(** The entries of the locale map other than the primary locale's, in
    key order. *)
Definition secondary (primary : Locales)
  (itemData : list (Locales * PartialItemData))
  : list (Locales * PartialItemData) :=
  filter (fun e => negb (Locales_eqb (fst e) primary)) itemData.

(** [createItemAllLocales] on a new connection for three locales: the
    bulk call is answered and decoded, then the two updates are answered;
    as with [fetchAll_schedule], [k] tells when the body of the first
    update arrives. *)
Definition create_schedule (c : string)
  (itemData : list (Locales * PartialItemData)) (live : bool)
  (rb ru1 ru2 : Response) (k : nat) : list action :=
  [ Call (CallCreateItemAllLocales c itemData live);
    Event (EvResponse 0 rb); Event (EvBody 0); Event (EvResponse 0 ru1) ]
  ++ match k with
     | 0 => [ Event (EvBody 0); Event (EvTimer 0);
              Event (EvResponse 0 ru2); Event (EvBody 0) ]
     | 1 => [ Event (EvTimer 0); Event (EvBody 0);
              Event (EvResponse 0 ru2); Event (EvBody 0) ]
     | 2 => [ Event (EvTimer 0); Event (EvResponse 0 ru2);
              Event (EvBody 0); Event (EvBody 0) ]
     | _ => [ Event (EvTimer 0); Event (EvResponse 0 ru2);
              Event (EvBody 1); Event (EvBody 0) ]
     end.

(** The callback of [createItemAllLocales] from the point where
    [items.find] has returned [mainItem]. *)
Definition createItemAllLocales_found (collectionId : string)
  (itemData : list (Locales * PartialItemData)) (mainItem : option Item)
  : M value :=
  s <- get ;;
  promises <- update_locales collectionId mainItem (PRIMARY_LOCALE (wf s))
                itemData (Object_keys itemData) ;;
  all <- promise_all
           (match mainItem with Some m => VItem m | None => VUndefined end
            :: promises) ;;
  ret (VPromise all).

(** The callback of [request] on a response whose status is above 299,
    with what it reads of the response spelled out. *)
Definition on_response_upstream (req : Request) (code : Z) (text : string)
  (remaining : option string) (outcome : value + value) : M value :=
  modify (set_wf (with_isFetching false)) ;;
  modify (set_wf (with_ratelimit (or_zero (Number remaining)))) ;;
  console_log (LogErrorRequest req) ;;
  console_log (LogErrorStatus code text) ;;
  d <- new_promise ;;
  modify (set_decoding (fun l => l ++ [(d, outcome)])) ;;
  reject_fn (handle req) (VPromise d) ;;
  s <- get ;;
  match queue (wf s) with
  | [] => ret VUndefined
  | _ :: _ => setTimeout (pacing_delay (ratelimit (wf s))) ;; ret VUndefined
  end.

(** The same for a status of 299 or less. *)
Definition on_response_ok (req : Request) (remaining : option string)
  (outcome : value + value) : M value :=
  modify (set_wf (with_isFetching false)) ;;
  modify (set_wf (with_ratelimit (or_zero (Number remaining)))) ;;
  d <- new_promise ;;
  modify (set_decoding (fun l => l ++ [(d, outcome)])) ;;
  resolve_fn (handle req) (VPromise d) ;;
  s <- get ;;
  match queue (wf s) with
  | [] => ret VUndefined
  | _ :: _ => setTimeout (pacing_delay (ratelimit (wf s))) ;; ret VUndefined
  end.

(** The callback of [fetchAllItems] once the number of further pages is
    known. *)
Definition fetchAllItems_further (collectionId : string)
  (r : GetItemsResponse) (further : nat) : M pid :=
  async
    (s <- get ;;
     let target := List.length (arrays s) in
     modify (set_arrays (fun l => l ++ [items r])) ;;
     promises <-
       mapM (fun i =>
               p <- fetchItems collectionId 100 (Z.of_nat i * 100) ;;
               d <- perform_then p (HKont (KPushItems target)) HNone ;;
               ret (VPromise d))
            (seq 1 further) ;;
     all <- promise_all promises ;;
     d <- perform_then all (HKont (KReturnItems target)) HNone ;;
     ret (VPromise d)).

(** The exchange [request] starts for a queued request. *)
Definition exchange_of (tok : string) (req : Request) : Exchange :=
  {| url := (api_base ++ endpoint (options req))%string;
     x_method := method_or_GET (method (options req));
     x_authorization := ("Bearer " ++ tok)%string;
     x_body := body (options req);
     x_request := req |}.

(** A computation that never throws. *)
Definition succeeds {A} (m : M A) : Prop :=
  forall s, exists a, fst (m s) = Ok a.

(* ================================================================== *)
(** ** Runs of plain [fetch] calls *)

(** Every call is made, one turn each; then the exchanges are answered
    one after the other, each response followed by the pacing timer its
    callback set. *)
Definition fetch_calls (os : list (RequestOptions + string)) : list action :=
  map (fun o => Call (CallFetch o)) os.

Definition answers (rs : list Response) : list action :=
  flat_map (fun r => [Event (EvResponse 0 r); Event (EvTimer 0)]) rs.

(** Promises nobody has touched since they were made. *)
Definition unsettled (ps : list pid) (s : machine) : Prop :=
  NoDup ps
  /\ Forall (fun p => p < List.length (promises s) /\ cell p s = fresh_cell) ps.

(** [s'] has the promises of [s], changed at most at [touched], and
    maybe new ones. *)
Definition frame (touched : list pid) (s s' : machine) : Prop :=
  List.length (promises s) <= List.length (promises s')
  /\ forall q, q < List.length (promises s) -> ~ In q touched ->
               cell q s' = cell q s.

(** What the dispatcher has done so far on a connection with token
    [tok]: each exchange is the one of its request, and the requests
    sent followed by the queue are the requests pushed. *)
Definition orderly (tok : string) (s : machine) : Prop :=
  token (wf s) = tok
  /\ submitted s = map x_request (exchanged s) ++ queue (wf s)
  /\ exchanged s = map (exchange_of tok) (map x_request (exchanged s)).

(** Between two turns while the exchange of [cur] is on the wire. *)
Definition fetching (tok : string) (cur : Request) (c : pid) (s : machine)
  : Prop :=
  microtasks s = [] /\ timers s = [] /\ isFetching (wf s) = true
  /\ inflight s = [{| on_fulfilled := HKont (KResponse cur);
                      on_rejected := HNone; capability := c |}]
  /\ unsettled (c :: handle cur :: map handle (queue (wf s))) s
  /\ orderly tok s.

(** Between the response and the timer. *)
Definition paused (tok : string) (s : machine) : Prop :=
  microtasks s = [] /\ isFetching (wf s) = false /\ inflight s = []
  /\ List.length (timers s) = match queue (wf s) with [] => 0 | _ :: _ => 1 end
  /\ unsettled (map handle (queue (wf s))) s
  /\ orderly tok s.

(* ================================================================== *)
(** ** [I18n.ts]: [format] and [formatSpecial]

    The two formatters are static methods that read their arguments and
    the cache only, write one line to the console and return a string
    (or throw).  Every character the two regular expressions name is
    ASCII; a character outside ASCII is kept as the bytes of its
    encoding, none of which is an ASCII character, so it is copied as it
    stands and never takes part in a match.  [translate], which fills
    the cache from the database, is not part of this model: the cache is
    an argument. *)

Module I18n.

Inductive thrown :=
| TypeError (msg : string)
| Error (msg : string).

(** What [console.log("Formatting", ...)] is called with. *)
Inductive log_entry :=
| Formatting (formatter : string) (args : list string)
| FormattingSpecial (formatter : string) (locale : option string)
    (args : list string).

(** [Map<string, Record<Language, string>>], each record kept as its
    list of entries. *)
Definition Cache : Type := list (string * list (string * string)).

(** [m.get(key)] on a map and [o[key]] on an object, both kept as
    lists of entries. *)
Fixpoint get {A} (key : string) (m : list (string * A)) : option A :=
  match m with
  | [] => None
  | (k, v) :: rest => if String.eqb key k then Some v else get key rest
  end.

(** [s.toLowerCase()], on the ASCII letters, which is all it is applied
    to here: the names of the locales and text matched by the names of
    the days. *)
Definition lower (c : ascii) : ascii :=
  if ((65 <=? code c) && (code c <=? 90))%nat
  then ascii_of_nat (code c + 32)
  else c.

Fixpoint toLowerCase (s : string) : string :=
  match s with
  | EmptyString => EmptyString
  | String c rest => String (lower c) (toLowerCase rest)
  end.

(** [Object.keys(Locales).map(key => key.toLowerCase())]. *)
Definition languages : list string :=
  map toLowerCase ["ENGLISH"; "SPANISH"; "CHINESE"].

(** [(\d*?)s] or [(\d*?)([sw])] tried just after a [%]: the digits
    captured, the tag, and the number of code units matched.  The lazy
    quantifier tries the tag first and takes one more digit when that
    fails. *)
Fixpoint placeholder (tags : list ascii) (s : string)
  : option (string * ascii * nat) :=
  match s with
  | EmptyString => None
  | String c rest =>
      if existsb (Ascii.eqb c) tags then Some (EmptyString, c, 1)
      else if is_decimal_digit c then
        match placeholder tags rest with
        | Some (number, tag, n) => Some (String c number, tag, S n)
        | None => None
        end
      else None
  end.

(** [x || y] and [x - 1] on numbers, and [a[x]] on an array.  The
    difference is left unrounded: below 2^53 the subtraction of doubles
    is exact on an integer, and from there on neither the exact nor the
    rounded difference is the index of an element. *)
Definition or_number (x y : jsnum) : jsnum :=
  match x with
  | JNaN => y
  | JNum q => if Qeq_bool q 0%Q then y else x
  | JInf _ => x
  end.

Definition minus_one (x : jsnum) : jsnum :=
  match x with
  | JNum q => JNum (Qred (q - 1)%Q)
  | other => other
  end.

Definition array_get {A} (a : list A) (x : jsnum) : option A :=
  match x with
  | JNum q =>
      if ((Qden q =? 1)%positive && (0 <=? Qnum q)%Z)%bool
      then nth_error a (Z.to_nat (Qnum q))
      else None
  | _ => None
  end.

(** [args[(Number(number) || i) - 1] || match]: an argument that is
    missing or is the empty string leaves the placeholder as it is. *)
Definition argument (args : list string) (number : string) (i : nat)
  (matched : string) : string :=
  match array_get args
          (minus_one (or_number (Number (Some number))
                        (JNum (inject_Z (Z.of_nat i))))) with
  | Some a => if String.eqb a "" then matched else a
  | None => matched
  end.

(** [formatter.replace(/%(\d*?)[tags]/g, callback)]: the string is
    scanned from left to right; at a [%] that starts a placeholder the
    callback is called with the number of the placeholder (the counter
    [i] of the source, already incremented), the text matched, the
    digits and the tag, and the scan goes on after the placeholder;
    every other code unit is copied.  [skip] counts the code units of a
    placeholder still to pass. *)
Fixpoint replace_placeholders (tags : list ascii)
  (callback : nat -> string -> string -> ascii -> thrown + string)
  (skip i : nat) (s : string) : thrown + string :=
  match s with
  | EmptyString => inr EmptyString
  | String c rest =>
      match skip with
      | S k => replace_placeholders tags callback k i rest
      | 0 =>
          match (if Ascii.eqb c "%" then placeholder tags rest else None) with
          | Some (number, tag, n) =>
              match callback (S i) (String c (number ++ String tag ""))
                      number tag with
              | inl e => inl e
              | inr replacement =>
                  match replace_placeholders tags callback n (S i) rest with
                  | inl e => inl e
                  | inr out => inr (replacement ++ out)%string
                  end
              end
          | None =>
              match replace_placeholders tags callback 0 i rest with
              | inl e => inl e
              | inr out => inr (String c out)
              end
          end
      end
  end.

(** [static format(formatter: string, ...args: string[]): string]. *)
Definition format (formatter : string) (args : list string)
  : list log_entry * (thrown + string) :=
  ([Formatting formatter args],
   replace_placeholders ["s"%char]
     (fun i matched number _ => inr (argument args number i matched))
     0 0 formatter).

(** [Object.fromEntries(Object.entries(formatter).map(([key, value]) =>
    [key, f(key, value, args[0][key])]))]: the entries are formatted in
    order; an entry whose key [args[0]] does not have throws (spreading
    [undefined]), and so does the first entry when there is no
    [args[0]]. *)
Fixpoint format_entries
  (f : string -> string -> list string -> list log_entry * (thrown + string))
  (formatter : list (string * string))
  (args0 : option (list (string * list string)))
  : list log_entry * (thrown + list (string * string)) :=
  match formatter with
  | [] => ([], inr [])
  | (key, value) :: rest =>
      match args0 with
      | None => ([], inl (TypeError "Cannot read properties of undefined"))
      | Some record =>
          match get key record with
          | None => ([], inl (TypeError "Spread syntax requires ...iterable"))
          | Some args =>
              match f key value args with
              | (logs, inl e) => (logs, inl e)
              | (logs, inr formatted) =>
                  match format_entries f rest args0 with
                  | (logs', inl e) => (logs ++ logs', inl e)
                  | (logs', inr entries) =>
                      (logs ++ logs', inr ((key, formatted) :: entries))
                  end
              end
          end
      end
  end.

(** [static format<T, U>(formatter: T, ...args: [U]): Record<keyof T,
    string>]. *)
Definition format_record (formatter : list (string * string))
  (args0 : option (list (string * list string)))
  : list log_entry * (thrown + list (string * string)) :=
  format_entries (fun _ value args => format value args) formatter args0.

Definition days : list string :=
  ["sunday"; "monday"; "tuesday"; "wednesday"; "thursday"; "friday";
   "saturday"].

(** A name of a day matched at the head of [s] without regard to case. *)
Fixpoint matches_ignoring_case (name s : string) : bool :=
  match name, s with
  | EmptyString, _ => true
  | String a name', String b s' =>
      Ascii.eqb (lower b) a && matches_ignoring_case name' s'
  | String _ _, EmptyString => false
  end.

(** The alternatives [sunday|monday|...] tried in order at the head of
    [s]: the index of the first that matches. *)
Fixpoint day_at (names : list string) (index : nat) (s : string)
  : option (nat * string) :=
  match names with
  | [] => None
  | name :: rest =>
      if matches_ignoring_case name s then Some (index, name)
      else day_at rest (S index) s
  end.

Fixpoint indexOf (x : string) (l : list string) (index : Z) : Z :=
  match l with
  | [] => (-1)%Z
  | y :: rest => if String.eqb x y then index else indexOf x rest (index + 1)%Z
  end.

Fixpoint take (n : nat) (s : string) : string :=
  match n, s with
  | S k, String c rest => String c (take k rest)
  | _, _ => EmptyString
  end.

(** [match => I18n.cache.get(`general.day${days.indexOf(
    match.toLowerCase())}`)![locale]]: reading [locale] off a key the
    cache does not have throws; a record without that locale gives
    [undefined], which [replace] writes out. *)
Definition translate_day (cache : Cache) (locale : string) (matched : string)
  : thrown + string :=
  match get ("general.day"
                   ++ string_of_Z (indexOf (toLowerCase matched) days 0))%string
          cache with
  | None => inl (TypeError "Cannot read properties of undefined")
  | Some record =>
      match get locale record with
      | Some translation => inr translation
      | None => inr "undefined"
      end
  end.

(** [arg.replace(new RegExp(days.join("|"), "gi"), callback)]. *)
Fixpoint replace_days (callback : string -> thrown + string) (skip : nat)
  (s : string) : thrown + string :=
  match s with
  | EmptyString => inr EmptyString
  | String c rest =>
      match skip with
      | S k => replace_days callback k rest
      | 0 =>
          match day_at days 0 s with
          | Some (_, name) =>
              match callback (take (String.length name) s) with
              | inl e => inl e
              | inr replacement =>
                  match replace_days callback (pred (String.length name))
                          rest with
                  | inl e => inl e
                  | inr out => inr (replacement ++ out)%string
                  end
              end
          | None =>
              match replace_days callback 0 rest with
              | inl e => inl e
              | inr out => inr (String c out)
              end
          end
      end
  end.

(** [static formatSpecial(formatter: string, locale: Language,
    ...args: string[]): string], with the rest parameter [localeArgs]
    of the implementation. *)
Definition formatSpecial (cache : Cache) (formatter : string)
  (localeArgs : list string) : list log_entry * (thrown + string) :=
  let locale := hd_error localeArgs in
  let args := tl localeArgs in
  ([FormattingSpecial formatter locale args],
   match locale with
   | None => inl (Error "No locale provided")
   | Some locale =>
       if negb (existsb (String.eqb locale) languages)
       then inl (Error "No locale provided")
       else
         replace_placeholders ["s"%char; "w"%char]
           (fun i matched number tag =>
              let arg := argument args number i matched in
              if Ascii.eqb tag "s" then inr arg
              else if Ascii.eqb tag "w"
                   then replace_days (translate_day cache locale) 0 arg
                   else inr arg)
           0 0 formatter
   end).

(** [static formatSpecial<T, U>(formatter: T, ...args: [U]):
    Record<keyof T, string>]. *)
Definition formatSpecial_record (cache : Cache)
  (formatter : list (string * string))
  (args0 : option (list (string * list string)))
  : list log_entry * (thrown + list (string * string)) :=
  format_entries (fun key value args => formatSpecial cache value (key :: args))
    formatter args0.

(** The rows of the days of the week, as the static initialiser would
    load them. *)
Definition sample_cache : Cache :=
  [ ("general.day0", [("english", "Sunday"); ("spanish", "Domingo");
                      ("chinese", "Zhouri")]);
    ("general.day1", [("english", "Monday"); ("spanish", "Lunes");
                      ("chinese", "Zhouyi")]);
    ("general.day2", [("english", "Tuesday"); ("spanish", "Martes");
                      ("chinese", "Zhouer")]);
    ("general.day6", [("english", "Saturday"); ("spanish", "Sabado");
                      ("chinese", "Zhouliu")]) ].

(** *** Notions the properties of the formatters are stated with *)

(** No code unit of [s] is [c]. *)
Fixpoint without (c : ascii) (s : string) : bool :=
  match s with
  | EmptyString => true
  | String x rest => negb (Ascii.eqb x c) && without c rest
  end.

Definition digits_only (s : string) : bool :=
  forallb is_decimal_digit (list_ascii_of_string s).

(** Literal texts joined by [%s]. *)
Fixpoint template (first : string) (rest : list string) : string :=
  match rest with
  | [] => first
  | next :: rest' => (first ++ "%s" ++ template next rest')%string
  end.

(** What stands for a placeholder that asks for the argument at index
    [k] (from 0): that argument, or the placeholder itself when the
    argument is missing or empty. *)
Definition filler (args : list string) (k : nat) (placeholder : string)
  : string :=
  match nth_error args k with
  | Some a => if String.eqb a "" then placeholder else a
  | None => placeholder
  end.

Fixpoint filled (args : list string) (k : nat) (first : string)
  (rest : list string) : string :=
  match rest with
  | [] => first
  | next :: rest' =>
      (first ++ filler args k "%s" ++ filled args (S k) next rest')%string
  end.

End I18n.
(* ================================================================== *)
(** ** Reasoning about computations *)

Lemma Locales_eqb_spec a b : reflect (a = b) (Locales_eqb a b).
Proof. destruct a, b; constructor; congruence. Qed.

Lemma Locales_eqb_refl a : Locales_eqb a a = true.
Proof. now destruct a. Qed.

Lemma Locales_eqb_neq a b : a <> b -> Locales_eqb a b = false.
Proof. destruct a, b; simpl; congruence. Qed.

(** A few values of [Number] and of [`${n}`]. *)
Example Number_42 : Number (Some "42") = JNum 42%Q.
Proof. reflexivity. Qed.
Example Number_padded : Number (Some " 17 ") = JNum 17%Q.
Proof. reflexivity. Qed.
Example Number_hex : Number (Some "0x1F") = JNum 31%Q.
Proof. reflexivity. Qed.
Example Number_frac : Number (Some "3.75") = JNum (15 # 4)%Q.
Proof. reflexivity. Qed.
Example Number_exp : Number (Some ".5e1") = JNum 5%Q.
Proof. reflexivity. Qed.
Example Number_word : Number (Some "many") = JNaN.
Proof. reflexivity. Qed.
Example Number_trailing : Number (Some "12abc") = JNaN.
Proof. reflexivity. Qed.
Example Number_minus : Number (Some "-5") = JNum (-5)%Q.
Proof. reflexivity. Qed.
Example Number_tenth :
  Number (Some "0.1") = JNum (3602879701896397 # 36028797018963968)%Q.
Proof. vm_compute. reflexivity. Qed.
Example Number_above_2_53 :
  Number (Some "9007199254740993") = JNum 9007199254740992%Q.
Proof. vm_compute. reflexivity. Qed.
Example Number_largest :
  Number (Some "1.7976931348623157e308")
  = JNum (inject_Z ((2 ^ 53 - 1) * 2 ^ 971)).
Proof. vm_compute. reflexivity. Qed.
Example Number_overflow : Number (Some "1e400") = JInf false.
Proof. vm_compute. reflexivity. Qed.
Example Number_least :
  Number (Some "5e-324") = JNum (Qred (1 # Z.to_pos (2 ^ 1074))).
Proof. vm_compute. reflexivity. Qed.
Example Number_underflow : Number (Some "1e-400") = JNum 0%Q.
Proof. vm_compute. reflexivity. Qed.
Example pacing_delay_59_9 :
  pacing_delay (or_zero (Number (Some "59.9")))
  = JNum (1759218604441625 # 17592186044416)%Q.
Proof. vm_compute. reflexivity. Qed.
Example pacing_delay_underflow :
  pacing_delay (or_zero (Number (Some "1e-400"))) = JNum 60000%Q.
Proof. vm_compute. reflexivity. Qed.
Example string_of_Z_200 : string_of_Z 200%Z = "200".
Proof. reflexivity. Qed.
Example string_of_Z_0 : string_of_Z 0%Z = "0".
Proof. reflexivity. Qed.
Example string_of_Z_neg : string_of_Z (-1050)%Z = "-1050".
Proof. reflexivity. Qed.

Lemma steps_trans s1 s2 s3 : steps s1 s2 -> steps s2 s3 -> steps s1 s3.
Proof.
  intros H12 H23. induction H23; [assumption|].
  eapply steps_snoc; [apply IHsteps; assumption | assumption].
Qed.

Lemma steps_one s s' : step s s' -> steps s s'.
Proof. intro H. eapply steps_snoc; [apply steps_refl | exact H]. Qed.

Lemma drain_steps fuel : forall s s', drain fuel s = Some s' -> steps s s'.
Proof.
  induction fuel as [|fuel IH]; intros s s'; simpl;
    destruct (microtask s) as [s1|] eqn:E; intro H;
    try discriminate; try (injection H as <-; apply steps_refl).
  eapply steps_trans; [apply steps_one, step_microtask, E | apply IH, H].
Qed.

Lemma begin_step a s : step s (begin a s).
Proof. destruct a; [apply step_call | apply step_event]. Qed.

Lemma turn_steps fuel a s s' : turn fuel a s = Some s' -> steps s s'.
Proof.
  unfold turn. intro H.
  eapply steps_trans; [apply steps_one, begin_step | eapply drain_steps, H].
Qed.

Lemma run_steps fuel script : forall s s', run fuel script s = Some s' -> steps s s'.
Proof.
  induction script as [|a script IH]; intros s s'; simpl.
  - intro H. injection H as <-. apply steps_refl.
  - destruct (turn fuel a s) as [s1|] eqn:E; [|discriminate].
    intro H. eapply steps_trans; [eapply turn_steps, E | apply IH, H].
Qed.

(** A turn that ends has run every microtask. *)
Lemma drain_quiescent fuel : forall s s', drain fuel s = Some s' -> microtasks s' = [].
Proof.
  induction fuel as [|fuel IH]; intros s s'; simpl;
    destruct (microtask s) as [s1|] eqn:E; intro H; try discriminate.
  - injection H as <-. unfold microtask in E.
    destruct (microtasks s); [reflexivity | discriminate].
  - eapply IH, H.
  - injection H as <-. unfold microtask in E.
    destruct (microtasks s); [reflexivity | discriminate].
Qed.

(** More fuel does not change where a turn ends. *)
Lemma drain_more fuel : forall fuel' s s',
  drain fuel s = Some s' -> fuel <= fuel' -> drain fuel' s = Some s'.
Proof.
  induction fuel as [|fuel IH]; intros fuel' s s'; simpl;
    destruct (microtask s) as [s1|] eqn:E; intros H Hle; try discriminate.
  - destruct fuel'; simpl; now rewrite E.
  - destruct fuel' as [|fuel']; [lia|]. simpl. rewrite E.
    apply IH; [exact H | lia].
  - destruct fuel'; simpl; now rewrite E.
Qed.

Lemma run_more fuel fuel' script : forall s s',
  run fuel script s = Some s' -> fuel <= fuel' -> run fuel' script s = Some s'.
Proof.
  induction script as [|a script IH]; intros s s'; simpl; [auto|].
  unfold turn. destruct (drain fuel (begin a s)) as [s1|] eqn:E; [|discriminate].
  intros H Hle. rewrite (drain_more fuel fuel' _ _ E Hle). now apply IH.
Qed.

Lemma run_reachable fuel script tok primaryLocale s :
  run fuel script (new_WebflowConnection tok primaryLocale) = Some s ->
  reachable s.
Proof. intro H. exists tok, primaryLocale. eapply run_steps, H. Qed.

Section Preserves.
Variable I : machine -> Prop.

Lemma preserves_ret {A} (a : A) : preserves I (ret a).
Proof. intros s H. exact H. Qed.

Lemma preserves_throw {A} e : preserves I (@throw A e).
Proof. intros s H. exact H. Qed.

Lemma preserves_get : preserves I get.
Proof. intros s H. exact H. Qed.

Lemma preserves_bind {A B} (m : M A) (f : A -> M B) :
  preserves I m -> (forall a, preserves I (f a)) -> preserves I (bind m f).
Proof.
  intros Hm Hf s H. unfold bind. specialize (Hm s H).
  destruct (m s) as [[a|e] s']; simpl in *; [apply Hf; exact Hm | exact Hm].
Qed.

Lemma preserves_modify f :
  (forall s, I s -> I (f s)) -> preserves I (modify f).
Proof. intros Hf s H. apply Hf, H. Qed.

Lemma preserves_mapM {A B} (f : A -> M B) l :
  (forall a, preserves I (f a)) -> preserves I (mapM f l).
Proof.
  intro Hf. induction l as [|x l IH]; simpl.
  - apply preserves_ret.
  - apply preserves_bind; [apply Hf|]. intro y.
    apply preserves_bind; [apply IH|]. intro ys. apply preserves_ret.
Qed.

(** With the state read by [get] at hand. *)
Lemma preserves_bind_get {B} (f : machine -> M B) :
  (forall s, I s -> I (snd (f s s))) -> preserves I (bind get f).
Proof. intros Hf s H. unfold bind, get. apply Hf, H. Qed.
End Preserves.

(** *** Computations that only touch the promise machinery *)

Lemma quiet_ret {A} (a : A) : quiet (ret a).
Proof. intros s H. split; [exact H | reflexivity]. Qed.

Lemma quiet_throw {A} e : quiet (@throw A e).
Proof. intros s H. split; [exact H | reflexivity]. Qed.

Lemma quiet_get : quiet get.
Proof. intros s H. split; [exact H | reflexivity]. Qed.

Lemma quiet_bind {A B} (m : M A) (f : A -> M B) :
  quiet m -> (forall a, quiet (f a)) -> quiet (bind m f).
Proof.
  intros Hm Hf s H. unfold bind. destruct (Hm s H) as [Hc Hv].
  destruct (m s) as [[a|e] s']; simpl in *.
  - destruct (Hf a s' Hc) as [Hc' Hv']. split; [exact Hc' | congruence].
  - split; assumption.
Qed.

Lemma quiet_bind_get {B} (f : machine -> M B) :
  (forall s, clean s -> clean (snd (f s s)) /\ view (snd (f s s)) = view s) ->
  quiet (bind get f).
Proof. intros Hf s H. unfold bind, get. apply Hf, H. Qed.

Lemma quiet_modify f :
  (forall s, clean s -> clean (f s) /\ view (f s) = view s) -> quiet (modify f).
Proof. intros Hf s H. apply Hf, H. Qed.

Lemma quiet_mapM {A B} (f : A -> M B) l :
  (forall a, quiet (f a)) -> quiet (mapM f l).
Proof.
  intro Hf. induction l as [|x l IH]; simpl.
  - apply quiet_ret.
  - apply quiet_bind; [apply Hf|]. intro y.
    apply quiet_bind; [apply IH|]. intro ys. apply quiet_ret.
Qed.

Lemma quiet_preserves {A} (I : machine -> Prop) (m : M A) :
  respects I -> quiet m -> preserves I m.
Proof.
  intros [Hc Hr] Hm s H. destruct (Hm s (Hc s H)) as [Hc' Hv].
  eapply Hr; eassumption.
Qed.

Lemma clean_app_promises s c :
  clean s -> Forall clean_reaction (reactions c) ->
  clean (set_promises (fun l => l ++ [c]) s).
Proof.
  intros [Hp Hi] Hc. split; simpl; [|exact Hi].
  apply Forall_app. split; [exact Hp | constructor; [exact Hc | constructor]].
Qed.

Lemma Forall_list_update {A} (P : A -> Prop) f n :
  (forall a, P a -> P (f a)) ->
  forall l, Forall P l -> Forall P (list_update n f l).
Proof.
  intros Hf l. revert n. induction l as [|x l IH]; intros n H; simpl.
  - destruct n; constructor.
  - inversion H; subst. destruct n; constructor; auto.
Qed.

Lemma quiet_new_promise : quiet new_promise.
Proof.
  intros s H. split; [|reflexivity].
  apply clean_app_promises; [exact H | constructor].
Qed.

Lemma quiet_update_cell p f :
  (forall c, Forall clean_reaction (reactions c) ->
             Forall clean_reaction (reactions (f c))) ->
  quiet (update_cell p f).
Proof.
  intros Hf s [Hp Hi]. split; [|reflexivity]. split; simpl; [|exact Hi].
  apply Forall_list_update; assumption.
Qed.

Lemma arrived_app s js :
  arrived (set_microtasks (fun q => q ++ js) s)
  = arrived s + List.length (filter is_response_job js).
Proof. unfold arrived. simpl. now rewrite filter_app, length_app. Qed.

Lemma quiet_enqueue_jobs js :
  filter is_response_job js = [] -> quiet (enqueue_jobs js).
Proof.
  intros Hjs s H. split; [exact H|].
  unfold view, enqueue_jobs, modify. simpl. rewrite arrived_app, Hjs. simpl.
  now rewrite Nat.add_0_r.
Qed.

Lemma clean_cell s p :
  clean s -> Forall clean_reaction (reactions (cell p s)).
Proof.
  intros [Hp _]. unfold cell.
  destruct (nth_in_or_default p (promises s) fresh_cell) as [Hin|Hd].
  - rewrite Forall_forall in Hp. apply Hp, Hin.
  - rewrite Hd. constructor.
Qed.

Lemma no_response_job_of_clean rs rejected v :
  Forall clean_reaction rs ->
  filter is_response_job (map (fun r => PromiseReactionJob r rejected v) rs) = [].
Proof.
  induction 1 as [|r rs [Hf Hr] _ IH]; simpl; [reflexivity|].
  destruct rejected; [rewrite Hr | rewrite Hf]; exact IH.
Qed.

Create HintDb quiet.

Ltac quiet_step :=
  match goal with
  | |- quiet (bind _ _) => apply quiet_bind; [|intro]
  | |- quiet (ret _) => apply quiet_ret
  | |- quiet (throw _) => apply quiet_throw
  | |- quiet get => apply quiet_get
  | |- quiet (mapM _ _) => apply quiet_mapM; intro
  | |- quiet (if ?b then _ else _) => destruct b
  | |- quiet (match ?x with _ => _ end) => destruct x
  | |- quiet _ => solve [auto with quiet]
  end.

Ltac quiet_auto := repeat quiet_step.

Lemma quiet_settle p rejected v : quiet (settle p rejected v).
Proof.
  unfold settle. apply quiet_bind_get. intros s H.
  destruct (pstatus (cell p s)); try (split; [exact H | reflexivity]).
  apply (@quiet_bind unit unit); [| |exact H].
  - apply quiet_update_cell. intros c _. constructor.
  - intros _. apply quiet_enqueue_jobs, no_response_job_of_clean, clean_cell, H.
Qed.
#[export] Hint Resolve quiet_settle quiet_new_promise : quiet.

Lemma quiet_mark_resolved p : quiet (mark_resolved p).
Proof. apply quiet_update_cell. intros c H. exact H. Qed.
#[export] Hint Resolve quiet_mark_resolved : quiet.

Lemma quiet_resolve_with p v : quiet (resolve_with p v).
Proof.
  unfold resolve_with. destruct v; auto with quiet.
  destruct (Nat.eqb p0 p); auto with quiet.
  now apply quiet_enqueue_jobs.
Qed.
#[export] Hint Resolve quiet_resolve_with : quiet.

Lemma quiet_resolve_fn p v : quiet (resolve_fn p v).
Proof. unfold resolve_fn. quiet_auto. Qed.

Lemma quiet_reject_fn p v : quiet (reject_fn p v).
Proof. unfold reject_fn. quiet_auto. Qed.
#[export] Hint Resolve quiet_resolve_fn quiet_reject_fn : quiet.

Lemma quiet_perform_then p h1 h2 :
  is_response_handler h1 = false -> is_response_handler h2 = false ->
  quiet (perform_then p h1 h2).
Proof.
  intros H1 H2. unfold perform_then. quiet_auto.
  - apply quiet_update_cell. intros c Hc. simpl.
    apply Forall_app. split; [exact Hc|]. constructor; [|constructor].
    split; assumption.
  - apply quiet_enqueue_jobs. simpl. now rewrite H1.
  - apply quiet_enqueue_jobs. simpl. now rewrite H2.
Qed.

Lemma quiet_promise_resolve v : quiet (promise_resolve v).
Proof. unfold promise_resolve. destruct v; quiet_auto. Qed.
#[export] Hint Resolve quiet_promise_resolve : quiet.

Lemma quiet_update_rec r f : quiet (update_rec r f).
Proof. intros s H. split; [exact H | reflexivity]. Qed.
#[export] Hint Resolve quiet_update_rec : quiet.

Lemma quiet_all_countdown r : quiet (all_countdown r).
Proof. unfold all_countdown. quiet_auto. Qed.
#[export] Hint Resolve quiet_all_countdown : quiet.

Lemma quiet_all_resolve_element r i v : quiet (all_resolve_element r i v).
Proof. unfold all_resolve_element. quiet_auto. Qed.
#[export] Hint Resolve quiet_all_resolve_element : quiet.

Lemma quiet_all_loop r result vs : forall index, quiet (all_loop r result index vs).
Proof.
  induction vs as [|v vs IH]; intro index; simpl; quiet_auto.
  now apply quiet_perform_then.
Qed.
#[export] Hint Resolve quiet_all_loop : quiet.

Lemma quiet_promise_all vs : quiet (promise_all vs).
Proof.
  unfold promise_all. quiet_auto.
  intros s H. split; [exact H | reflexivity].
Qed.
#[export] Hint Resolve quiet_promise_all : quiet.

Lemma quiet_console_log e : quiet (console_log e).
Proof. intros s H. split; [exact H | reflexivity]. Qed.

Lemma quiet_decode r : quiet (decode r).
Proof.
  unfold decode. quiet_auto. intros s H. split; [exact H | reflexivity].
Qed.

Lemma quiet_setTimeout d : quiet (setTimeout d).
Proof. intros s H. split; [exact H | reflexivity]. Qed.
#[export] Hint Resolve quiet_console_log quiet_decode quiet_setTimeout : quiet.

Lemma quiet_async (body : M value) : quiet body -> quiet (async body).
Proof.
  intros Hb s H. unfold async.
  destruct (quiet_new_promise s H) as [H0 V0]. simpl in H0, V0.
  destruct (new_promise s) as [r0 s0] eqn:E0.
  assert (s0 = set_promises (fun l => l ++ [fresh_cell]) s)
    by (unfold new_promise in E0; congruence).
  subst s0.
  destruct (Hb _ H0) as [H1 V1].
  destruct (body _) as [[v|e] s1]; simpl in *.
  - destruct (quiet_resolve_fn (List.length (promises s)) v s1 H1) as [H2 V2].
    unfold exec. split; [exact H2 | congruence].
  - destruct (quiet_reject_fn (List.length (promises s)) e s1 H1) as [H2 V2].
    unfold exec. split; [exact H2 | congruence].
Qed.

Lemma preserves_async (I : machine -> Prop) (body : M value) :
  respects I -> preserves I body -> preserves I (async body).
Proof.
  intros HI Hb s H. unfold async.
  pose proof (quiet_preserves I _ HI quiet_new_promise s H) as H0.
  destruct (new_promise s) as [r0 s0] eqn:E0.
  assert (s0 = set_promises (fun l => l ++ [fresh_cell]) s)
    by (unfold new_promise in E0; congruence).
  subst s0. simpl in H0.
  pose proof (Hb _ H0) as H1.
  destruct (body _) as [[v|e] s1]; simpl in *.
  - apply (quiet_preserves I _ HI (quiet_resolve_fn _ v) s1 H1).
  - apply (quiet_preserves I _ HI (quiet_reject_fn _ e) s1 H1).
Qed.

(** *** The discipline of the dispatcher is an invariant *)

Lemma respects_single_flight : respects single_flight.
Proof.
  split; [intros s H; apply H|].
  intros s s' Hc Hv (_ & Hq & Hb & Hf). unfold view in Hv.
  injection Hv as Hw Hi Hs He Ha.
  unfold single_flight, busy in *. rewrite Hw, Hi, Hs, He, Ha. auto.
Qed.

Lemma respects_answered : respects answered.
Proof.
  split; [intros s H; apply H|].
  intros s s' Hc Hv (_ & Hq & Hb). unfold view in Hv.
  injection Hv as Hw Hi Hs He Ha.
  unfold answered, busy in *. rewrite Hw, Hi, Hs, He, Ha. auto.
Qed.

Lemma answered_single_flight s : answered s -> single_flight s.
Proof.
  intros (Hc & Hq & Hb). repeat split; try assumption; try apply Hc; lia.
Qed.

Lemma single_flight_new tok primaryLocale :
  single_flight (new_WebflowConnection tok primaryLocale).
Proof.
  unfold single_flight, clean, busy, arrived. simpl.
  repeat split; auto.
Qed.

Lemma busy_0 s : busy s = 0 -> inflight s = [] /\ arrived s = 0.
Proof.
  unfold busy. intro H. split; [|lia].
  destruct (inflight s); [reflexivity | simpl in H; lia].
Qed.

Lemma single_flight_request_body : preserves single_flight request_body.
Proof.
  unfold request_body. apply preserves_bind_get. intros s H.
  destruct (isFetching (wf s)) eqn:Ef; [exact H|].
  destruct (queue (wf s)) as [|req rest] eqn:Eq; [exact H|].
  destruct H as ((Hp & Hi) & Hq & Hb & Hf).
  destruct (busy_0 s (Hf Ef)) as [Hin Har].
  unfold single_flight, clean, busy, arrived in *. cbn.
  rewrite Hin in *. rewrite Eq in Hq. cbn.
  repeat split.
  - apply Forall_app. split; [exact Hp | repeat constructor].
  - repeat constructor.
  - rewrite map_app, <- app_assoc. exact Hq.
  - rewrite Har. lia.
  - discriminate.
Qed.

Lemma single_flight_request : preserves single_flight request.
Proof.
  apply preserves_async;
    [apply respects_single_flight | apply single_flight_request_body].
Qed.

Lemma preserves_modify2 (I : machine -> Prop) f g {B} (k : M B) :
  (forall s, I s -> I (g (f s))) -> preserves I k ->
  preserves I (bind (modify f) (fun _ => bind (modify g) (fun _ => k))).
Proof. intros Hfg Hk s H. unfold bind, modify. simpl. apply Hk, Hfg, H. Qed.

Ltac by_quiet I_respects :=
  apply quiet_preserves; [apply I_respects | auto with quiet].

Lemma single_flight_fetch o : preserves single_flight (fetch o).
Proof.
  unfold fetch. apply preserves_bind; [by_quiet respects_single_flight|].
  intro p. apply preserves_modify2.
  - intros s ((Hp & Hi) & Hq & Hb & Hf).
    unfold single_flight, clean, busy, arrived in *. cbn.
    repeat split; try assumption.
    rewrite Hq. now rewrite app_assoc.
  - apply preserves_bind; [apply single_flight_request|].
    intros _. apply preserves_ret.
Qed.

Lemma answered_on_response req r : preserves answered (on_response req r).
Proof.
  unfold on_response.
  apply preserves_modify2.
  { intros s ((Hp & Hi) & Hq & Hb). unfold answered, clean, busy, arrived in *.
    cbn. repeat split; assumption. }
  apply preserves_bind.
  { destruct (status r >? 299)%Z; by_quiet respects_answered;
      unfold reject_fn, resolve_fn; quiet_auto. }
  intros _. apply preserves_bind; [apply preserves_get|].
  intro s. destruct (queue (wf s)); by_quiet respects_answered; quiet_auto.
Qed.

Lemma quiet_set_arrays f : quiet (modify (set_arrays f)).
Proof. intros s H. split; [exact H | reflexivity]. Qed.
#[export] Hint Resolve quiet_set_arrays : quiet.

(** Whatever invariant of [clean] and [view] the two methods of the
    dispatcher keep, every other method and callback keeps as well. *)
Section Dispatch_invariant.
Variable I : machine -> Prop.
Hypothesis I_respects : respects I.
Hypothesis I_fetch : forall o, preserves I (fetch o).
Hypothesis I_request : preserves I request.

Ltac inv_step :=
  match goal with
  | |- preserves _ (bind _ _) => apply preserves_bind; [|intro]
  | |- preserves _ (ret _) => apply preserves_ret
  | |- preserves _ (throw _) => apply preserves_throw
  | |- preserves _ get => apply preserves_get
  | |- preserves _ (async _) => apply preserves_async; [apply I_respects|]
  | |- preserves _ (mapM _ _) => apply preserves_mapM; intro
  | |- preserves _ (perform_then _ _ _) =>
      apply quiet_preserves;
        [apply I_respects | apply quiet_perform_then; reflexivity]
  | |- preserves _ (if ?b then _ else _) => destruct b
  | |- preserves _ (match ?x with _ => _ end) => destruct x
  | |- preserves I _ => solve [auto | by_quiet I_respects]
  end.

Ltac inv_auto := repeat inv_step.

Lemma inv_fetchItems c l o : preserves I (fetchItems c l o).
Proof. unfold fetchItems. inv_auto. Qed.
Local Hint Resolve inv_fetchItems : core.

Lemma inv_fetchAllItems_pages c v : preserves I (fetchAllItems_pages c v).
Proof. unfold fetchAllItems_pages. inv_auto. Qed.

Lemma inv_push_items a v : preserves I (push_items a v).
Proof. unfold push_items. inv_auto. Qed.

Lemma inv_fetchAllItems c : preserves I (fetchAllItems c).
Proof. unfold fetchAllItems. inv_auto. Qed.

Lemma inv_fetchItem_normalize v : preserves I (fetchItem_normalize v).
Proof. unfold fetchItem_normalize. inv_auto. Qed.

Lemma inv_fetchItem c i l : preserves I (fetchItem c i l).
Proof. unfold fetchItem. inv_auto. Qed.

Lemma inv_fetchLocales_pick v : preserves I (fetchLocales_pick v).
Proof. unfold fetchLocales_pick. inv_auto. Qed.

Lemma inv_fetchLocales : preserves I fetchLocales.
Proof. unfold fetchLocales. inv_auto. Qed.

Lemma inv_updateItem c i d l : preserves I (updateItem c i d l).
Proof. unfold updateItem. inv_auto. Qed.
Local Hint Resolve inv_updateItem : core.

Lemma inv_createItem c d l : preserves I (createItem c d l).
Proof. unfold createItem. inv_auto. Qed.

Lemma inv_publishItems c l : preserves I (publishItems c l).
Proof. unfold publishItems. inv_auto. Qed.
Local Hint Resolve inv_publishItems : core.

Lemma inv_update_locales c m primary d keys :
  preserves I (update_locales c m primary d keys).
Proof. induction keys as [|k keys IH]; simpl; inv_auto. Qed.
Local Hint Resolve inv_update_locales : core.

Lemma inv_createItemAllLocales_updates c d v :
  preserves I (createItemAllLocales_updates c d v).
Proof. unfold createItemAllLocales_updates. inv_auto. Qed.

Lemma inv_publish_first c v : preserves I (publish_first c v).
Proof. unfold publish_first. inv_auto. Qed.

Lemma inv_createItemAllLocales c d l :
  preserves I (createItemAllLocales c d l).
Proof. unfold createItemAllLocales. inv_auto. Qed.

Lemma inv_deleteItem c i ls l : preserves I (deleteItem c i ls l).
Proof. unfold deleteItem. inv_auto. Qed.

Lemma inv_perform c : preserves I (perform c).
Proof.
  destruct c; simpl;
    auto using inv_fetchAllItems, inv_fetchItems, inv_fetchItem,
      inv_fetchLocales, inv_updateItem, inv_createItem,
      inv_createItemAllLocales, inv_publishItems, inv_deleteItem.
Qed.

Lemma inv_run_kont k v :
  is_response_handler (HKont k) = false -> preserves I (run_kont k v).
Proof.
  intro Hk. destruct k; simpl in *; try discriminate; inv_auto;
    auto using inv_fetchAllItems_pages, inv_push_items,
      inv_fetchItem_normalize, inv_fetchLocales_pick,
      inv_createItemAllLocales_updates, inv_publish_first.
Qed.

Lemma inv_run_handler h rejected v :
  is_response_handler h = false -> preserves I (run_handler h rejected v).
Proof.
  intro Hh. destruct h; simpl; inv_auto. now apply inv_run_kont.
Qed.

(** A microtask that is not the callback of [request]. *)
Lemma inv_run_job j :
  is_response_job j = false -> preserves I (run_job j).
Proof.
  intros Hj s H. destruct j as [r rejected v | p thenable]; simpl in *.
  - pose proof (inv_run_handler _ rejected v Hj s H) as H1.
    destruct (run_handler _ rejected v s) as [[x|e] s1]; simpl in *.
    + apply (quiet_preserves _ _ I_respects
               (quiet_resolve_fn (capability r) x) s1 H1).
    + apply (quiet_preserves _ _ I_respects
               (quiet_reject_fn (capability r) e) s1 H1).
  - revert s H. change (preserves I
      (bind (perform_then thenable (HAdoptResolve p) (HAdoptReject p))
            (fun _ => ret tt))).
    inv_auto.
Qed.

(** The events that start no callback of [request]. *)
Lemma inv_occur_body n :
  (forall g s, I s -> I (set_decoding g s)) ->
  preserves I (occur (EvBody n)).
Proof.
  intro Hd. unfold occur. apply preserves_bind_get. intros s H.
  destruct (nth_error (decoding s) n) as [[d [v|err]]|]; [| |exact H].
  - revert s H. change (preserves I
      (bind (modify (set_decoding (list_remove n)))
            (fun _ => settle d false v))).
    apply preserves_bind; [|intro; by_quiet I_respects].
    apply preserves_modify. intros s H. apply Hd, H.
  - revert s H. change (preserves I
      (bind (modify (set_decoding (list_remove n)))
            (fun _ => settle d true err))).
    apply preserves_bind; [|intro; by_quiet I_respects].
    apply preserves_modify. intros s H. apply Hd, H.
Qed.

Lemma inv_occur_timer n :
  (forall g s, I s -> I (set_timers g s)) ->
  preserves I (occur (EvTimer n)).
Proof.
  intro Ht. unfold occur. apply preserves_bind_get. intros s H.
  destruct (nth_error (timers s) n); [|exact H].
  revert s H. change (preserves I
    (bind (modify (set_timers (list_remove n)))
          (fun _ => bind request (fun _ => ret tt)))).
  apply preserves_bind; [|intro; inv_auto].
  apply preserves_modify. intros s H. apply Ht, H.
Qed.
End Dispatch_invariant.

Lemma single_flight_perform c : preserves single_flight (perform c).
Proof.
  apply inv_perform;
    auto using respects_single_flight, single_flight_fetch,
      single_flight_request.
Qed.

Lemma single_flight_run_handler h rejected v :
  is_response_handler h = false ->
  preserves single_flight (run_handler h rejected v).
Proof.
  apply inv_run_handler;
    auto using respects_single_flight, single_flight_fetch,
      single_flight_request.
Qed.

Lemma answered_run_handler h rejected v :
  is_response_handler h = true ->
  forall s, answered s -> single_flight (snd (run_handler h rejected v s)).
Proof.
  intros Hh s H. destruct h as [|k| | | |]; try discriminate.
  destruct k; try discriminate. simpl.
  destruct v; try exact (answered_single_flight _ H).
  apply answered_single_flight, answered_on_response, H.
Qed.

(** Taking a job off the microtask queue. *)
Lemma single_flight_pop j rest s :
  microtasks s = j :: rest -> single_flight s ->
  if is_response_job j
  then answered (set_microtasks (fun _ => rest) s)
  else single_flight (set_microtasks (fun _ => rest) s).
Proof.
  intros Em ((Hp & Hi) & Hq & Hb & Hf).
  unfold single_flight, answered, clean, busy, arrived in *.
  rewrite Em in *. simpl in *.
  destruct (is_response_job j); simpl in *; repeat split; auto; lia.
Qed.

Lemma single_flight_microtask s s' :
  microtask s = Some s' -> single_flight s -> single_flight s'.
Proof.
  unfold microtask. destruct (microtasks s) as [|j rest] eqn:Em; [discriminate|].
  intros E H. injection E as <-.
  pose proof (single_flight_pop j rest s Em H) as Hpop.
  set (s0 := set_microtasks (fun _ => rest) s) in *.
  unfold exec. destruct (is_response_job j) eqn:Ej.
  - destruct j as [r rejected v | p thenable]; [|discriminate]. simpl in *.
    pose proof (answered_run_handler _ rejected v Ej s0 Hpop) as H1.
    destruct (run_handler _ rejected v s0) as [[x|e] s1]; simpl in *.
    + apply (quiet_preserves _ _ respects_single_flight
               (quiet_resolve_fn (capability r) x) s1 H1).
    + apply (quiet_preserves _ _ respects_single_flight
               (quiet_reject_fn (capability r) e) s1 H1).
  - apply inv_run_job;
      auto using respects_single_flight, single_flight_fetch,
        single_flight_request.
Qed.

Lemma nth_error_list_remove_length {A} n (l : list A) x :
  nth_error l n = Some x -> S (List.length (list_remove n l)) = List.length l.
Proof.
  revert n. induction l as [|y l IH]; intros [|n] H; simpl in *;
    try discriminate; [reflexivity|].
  now rewrite (IH n H).
Qed.

Lemma Forall_list_remove {A} (P : A -> Prop) n (l : list A) :
  Forall P l -> Forall P (list_remove n l).
Proof.
  revert n. induction l as [|y l IH]; intros n H; simpl.
  - destruct n; constructor.
  - inversion H; subst. destruct n; [assumption | constructor; auto].
Qed.

Lemma single_flight_occur e : preserves single_flight (occur e).
Proof.
  unfold occur. apply preserves_bind_get. intros s H.
  destruct e as [n r | n msg | n | n].
  - destruct (nth_error (inflight s) n) as [waiting|] eqn:En; [|exact H].
    destruct H as ((Hp & Hi) & Hq & Hb & Hf).
    pose proof (nth_error_list_remove_length _ _ _ En) as Hlen.
    unfold single_flight, clean, busy, arrived in *. cbn.
    rewrite filter_app, length_app. simpl.
    repeat split; auto using Forall_list_remove.
    + destruct (is_response_handler (on_fulfilled waiting)); simpl; lia.
    + intro Hfalse. specialize (Hf Hfalse). lia.
  - destruct (nth_error (inflight s) n) as [waiting|] eqn:En; [|exact H].
    destruct H as ((Hp & Hi) & Hq & Hb & Hf).
    pose proof (nth_error_list_remove_length _ _ _ En) as Hlen.
    assert (Hw : is_response_handler (on_rejected waiting) = false).
    { rewrite Forall_forall in Hi. now rewrite (Hi _ (nth_error_In _ _ En)). }
    unfold single_flight, clean, busy, arrived in *. cbn.
    rewrite filter_app, length_app. simpl. rewrite Hw. simpl.
    repeat split; auto using Forall_list_remove; try lia.
  - exact (inv_occur_body single_flight respects_single_flight n
             (fun g s0 H0 => H0) s H).
  - exact (inv_occur_timer single_flight single_flight_request n
             (fun g s0 H0 => H0) s H).
Qed.

Lemma single_flight_step s s' : step s s' -> single_flight s -> single_flight s'.
Proof.
  intros [e s0 | s0 s1 E | c s0] H.
  - apply single_flight_occur, H.
  - eapply single_flight_microtask; eassumption.
  - apply single_flight_perform, H.
Qed.

Lemma single_flight_steps s s' : steps s s' -> single_flight s -> single_flight s'.
Proof.
  induction 1 as [|s1 s2 s3 _ IH Hstep]; intro H; [exact H|].
  eapply single_flight_step; [exact Hstep | apply IH, H].
Qed.

Lemma single_flight_reachable s : reachable s -> single_flight s.
Proof.
  intros (tok & primaryLocale & H).
  eapply single_flight_steps; [exact H | apply single_flight_new].
Qed.

(** *** The promise heap as a list *)

Lemma nth_app_length {A} (l : list A) x d : nth (List.length l) (l ++ [x]) d = x.
Proof. now rewrite app_nth2, Nat.sub_diag by lia. Qed.

Lemma list_update_app_length {A} (l : list A) x f :
  list_update (List.length l) f (l ++ [x]) = l ++ [f x].
Proof. induction l as [|y l IH]; simpl; [reflexivity | now rewrite IH]. Qed.

Lemma list_update_app_lt {A} n f (l l' : list A) :
  n < List.length l -> list_update n f (l ++ l') = list_update n f l ++ l'.
Proof.
  revert n. induction l as [|y l IH]; intros n H; simpl in *; [lia|].
  destruct n; simpl; [reflexivity|]. f_equal. apply IH. lia.
Qed.

Lemma length_list_update {A} n f (l : list A) :
  List.length (list_update n f l) = List.length l.
Proof.
  revert n. induction l as [|y l IH]; intros [|n]; simpl; auto.
Qed.

Lemma nth_list_update_eq {A} n f (l : list A) d :
  n < List.length l -> nth n (list_update n f l) d = f (nth n l d).
Proof.
  revert n. induction l as [|y l IH]; intros [|n] H; simpl in *;
    try lia; [reflexivity|]. apply IH. lia.
Qed.

Lemma nth_list_update_neq {A} n m f (l : list A) d :
  n <> m -> nth m (list_update n f l) d = nth m l d.
Proof.
  revert n m. induction l as [|y l IH]; intros [|n] [|m] H; simpl;
    try reflexivity; try congruence. apply IH. congruence.
Qed.

Lemma async_ok (body : M value) s v s1 :
  body (set_promises (fun l => l ++ [fresh_cell]) s) = (Ok v, s1) ->
  async body s
  = (Ok (List.length (promises s)),
     exec (resolve_fn (List.length (promises s)) v) s1).
Proof. intro E. unfold async, new_promise. now rewrite E. Qed.

Lemma async_throw (body : M value) s e s1 :
  body (set_promises (fun l => l ++ [fresh_cell]) s) = (Throw e, s1) ->
  async body s
  = (Ok (List.length (promises s)),
     exec (reject_fn (List.length (promises s)) e) s1).
Proof. intro E. unfold async, new_promise. now rewrite E. Qed.

Lemma request_body_idle s :
  isFetching (wf s) = true \/ queue (wf s) = [] ->
  request_body s = (Ok VUndefined, s).
Proof.
  intro H. unfold request_body, bind, get.
  destruct (isFetching (wf s)); [reflexivity|].
  destruct H as [H|H]; [discriminate|]. now rewrite H.
Qed.

Lemma machine_eta s :
  {| wf := wf s; promises := promises s; microtasks := microtasks s;
     all_records := all_records s; arrays := arrays s; inflight := inflight s;
     decoding := decoding s; timers := timers s; console := console s;
     submitted := submitted s; exchanged := exchanged s |} = s.
Proof. now destruct s. Qed.

(** Resolving the promise just made with a value that is no promise. *)
Lemma resolve_fn_fresh s v :
  (forall q, v <> VPromise q) ->
  exec (resolve_fn (List.length (promises s)) v)
       (set_promises (fun l => l ++ [fresh_cell]) s)
  = set_promises (fun l => l ++ [{| pstatus := Fulfilled v;
                                    alreadyResolved := true;
                                    reactions := [] |}]) s.
Proof.
  intro Hv.
  assert (E : resolve_with (List.length (promises s)) v
              = settle (List.length (promises s)) false v).
  { destruct v; try reflexivity. now destruct (Hv p). }
  unfold exec, resolve_fn, bind, get, cell. rewrite E.
  unfold settle, mark_resolved, update_cell, enqueue_jobs, modify, bind, get,
    cell, ret, set_promises, set_microtasks. cbn.
  rewrite nth_app_length. cbn.
  rewrite list_update_app_length. cbn.
  rewrite nth_app_length. cbn.
  rewrite list_update_app_length. cbn.
  now rewrite app_nil_r.
Qed.

(** A dispatch cycle that finds a call in flight, or the queue empty,
    only makes the promise every [async] call returns. *)
Lemma request_idle s :
  isFetching (wf s) = true \/ queue (wf s) = [] ->
  request s =
  (Ok (List.length (promises s)),
   set_promises (fun l => l ++ [{| pstatus := Fulfilled VUndefined;
                                   alreadyResolved := true;
                                   reactions := [] |}]) s).
Proof.
  intro H. unfold request.
  rewrite (async_ok request_body s VUndefined
             (set_promises (fun l => l ++ [fresh_cell]) s)).
  - now rewrite resolve_fn_fresh by discriminate.
  - apply request_body_idle. exact H.
Qed.

(** *** Frame lemmas *)

Section Keeps.
Context {X : Type} (f : machine -> X).

Lemma keeps_ret {A} (a : A) : keeps f (ret a).
Proof. intro s. reflexivity. Qed.

Lemma keeps_throw {A} e : keeps f (@throw A e).
Proof. intro s. reflexivity. Qed.

Lemma keeps_get : keeps f get.
Proof. intro s. reflexivity. Qed.

Lemma keeps_bind {A B} (m : M A) (k : A -> M B) :
  keeps f m -> (forall a, keeps f (k a)) -> keeps f (bind m k).
Proof.
  intros Hm Hk s. unfold bind. specialize (Hm s).
  destruct (m s) as [[a|e] s']; simpl in *; [|exact Hm].
  now rewrite Hk.
Qed.

Lemma keeps_modify g : (forall s, f (g s) = f s) -> keeps f (modify g).
Proof. intros Hg s. apply Hg. Qed.

Lemma keeps_mapM {A B} (k : A -> M B) l :
  (forall a, keeps f (k a)) -> keeps f (mapM k l).
Proof.
  intro Hk. induction l as [|x l IH]; simpl.
  - apply keeps_ret.
  - apply keeps_bind; [apply Hk|]. intro y.
    apply keeps_bind; [apply IH|]. intro ys. apply keeps_ret.
Qed.

Lemma keeps_async (body : M value) :
  keeps f new_promise ->
  (forall p v, keeps f (resolve_fn p v)) ->
  (forall p e, keeps f (reject_fn p e)) ->
  keeps f body -> keeps f (async body).
Proof.
  intros Hn Hres Hrej Hb s. unfold async.
  specialize (Hn s). destruct (new_promise s) as [r0 s0]. simpl in Hn.
  specialize (Hb s0). destruct (body s0) as [[v|e] s1]; simpl in *; unfold exec.
  - now rewrite Hres, Hb.
  - now rewrite Hrej, Hb.
Qed.
End Keeps.

(** What is kept of [dispatch] is kept of each of its parts. *)
Lemma keeps_part {A X} (g : _ -> X) (m : M A) :
  keeps dispatch m -> keeps (fun s => g (dispatch s)) m.
Proof. intros H s. now rewrite H. Qed.

(** [evaluate t H]: compute [t] and keep the equation as [H]. *)
Ltac evaluate t H :=
  let v := eval vm_compute in t in
  assert (H : t = v) by (vm_compute; reflexivity).

Ltac keeps_step :=
  match goal with
  | |- keeps _ (bind _ _) => apply keeps_bind; [|intro]
  | |- keeps _ (ret _) => apply keeps_ret
  | |- keeps _ (throw _) => apply keeps_throw
  | |- keeps _ get => apply keeps_get
  | |- keeps _ (mapM _ _) => apply keeps_mapM; intro
  | |- keeps _ (modify _) => apply keeps_modify; intro; reflexivity
  | |- keeps _ (if ?b then _ else _) => destruct b
  | |- keeps _ (match ?x with _ => _ end) => destruct x
  | |- keeps _ _ => solve [auto with keeps | intro; reflexivity]
  | |- keeps submitted _ =>
      apply (keeps_part (fun d => snd (fst d))); solve [auto with keeps]
  | |- keeps exchanged _ =>
      apply (keeps_part (fun d => snd d)); solve [auto with keeps]
  | |- keeps inflight _ =>
      apply (keeps_part (fun d => snd (fst (fst d)))); solve [auto with keeps]
  | |- keeps wf _ =>
      apply (keeps_part (fun d => fst (fst (fst d)))); solve [auto with keeps]
  end.

Ltac keeps_auto := repeat keeps_step.

Create HintDb keeps.

Lemma dispatch_new_promise : keeps dispatch new_promise.
Proof. intro s. reflexivity. Qed.

Lemma dispatch_update_cell p g : keeps dispatch (update_cell p g).
Proof. intro s. reflexivity. Qed.

Lemma dispatch_enqueue_jobs js : keeps dispatch (enqueue_jobs js).
Proof. intro s. reflexivity. Qed.
#[export] Hint Resolve dispatch_new_promise dispatch_update_cell
  dispatch_enqueue_jobs : keeps.

Lemma dispatch_settle p rejected v : keeps dispatch (settle p rejected v).
Proof. unfold settle. keeps_auto. Qed.

Lemma dispatch_mark_resolved p : keeps dispatch (mark_resolved p).
Proof. unfold mark_resolved. keeps_auto. Qed.
#[export] Hint Resolve dispatch_settle dispatch_mark_resolved : keeps.

Lemma dispatch_resolve_with p v : keeps dispatch (resolve_with p v).
Proof. unfold resolve_with. keeps_auto. Qed.
#[export] Hint Resolve dispatch_resolve_with : keeps.

Lemma dispatch_resolve_fn p v : keeps dispatch (resolve_fn p v).
Proof. unfold resolve_fn. keeps_auto. Qed.

Lemma dispatch_reject_fn p v : keeps dispatch (reject_fn p v).
Proof. unfold reject_fn. keeps_auto. Qed.
#[export] Hint Resolve dispatch_resolve_fn dispatch_reject_fn : keeps.

Lemma dispatch_perform_then p h1 h2 : keeps dispatch (perform_then p h1 h2).
Proof. unfold perform_then. keeps_auto. Qed.
#[export] Hint Resolve dispatch_perform_then : keeps.

Lemma dispatch_promise_resolve v : keeps dispatch (promise_resolve v).
Proof. unfold promise_resolve. keeps_auto. Qed.

Lemma dispatch_update_rec r g : keeps dispatch (update_rec r g).
Proof. intro s. reflexivity. Qed.
#[export] Hint Resolve dispatch_promise_resolve dispatch_update_rec : keeps.

Lemma dispatch_all_countdown r : keeps dispatch (all_countdown r).
Proof. unfold all_countdown. keeps_auto. Qed.
#[export] Hint Resolve dispatch_all_countdown : keeps.

Lemma dispatch_all_resolve_element r i v :
  keeps dispatch (all_resolve_element r i v).
Proof. unfold all_resolve_element. keeps_auto. Qed.

Lemma dispatch_all_loop r result vs :
  forall index, keeps dispatch (all_loop r result index vs).
Proof. induction vs as [|v vs IH]; intro index; simpl; keeps_auto. Qed.
#[export] Hint Resolve dispatch_all_resolve_element dispatch_all_loop : keeps.

Lemma dispatch_promise_all vs : keeps dispatch (promise_all vs).
Proof. unfold promise_all. keeps_auto. Qed.

Lemma dispatch_console_log e : keeps dispatch (console_log e).
Proof. intro s. reflexivity. Qed.

Lemma dispatch_decode r : keeps dispatch (decode r).
Proof. unfold decode. keeps_auto. Qed.

Lemma dispatch_setTimeout d : keeps dispatch (setTimeout d).
Proof. intro s. reflexivity. Qed.
#[export] Hint Resolve dispatch_promise_all dispatch_console_log
  dispatch_decode dispatch_setTimeout : keeps.

Lemma submitted_request : keeps submitted request.
Proof.
  unfold request, request_body, global_fetch_then.
  apply keeps_async; [intro; reflexivity | intros; keeps_step ..| keeps_auto].
Qed.

(** An [async] function returns its promise, whatever its body does. *)
Lemma async_returns (body : M value) s :
  fst (async body s) = Ok (List.length (promises s)).
Proof.
  unfold async. destruct (new_promise s) as [r0 s0].
  destruct (body s0) as [[v|e] s1]; reflexivity.
Qed.

(** [fetch] pushes one request, whose handle is the promise it makes. *)
Lemma submitted_fetch o s :
  fst (fetch o s) = Ok (List.length (promises s))
  /\ submitted (snd (fetch o s))
     = submitted s
       ++ [{| options := options_of o;
              handle := List.length (promises s) |}].
Proof.
  unfold fetch, bind, new_promise, modify. cbv beta iota.
  match goal with
  | |- context [request ?s0] =>
      pose proof (submitted_request s0) as H;
      pose proof (async_returns request_body s0) as R;
      fold request in R;
      destruct (request s0) as [[q|e] s1]
  end; simpl in *; [|discriminate].
  split; [reflexivity | exact H].
Qed.

(** [async f() { const p = this.fetch(o); ... }] where what follows
    pushes nothing. *)
Lemma submitted_async_fetch o (k : pid -> M value) s :
  (forall p, keeps submitted (k p)) ->
  submitted (snd (async (bind (fetch o) k) s))
  = submitted s
    ++ [{| options := options_of o; handle := S (List.length (promises s)) |}].
Proof.
  intro Hk. unfold async, new_promise, bind.
  match goal with
  | |- context [fetch o ?s0] =>
      destruct (submitted_fetch o s0) as [R H];
      destruct (fetch o s0) as [[q|e] s1]
  end; simpl in *; [|discriminate].
  specialize (Hk q s1).
  destruct (k q s1) as [[v|e] s2]; simpl in *; unfold exec.
  - assert (K : keeps submitted (resolve_fn (List.length (promises s)) v))
      by keeps_step.
    rewrite K, Hk, H. now rewrite length_app, Nat.add_comm.
  - assert (K : keeps submitted (reject_fn (List.length (promises s)) e))
      by keeps_step.
    rewrite K, Hk, H. now rewrite length_app, Nat.add_comm.
Qed.

(** **** C10 *)

(** C10. [createItem] sends the whole [itemData] object as the body's
    [fieldData]: the value of that field has [isArchived], [isDraft] and
    a nested [fieldData] of its own and is not [itemData.fieldData],
    while the body's own [isArchived] and [isDraft] are those of
    [itemData].  The bulk-create call of [createItemAllLocales] sends the
    [fieldData] member of the primary locale's data instead. *)
Theorem createItem_body_fieldData_is_itemData :
  forall s collectionId (itemData : ItemData) live
         (locales : list (Locales * PartialItemData)) primaryData,
    lookup_locale (PRIMARY_LOCALE (wf s)) locales = Some primaryData ->
    (exists h b,
        submitted (snd (createItem collectionId itemData live s))
        = submitted s
          ++ [{| options :=
                   {| endpoint := ("collections/" ++ collectionId ++ "/items"
                                     ++ live_suffix live)%string;
                      method := Some POST;
                      body := Some b |};
                 handle := h |}]
        /\ obj_get "fieldData" b = Some (js_of_ItemData itemData)
        /\ obj_get "fieldData" b
           <> Some (js_of_FieldData (fieldData itemData))
        /\ obj_get "isArchived" b = Some (JBool (isArchived itemData))
        /\ obj_get "isDraft" b = Some (JBool (isDraft itemData)))
    /\ obj_get "isArchived" (js_of_ItemData itemData)
       = Some (JBool (isArchived itemData))
    /\ obj_get "isDraft" (js_of_ItemData itemData)
       = Some (JBool (isDraft itemData))
    /\ obj_get "fieldData" (js_of_ItemData itemData)
       = Some (js_of_FieldData (fieldData itemData))
    /\ exists h b,
        submitted (snd (createItemAllLocales collectionId locales live s))
        = submitted s
          ++ [{| options :=
                   {| endpoint := ("collections/" ++ collectionId
                                     ++ "/items/bulk")%string;
                      method := Some POST;
                      body := Some b |};
                 handle := h |}]
        /\ obj_get "fieldData" b
           = Some (js_of_PartialFieldData (fieldData primaryData)).
Proof.
  intros s collectionId itemData live locales primaryData Hp.
  split; [|split; [|split; [|split]]].
  - eexists _, _. split.
    { unfold createItem. rewrite submitted_async_fetch; [reflexivity|].
      intro p. keeps_auto. }
    split; [reflexivity|]. split; [|split; reflexivity].
    simpl. unfold js_of_ItemData, js_of_ItemDataOf, js_of_FieldData.
    intro E. injection E as E.
    destruct (cmsLocaleId itemData); discriminate.
  - unfold js_of_ItemData, js_of_ItemDataOf.
    destruct (cmsLocaleId itemData); reflexivity.
  - unfold js_of_ItemData, js_of_ItemDataOf.
    destruct (cmsLocaleId itemData); reflexivity.
  - unfold js_of_ItemData, js_of_ItemDataOf.
    destruct (cmsLocaleId itemData); reflexivity.
  - eexists _, _. split; cycle 1.
    1: shelve.
    unfold createItemAllLocales.
    match goal with
    | |- context [async ?body s] =>
        assert (E : body (set_promises (fun l => l ++ [fresh_cell]) s)
                    = bind (fetch (inl
           {| endpoint := ("collections/" ++ collectionId
                             ++ "/items/bulk")%string;
              method := Some POST;
              body := Some (JObj
                [ ("isArchived", JBool (isArchived primaryData));
                  ("isDraft", JBool (isDraft primaryData));
                  ("fieldData",
                   js_of_PartialFieldData (fieldData primaryData));
                  ("cmsLocaleIds",
                   JArr (map js_of_locale (Object_keys locales))) ]) |}))
             (fun p =>
                bind (perform_then p
                        (HKont (KCreateItemAllLocales collectionId locales))
                        HNone)
                  (fun promise =>
                     bind (if live then
                             bind (perform_then promise
                                     (HKont (KPublish collectionId)) HNone)
                               (fun published =>
                                  bind (perform_then published
                                          (HKont KConsoleLog) HNone)
                                    (fun _ => ret tt))
                           else ret tt)
                       (fun _ => ret (VPromise promise))))
             (set_promises (fun l => l ++ [fresh_cell]) s))
          by (unfold bind at 1, get; simpl; rewrite Hp; reflexivity)
    end.
    pose proof (submitted_async_fetch) as L.
    unfold async in *. unfold new_promise in *. rewrite E.
    rewrite L; [reflexivity|]. intro p. keeps_auto.
    Unshelve. reflexivity.
Qed.

Lemma createItem_body_fieldData_witness :
  lookup_locale (PRIMARY_LOCALE (wf (new_WebflowConnection "t" ENGLISH)))
    sample_locales = Some (sample_partial "Class" "Monday")
  /\ exists h b,
      submitted (snd (createItem "c" sample_itemData true
                        (new_WebflowConnection "t" ENGLISH)))
      = submitted (new_WebflowConnection "t" ENGLISH)
        ++ [{| options :=
                 {| endpoint := ("collections/" ++ "c" ++ "/items"
                                   ++ live_suffix true)%string;
                    method := Some POST;
                    body := Some b |};
               handle := h |}]
      /\ obj_get "fieldData" b = Some (js_of_ItemData sample_itemData).
Proof.
  split; [reflexivity|].
  destruct (createItem_body_fieldData_is_itemData
              (new_WebflowConnection "t" ENGLISH) "c" sample_itemData true
              sample_locales (sample_partial "Class" "Monday") eq_refl)
    as ((h & b & H1 & H2 & _) & _).
  exists h, b. split; assumption.
Defined.

(** Rejecting the promise just made. *)
Lemma reject_fn_fresh s e :
  exec (reject_fn (List.length (promises s)) e)
       (set_promises (fun l => l ++ [fresh_cell]) s)
  = set_promises (fun l => l ++ [{| pstatus := Rejected e;
                                    alreadyResolved := true;
                                    reactions := [] |}]) s.
Proof.
  unfold exec, reject_fn, bind, get, cell.
  unfold settle, mark_resolved, update_cell, enqueue_jobs, modify, bind, get,
    cell, ret, set_promises, set_microtasks. cbn.
  rewrite nth_app_length. cbn.
  rewrite list_update_app_length. cbn.
  rewrite nth_app_length. cbn.
  rewrite list_update_app_length. cbn.
  now rewrite app_nil_r.
Qed.

(** **** C7 *)

(** C7. When the locale map of [createItemAllLocales] has no entry for
    the primary locale, reading [itemData[this.PRIMARY_LOCALE].isArchived]
    throws before [fetch] is called: the call returns a promise that is
    already rejected with that TypeError, and nothing else in the machine
    changes: no request is pushed on the queue, none is sent, no
    microtask is left. *)
Theorem createItemAllLocales_without_primary_rejects :
  forall s collectionId (itemData : list (Locales * PartialItemData)) live,
    lookup_locale (PRIMARY_LOCALE (wf s)) itemData = None ->
    exists msg,
      createItemAllLocales collectionId itemData live s
      = (Ok (List.length (promises s)),
         set_promises
           (fun l => l ++ [{| pstatus := Rejected (VTypeError msg);
                              alreadyResolved := true;
                              reactions := [] |}]) s)
      /\ let s' := snd (createItemAllLocales collectionId itemData live s) in
         pstatus (cell (List.length (promises s)) s')
         = Rejected (VTypeError msg)
         /\ queue (wf s') = queue (wf s)
         /\ submitted s' = submitted s
         /\ exchanged s' = exchanged s
         /\ inflight s' = inflight s
         /\ microtasks s' = microtasks s.
Proof.
  intros s collectionId itemData live Hp.
  exists "Cannot read properties of undefined".
  assert (E : createItemAllLocales collectionId itemData live s
              = (Ok (List.length (promises s)),
                 set_promises
                   (fun l => l ++ [{| pstatus := Rejected (VTypeError
                                        "Cannot read properties of undefined");
                                      alreadyResolved := true;
                                      reactions := [] |}]) s)).
  { unfold createItemAllLocales.
    erewrite async_throw; [now rewrite reject_fn_fresh|].
    unfold bind, get. simpl. rewrite Hp. reflexivity. }
  rewrite E. split; [reflexivity|]. simpl.
  unfold cell. simpl. rewrite nth_app_length. simpl. repeat split.
Qed.

Lemma createItemAllLocales_without_primary_witness :
  lookup_locale (PRIMARY_LOCALE (wf (new_WebflowConnection "t" ENGLISH)))
    [(SPANISH, sample_partial "Clase" "Lunes")] = None
  /\ exists msg,
      createItemAllLocales "c" [(SPANISH, sample_partial "Clase" "Lunes")] true
        (new_WebflowConnection "t" ENGLISH)
      = (Ok 0,
         set_promises
           (fun l => l ++ [{| pstatus := Rejected (VTypeError msg);
                              alreadyResolved := true;
                              reactions := [] |}])
           (new_WebflowConnection "t" ENGLISH)).
Proof.
  split; [reflexivity|].
  destruct (createItemAllLocales_without_primary_rejects
              (new_WebflowConnection "t" ENGLISH) "c"
              [(SPANISH, sample_partial "Clase" "Lunes")] true eq_refl)
    as (msg & E & _).
  exists msg. exact E.
Defined.

(** *** After a transport failure *)

Lemma respects_stalled_at x : respects (stalled_at x).
Proof.
  split; [intros s H; apply H|].
  intros s s' Hc Hv (_ & Hf & Hb & Hx). unfold view in Hv.
  injection Hv as Hw Hi Hs He Ha.
  unfold stalled_at, busy in *. rewrite Hw, Hi, He, Ha. auto.
Qed.

Lemma stalled_request x : preserves (stalled_at x) request.
Proof.
  apply preserves_async; [apply respects_stalled_at|].
  intros s H. rewrite request_body_idle; [exact H|]. left. apply H.
Qed.

Lemma stalled_fetch x o : preserves (stalled_at x) (fetch o).
Proof.
  unfold fetch. apply preserves_bind; [by_quiet (respects_stalled_at x)|].
  intro p. apply preserves_modify2.
  - intros s ((Hp & Hi) & Hf & Hb & Hx).
    unfold stalled_at, clean, busy, arrived in *. cbn. auto.
  - apply preserves_bind; [apply stalled_request|].
    intros _. apply preserves_ret.
Qed.

Lemma stalled_step x s s' : step s s' -> stalled_at x s -> stalled_at x s'.
Proof.
  intros [e s0 | s0 s1 E | c s0] H.
  - destruct (busy_0 s0 (proj1 (proj2 (proj2 H)))) as [Hin Har].
    destruct e as [n r | n msg | n | n].
    + unfold exec, occur, bind, get. rewrite Hin.
      destruct n; exact H.
    + unfold exec, occur, bind, get. rewrite Hin.
      destruct n; exact H.
    + exact (inv_occur_body (stalled_at x) (respects_stalled_at x) n
               (fun g s1 H1 => H1) s0 H).
    + exact (inv_occur_timer (stalled_at x) (stalled_request x) n
               (fun g s1 H1 => H1) s0 H).
  - unfold microtask in E.
    destruct (microtasks s0) as [|j rest] eqn:Em; [discriminate|].
    injection E as <-.
    destruct H as ((Hp & Hi) & Hf & Hb & Hx).
    destruct (busy_0 s0 Hb) as [Hin Har].
    unfold arrived in Har. rewrite Em in Har. simpl in Har.
    destruct (is_response_job j) eqn:Ej; [discriminate|].
    apply (inv_run_job (stalled_at x) (respects_stalled_at x) (stalled_fetch x)
             j Ej).
    unfold stalled_at, clean, busy, arrived in *. cbn.
    rewrite Hin, Har. auto.
  - apply (inv_perform (stalled_at x) (respects_stalled_at x) (stalled_fetch x)),
      H.
Qed.

Lemma stalled_steps x s s' : steps s s' -> stalled_at x s -> stalled_at x s'.
Proof.
  induction 1 as [|s1 s2 s3 _ IH Hstep]; intro H; [exact H|].
  eapply stalled_step; [exact Hstep | apply IH, H].
Qed.

(** A transport failure leaves the dispatcher stalled. *)
Lemma stalled_after_failure s n msg waiting :
  single_flight s -> nth_error (inflight s) n = Some waiting ->
  stalled_at (exchanged s) (exec (occur (EvTransportFailure n msg)) s).
Proof.
  intros ((Hp & Hi) & Hq & Hb & Hf) En.
  pose proof (nth_error_list_remove_length _ _ _ En) as Hlen.
  assert (Hw : on_rejected waiting = HNone).
  { rewrite Forall_forall in Hi. apply Hi. eapply nth_error_In, En. }
  unfold exec, occur, bind, get. rewrite En.
  unfold stalled_at, clean, busy, arrived in *. cbn.
  rewrite filter_app, length_app. simpl. rewrite Hw. simpl.
  repeat split; auto using Forall_list_remove; try lia.
  destruct (isFetching (wf s)); [reflexivity|].
  specialize (Hf eq_refl). lia.
Qed.

(** *** What the callback of [request] does to the connection and to
    the handle *)

Lemma wf_on_response req response s :
  wf (snd (on_response req response s))
  = with_ratelimit (or_zero (Number (x_ratelimit_remaining response)))
      (with_isFetching false (wf s)).
Proof.
  unfold on_response. unfold bind at 1 2. unfold modify at 1 2.
  cbv beta iota.
  match goal with
  | |- wf (snd (?m ?s0)) = _ => assert (K : keeps wf m)
  end.
  { keeps_auto. }
  rewrite K. reflexivity.
Qed.

Lemma digit_facts c :
  is_decimal_digit c = true ->
  digit_of 10 c = Some (Z.of_nat (code c - 48))
  /\ is_ws c = false
  /\ (code c =? 45)%nat = false /\ (code c =? 43)%nat = false
  /\ (code c =? 120)%nat = false /\ (code c =? 88)%nat = false
  /\ (code c =? 111)%nat = false /\ (code c =? 79)%nat = false
  /\ (code c =? 98)%nat = false /\ (code c =? 66)%nat = false
  /\ (code c =? 46)%nat = false
  /\ (code c =? 101)%nat = false /\ (code c =? 69)%nat = false
  /\ Ascii.eqb c "I"%char = false.
Proof.
  destruct c as [[] [] [] [] [] [] [] []]; intro H;
    try discriminate H; vm_compute; repeat split.
Qed.

Lemma span_digits_all ds :
  forallb is_decimal_digit ds = true ->
  span_digits 10 ds = (map (fun c => Z.of_nat (code c - 48)) ds, []).
Proof.
  induction ds as [|c ds IH]; simpl; [reflexivity|].
  intro H. apply andb_prop in H. destruct H as [Hc Hds].
  destruct (digit_facts c Hc) as (-> & _). now rewrite (IH Hds).
Qed.

Lemma drop_ws_digit c ds :
  is_decimal_digit c = true -> drop_ws (c :: ds) = c :: ds.
Proof.
  intro Hc. simpl. destruct (digit_facts c Hc) as (_ & -> & _). reflexivity.
Qed.

Lemma forallb_rev {A} (f : A -> bool) l :
  forallb f (rev l) = forallb f l.
Proof.
  induction l as [|x l IH]; simpl; [reflexivity|].
  rewrite forallb_app, IH. simpl. rewrite andb_true_r. apply andb_comm.
Qed.

Lemma trim_digits ds :
  forallb is_decimal_digit ds = true -> trim ds = ds.
Proof.
  intro H. unfold trim.
  assert (D : forall l, forallb is_decimal_digit l = true -> drop_ws l = l).
  { intros [|c l] Hl; [reflexivity|]. simpl in Hl. apply andb_prop in Hl.
    now apply drop_ws_digit. }
  rewrite (D ds H), D by now rewrite forallb_rev.
  apply rev_involutive.
Qed.

Lemma parse_decimal_digits ds :
  ds <> [] -> forallb is_decimal_digit ds = true ->
  parse_decimal ds = JNum (inject_Z (decimal_value ds)).
Proof.
  intros Hne H. destruct ds as [|c ds]; [congruence|].
  pose proof H as H'. simpl in H'. apply andb_prop in H'. destruct H' as [Hc Hds].
  destruct (digit_facts c Hc)
    as (Hd & _ & Hm & Hp & _ & _ & _ & _ & _ & _ & _ & _ & _ & HI).
  unfold parse_decimal. rewrite Hm, Hp.
  assert (E : list_ascii_eqb (c :: ds) Infinity_chars = false).
  { unfold list_ascii_eqb. simpl. now rewrite HI. }
  rewrite E. unfold parse_unsigned_decimal.
  rewrite (span_digits_all (c :: ds) H). simpl.
  rewrite app_nil_r. unfold scale10. simpl.
  unfold decimal_value. simpl. now rewrite Z.mul_1_r.
Qed.

Lemma digits_value_nonneg ds acc :
  (0 <= acc)%Z -> Forall (fun d => 0 <= d)%Z ds ->
  (0 <= fold_left (fun a d => 10 * a + d)%Z ds acc)%Z.
Proof.
  revert acc. induction ds as [|d ds IH]; intros acc Ha Hds; cbn [fold_left];
    [exact Ha|].
  inversion Hds; subst. apply IH; [lia | assumption].
Qed.

Lemma decimal_value_nonneg ds : (0 <= decimal_value ds)%Z.
Proof.
  unfold decimal_value, digits_value. apply digits_value_nonneg; [lia|].
  apply Forall_map, Forall_forall. intros c _. lia.
Qed.

(** *** Rounding to a double *)

Lemma Qred_inject_Z z : Qred (inject_Z z) = inject_Z z.
Proof.
  unfold Qred, inject_Z.
  pose proof (Z.ggcd_gcd z 1) as G. pose proof (Z.ggcd_correct_divisors z 1) as D.
  destruct (Z.ggcd z 1) as [g [a b]]. cbn [fst snd] in *.
  rewrite Z.gcd_1_r in G. subst g. destruct D as [Da Db].
  rewrite Z.mul_1_l in Da, Db. subst. reflexivity.
Qed.

Lemma Qred_scaled z k :
  (0 < k)%Z -> Qred (Qmake (z * k) (Z.to_pos k)) = inject_Z z.
Proof.
  intro Hk. rewrite <- Qred_inject_Z. apply Qred_complete.
  unfold Qeq, inject_Z. cbn [Qnum Qden]. rewrite Z2Pos.id by exact Hk. lia.
Qed.

Lemma floor_log2_integer z : (0 < z)%Z -> floor_log2 z 1 = Z.log2 z.
Proof.
  intro Hz. unfold floor_log2. cbn [Z.log2]. rewrite Z.sub_0_r.
  pose proof (Z.log2_nonneg z) as Hn.
  replace (0 <=? Z.log2 z)%Z with true by (symmetry; apply Z.leb_le; exact Hn).
  replace (z <? 1 * 2 ^ Z.log2 z)%Z with false; [reflexivity|].
  symmetry. apply Z.ltb_ge. rewrite Z.mul_1_l. apply Z.log2_spec. exact Hz.
Qed.

Lemma round_half_even_whole n : round_half_even n 1 = n.
Proof.
  unfold round_half_even. rewrite Z.mod_1_r, Z.div_1_r. reflexivity.
Qed.

(** An integer below 2^53 is a double. *)
Lemma binary64_integer z :
  (0 <= z < 2 ^ 53)%Z -> binary64 (inject_Z z) = JNum (inject_Z z).
Proof.
  intros [H0 H53]. unfold binary64, inject_Z. cbn [Qnum Qden].
  destruct z as [|p|p]; [reflexivity | | lia].
  unfold nearest_double. rewrite floor_log2_integer by lia.
  assert (L : (Z.log2 (Z.pos p) < 53)%Z) by (apply Z.log2_lt_pow2; lia).
  pose proof (Z.log2_nonneg (Z.pos p)) as Hn.
  rewrite Z.max_l by lia.
  remember (Z.log2 (Z.pos p) - 52)%Z as s eqn:Hs.
  destruct (0 <=? s)%Z eqn:E.
  - apply Z.leb_le in E. assert (s = 0%Z) as -> by lia.
    rewrite Z.pow_0_r, Z.mul_1_r, round_half_even_whole, Z.mul_1_r.
    replace (2 ^ 1024 <=? Z.abs (Z.pos p))%Z with false; [reflexivity|].
    symmetry. apply Z.leb_gt. cbn [Z.abs].
    eapply Z.lt_trans; [exact H53|]. apply Z.pow_lt_mono_r; lia.
  - apply Z.leb_gt in E. rewrite round_half_even_whole.
    rewrite Qred_scaled by (apply Z.pow_pos_nonneg; lia). reflexivity.
Qed.

Lemma round_half_even_nonneg n d :
  (0 <= n)%Z -> (0 < d)%Z -> (0 <= round_half_even n d)%Z.
Proof.
  intros Hn Hd. unfold round_half_even.
  assert (0 <= n / d)%Z by (apply Z.div_pos; lia).
  repeat match goal with |- context [if ?b then _ else _] => destruct b end; lia.
Qed.

Lemma nearest_double_not_negative n d :
  (0 < n)%Z -> (0 < d)%Z -> not_negative (nearest_double false n d).
Proof.
  intros Hn Hd. unfold nearest_double.
  set (s := Z.max _ _).
  destruct (0 <=? s)%Z eqn:E.
  - apply Z.leb_le in E.
    assert (M : (0 <= round_half_even n (d * 2 ^ s))%Z).
    { apply round_half_even_nonneg; [lia|]. apply Z.mul_pos_pos; [lia|].
      apply Z.pow_pos_nonneg; lia. }
    destruct (2 ^ 1024 <=? _)%Z; [reflexivity|].
    cbn [not_negative]. unfold Qle, inject_Z. cbn [Qnum Qden].
    assert (0 <= 2 ^ s)%Z by (apply Z.pow_nonneg; lia). nia.
  - assert (M : (0 <= round_half_even (n * 2 ^ (- s)) d)%Z).
    { apply round_half_even_nonneg; [|lia].
      assert (0 <= 2 ^ (- s))%Z by (apply Z.pow_nonneg; lia). nia. }
    cbn [not_negative]. rewrite Qred_correct.
    unfold Qle. cbn [Qnum Qden]. lia.
Qed.

Lemma binary64_not_negative z : (0 <= z)%Z -> not_negative (binary64 (inject_Z z)).
Proof.
  intro Hz. unfold binary64, inject_Z. cbn [Qnum Qden].
  destruct z as [|p|p]; [cbn; apply Qle_refl | | lia].
  apply nearest_double_not_negative; lia.
Qed.

(** [Number] on a header made of decimal digits: the double nearest to
    the integer they denote, which is that integer below 2^53. *)
Lemma StringNumericValue_digits ds :
  ds <> [] -> forallb is_decimal_digit ds = true ->
  StringNumericValue (string_of_list_ascii ds)
  = JNum (inject_Z (decimal_value ds)).
Proof.
  intros Hne H. unfold StringNumericValue.
  rewrite list_ascii_of_string_of_list_ascii, (trim_digits ds H).
  destruct ds as [|z [|x rest]]; [congruence | |].
  - now apply parse_decimal_digits.
  - pose proof H as H'. simpl in H'.
    apply andb_prop in H'. destruct H' as [_ H'].
    apply andb_prop in H'. destruct H' as [Hx _].
    destruct (digit_facts x Hx)
      as (_ & _ & _ & _ & -> & -> & -> & -> & -> & -> & _).
    simpl. destruct (code z =? 48)%nat; now apply parse_decimal_digits.
Qed.

Lemma Number_digits_rounded ds :
  ds <> [] -> forallb is_decimal_digit ds = true ->
  Number (Some (string_of_list_ascii ds))
  = binary64 (inject_Z (decimal_value ds)).
Proof.
  intros Hne H. unfold Number, StringToNumber.
  now rewrite (StringNumericValue_digits ds Hne H).
Qed.

Lemma Number_digits ds :
  ds <> [] -> forallb is_decimal_digit ds = true ->
  (decimal_value ds < 2 ^ 53)%Z ->
  Number (Some (string_of_list_ascii ds)) = JNum (inject_Z (decimal_value ds)).
Proof.
  intros Hne H Hb. rewrite (Number_digits_rounded ds Hne H).
  apply binary64_integer. split; [apply decimal_value_nonneg | exact Hb].
Qed.

Lemma Number_digits_not_negative ds :
  ds <> [] -> forallb is_decimal_digit ds = true ->
  not_negative (Number (Some (string_of_list_ascii ds))).
Proof.
  intros Hne H. rewrite (Number_digits_rounded ds Hne H).
  apply binary64_not_negative, decimal_value_nonneg.
Qed.

Lemma or_zero_not_negative x : not_negative x -> not_negative (or_zero x).
Proof.
  destruct x as [q| |b]; cbn; [|intros []|exact (fun H => H)].
  intro H. destruct (Qeq_bool q 0); [apply Qle_refl | exact H].
Qed.

(** **** C6 *)

(** C6, as the code has it.  After the callback of [request] has run on
    a response, [ratelimit] is [Number(header) || 0] for the
    remaining-quota header of that response, a double:
    - it is computed from the response alone, whatever the connection
      held before (no local decrement);
    - it is 0 when the header is missing or is not a number;
    - when the header is a string of decimal digits, it is the double
      nearest to the integer they denote (an infinity from 2^1024 on),
      which is not negative;
    - that double is the integer itself when the integer is below
      2^53. *)
Theorem ratelimit_is_Number_of_header_or_zero :
  forall s req response,
    ratelimit (wf (snd (on_response req response s)))
    = or_zero (Number (x_ratelimit_remaining response))
    /\ (forall s0,
           ratelimit (wf (snd (on_response req response s0)))
           = ratelimit (wf (snd (on_response req response s))))
    /\ (x_ratelimit_remaining response = None
        \/ Number (x_ratelimit_remaining response) = JNaN ->
        ratelimit (wf (snd (on_response req response s))) = JNum 0%Q)
    /\ (forall ds,
           ds <> [] -> forallb is_decimal_digit ds = true ->
           x_ratelimit_remaining response = Some (string_of_list_ascii ds) ->
           ratelimit (wf (snd (on_response req response s)))
           = or_zero (binary64 (inject_Z (decimal_value ds)))
           /\ not_negative (ratelimit (wf (snd (on_response req response s)))))
    /\ (forall ds,
           ds <> [] -> forallb is_decimal_digit ds = true ->
           (decimal_value ds < 2 ^ 53)%Z ->
           x_ratelimit_remaining response = Some (string_of_list_ascii ds) ->
           ratelimit (wf (snd (on_response req response s)))
           = JNum (inject_Z (decimal_value ds))
           /\ (0 <= decimal_value ds)%Z).
Proof.
  intros s req response. rewrite wf_on_response. simpl.
  split; [reflexivity|]. split; [|split; [|split]].
  - intro s0. now rewrite wf_on_response.
  - intros [H|H]; rewrite H; reflexivity.
  - intros ds Hne Hd H. rewrite H. split.
    + now rewrite (Number_digits_rounded ds Hne Hd).
    + now apply or_zero_not_negative, Number_digits_not_negative.
  - intros ds Hne Hd Hb H. rewrite H, (Number_digits ds Hne Hd Hb).
    split; [|apply decimal_value_nonneg].
    unfold or_zero. destruct (Qeq_bool _ _) eqn:E; [|reflexivity].
    apply Qeq_bool_iff in E. unfold Qeq in E. simpl in E.
    rewrite Z.mul_1_r in E. now rewrite E.
Qed.

Lemma ratelimit_is_Number_of_header_witness :
  (["4"; "2"]%char <> [] /\ forallb is_decimal_digit ["4"; "2"]%char = true
   /\ (decimal_value ["4"; "2"]%char < 2 ^ 53)%Z)
  /\ ratelimit (wf (snd (on_response (first_request "sites")
                           (json_response 200 (Some "42") (PJson (JObj [])))
                           (first_fetch "sites"))))
     = JNum 42%Q.
Proof.
  split; [split; [discriminate | split; reflexivity]|].
  destruct (ratelimit_is_Number_of_header_or_zero (first_fetch "sites")
              (first_request "sites")
              (json_response 200 (Some "42") (PJson (JObj []))))
    as (_ & _ & _ & _ & H).
  destruct (H ["4"; "2"]%char) as [E _];
    [discriminate | reflexivity | reflexivity | reflexivity | exact E].
Defined.

(** C6 as stated fails: a remaining-quota header that reads [-5] leaves
    a negative [ratelimit]. *)
Lemma ratelimit_can_be_negative :
  exists q,
    ratelimit (wf (snd (on_response (first_request "sites")
                          (json_response 200 (Some "-5") (PJson (JObj [])))
                          (first_fetch "sites"))))
    = JNum q
    /\ (q < 0)%Q.
Proof. exists (-5)%Q. split; reflexivity. Qed.

Lemma decode_spec response s :
  decode response s
  = (Ok (List.length (promises s)),
     set_decoding (fun l => l ++ [(List.length (promises s), decoded response)])
       (set_promises (fun l => l ++ [fresh_cell]) s)).
Proof. reflexivity. Qed.

Lemma list_update_twice {A} n (f g : A -> A) (l : list A) :
  list_update n f (list_update n g l) = list_update n (fun a => f (g a)) l.
Proof.
  revert n. induction l as [|x l IH]; intros [|n]; simpl; try reflexivity.
  now rewrite IH.
Qed.

(** Rejecting a pending promise through its own reject function. *)
Lemma reject_fn_pending p e s :
  p < List.length (promises s) ->
  pstatus (cell p s) = Pending -> alreadyResolved (cell p s) = false ->
  reject_fn p e s
  = (Ok tt,
     set_microtasks
       (fun q => q ++ map (fun r => PromiseReactionJob r true e)
                          (reactions (cell p s)))
       (set_promises
          (list_update p (fun _ => {| pstatus := Rejected e;
                                      alreadyResolved := true;
                                      reactions := [] |})) s)).
Proof.
  intros Hp Hst Hr.
  unfold reject_fn, bind, get. rewrite Hr.
  unfold mark_resolved, update_cell, modify, settle, bind, get, enqueue_jobs.
  unfold cell in *. cbn.
  rewrite nth_list_update_eq by lia. cbn. rewrite Hst.
  unfold modify, set_promises, set_microtasks. cbn.
  rewrite list_update_twice. reflexivity.
Qed.

Lemma cell_alloc_lt p s c :
  p < List.length (promises s) ->
  cell p (set_promises (fun l => l ++ [c]) s) = cell p s.
Proof. intro H. unfold cell. simpl. now rewrite app_nth1. Qed.

(** **** C2 *)

(** C2, on the code.  When the response has a status above 299, the
    callback of [request] calls [request.reject] with the promise that
    [response.json()] (or [response.text()]) returns: the handle is
    rejected at once, its reason is that promise, still pending, and not
    the decoded body, which only arrives later as the value of that
    promise. *)
Theorem upstream_rejection_reason_is_a_pending_promise :
  forall s req response,
    (status response > 299)%Z ->
    handle req < List.length (promises s) ->
    pstatus (cell (handle req) s) = Pending ->
    alreadyResolved (cell (handle req) s) = false ->
    let s' := snd (on_response req response s) in
    let body_promise := List.length (promises s) in
    pstatus (cell (handle req) s') = Rejected (VPromise body_promise)
    /\ pstatus (cell body_promise s') = Pending
    /\ decoding s' = decoding s ++ [(body_promise, decoded response)]
    /\ (forall v, decoded response = inl v ->
                  Rejected (VPromise body_promise) <> Rejected v).
Proof.
  intros s req response Hst Hh Hp Hr s' d.
  assert (Hgt : (status response >? 299)%Z = true) by (apply Z.gtb_lt; lia).
  assert (E : promises s' =
              list_update (handle req)
                (fun c => {| pstatus := Rejected (VPromise d);
                             alreadyResolved := true;
                             reactions := [] |}) (promises s)
              ++ [fresh_cell]
              /\ decoding s' = decoding s ++ [(d, decoded response)]).
  { subst s' d.
    assert (E :
      on_response req response s
      = bind (reject_fn (handle req) (VPromise (List.length (promises s))))
          (fun _ =>
             bind get (fun s1 =>
               match queue (wf s1) with
               | [] => ret VUndefined
               | _ :: _ =>
                   bind (setTimeout (pacing_delay (ratelimit (wf s1))))
                        (fun _ => ret VUndefined)
               end))
          (set_decoding
             (fun l => l ++ [(List.length (promises s), decoded response)])
             (set_promises (fun l => l ++ [fresh_cell])
                (set_console
                   (fun l => l ++ [LogErrorStatus (status response)
                                     (statusText response)])
                   (set_console (fun l => l ++ [LogErrorRequest req])
                      (set_wf (with_ratelimit
                                 (or_zero (Number (x_ratelimit_remaining
                                                     response))))
                         (set_wf (with_isFetching false) s))))))).
    { unfold on_response. rewrite Hgt. reflexivity. }
    rewrite E. unfold bind.
    rewrite reject_fn_pending;
      [|simpl; rewrite length_app; simpl; lia
       |unfold cell in *; simpl; rewrite app_nth1 by lia; exact Hp
       |unfold cell in *; simpl; rewrite app_nth1 by lia; exact Hr].
    unfold bind, get. cbn.
    destruct (queue (wf s)); cbn;
      (split; [|reflexivity]); now rewrite list_update_app_lt by lia. }
  destruct E as [Ep Ed]. unfold cell. rewrite Ep.
  split; [|split; [|split]].
  - rewrite app_nth1 by (rewrite length_list_update; lia).
    now rewrite nth_list_update_eq by lia.
  - subst d. rewrite <- (length_list_update (handle req)
      (fun c => {| pstatus := Rejected (VPromise (List.length (promises s)));
                   alreadyResolved := true; reactions := [] |}) (promises s))
      at 1.
    now rewrite nth_app_length.
  - exact Ed.
  - intros v Hv Heq. injection Heq as <-.
    unfold decoded in Hv.
    destruct (match content_type response with Some _ => _ | None => _ end);
      [destruct (body_json response) as [[]|]|]; discriminate.
Qed.

Lemma upstream_rejection_witness :
  let s := first_fetch "collections/c/items" in
  let req := first_request "collections/c/items" in
  let response := json_response 400 (Some "59") validation_error in
  ((status response > 299)%Z
   /\ handle req < List.length (promises s)
   /\ pstatus (cell (handle req) s) = Pending
   /\ alreadyResolved (cell (handle req) s) = false)
  /\ pstatus (cell (handle req) (snd (on_response req response s)))
     = Rejected (VPromise 3)
  /\ decoded response = inl (value_of_payload validation_error).
Proof.
  intros s req response.
  assert (H1 : (status response > 299)%Z) by reflexivity.
  assert (H2 : handle req < List.length (promises s)) by (vm_compute; lia).
  assert (H3 : pstatus (cell (handle req) s) = Pending) by reflexivity.
  assert (H4 : alreadyResolved (cell (handle req) s) = false) by reflexivity.
  split; [repeat split; assumption|].
  split; [|reflexivity].
  exact (proj1 (upstream_rejection_reason_is_a_pending_promise
                  s req response H1 H2 H3 H4)).
Defined.

(** **** C1 *)

(** C1, on the code.  When the exchange in flight fails (the promise of
    the global [fetch] rejects), nothing is waiting for that failure:
    [isFetching] stays set and no exchange is under way any more, and
    this remains so whatever happens next (events, microtasks, further
    calls).  No exchange is ever started again: there is no retry, and
    every later call stays in the queue. *)
Theorem transport_failure_stalls_the_dispatcher :
  forall s n msg waiting s',
    reachable s ->
    nth_error (inflight s) n = Some waiting ->
    steps (exec (occur (EvTransportFailure n msg)) s) s' ->
    exchanged s' = exchanged s
    /\ isFetching (wf s') = true
    /\ inflight s' = []
    /\ arrived s' = 0.
Proof.
  intros s n msg waiting s' Hr Hn Hs.
  pose proof (stalled_after_failure s n msg waiting
                (single_flight_reachable s Hr) Hn) as H0.
  destruct (stalled_steps _ _ _ Hs H0) as (_ & Hf & Hb & Hx).
  destruct (busy_0 s' Hb). auto.
Qed.

Lemma first_fetch_reachable endpoint : reachable (first_fetch endpoint).
Proof.
  exists "token", ENGLISH. unfold first_fetch.
  apply steps_one, (step_call (CallFetch (inr endpoint))).
Qed.

(** The failing input of C1: the first call of a new connection, whose
    exchange fails.  After that turn of the event loop the call's handle
    (promise 0) is still pending and unresolved, the promise made by
    [then] is rejected with the transport error and nobody listens to
    it, and a second call is queued without being sent. *)
Lemma transport_failure_witness :
  let s := first_fetch "collections/c/items" in
  exists failed later,
    turn 10 (Event (EvTransportFailure 0 "ECONNRESET")) s = Some failed
    /\ turn 10 (Call (CallFetch (inr "sites"))) failed = Some later
    /\ (reachable s
        /\ nth_error (inflight s) 0
           = Some {| on_fulfilled :=
                       HKont (KResponse (first_request "collections/c/items"));
                     on_rejected := HNone; capability := 2 |}
        /\ steps (exec (occur (EvTransportFailure 0 "ECONNRESET")) s) later)
    /\ (exchanged later = exchanged s
        /\ isFetching (wf later) = true
        /\ inflight later = []
        /\ arrived later = 0)
    /\ cell 0 failed = fresh_cell
    /\ pstatus (cell 2 failed) = Rejected (VTransportError "ECONNRESET")
    /\ reactions (cell 2 failed) = []
    /\ map (fun r => endpoint (options r)) (queue (wf later)) = ["sites"]
    /\ cell 0 later = fresh_cell.
Proof.
  intro s.
  evaluate (turn 10 (Event (EvTransportFailure 0 "ECONNRESET")) s) E1.
  match type of E1 with _ = Some ?failed =>
    evaluate (turn 10 (Call (CallFetch (inr "sites"))) failed) E2
  end.
  match type of E2 with turn _ _ ?failed = Some ?later =>
    exists failed, later
  end.
  assert (H1 : reachable s) by apply first_fetch_reachable.
  assert (H2 : nth_error (inflight s) 0
               = Some {| on_fulfilled :=
                           HKont (KResponse
                                    (first_request "collections/c/items"));
                         on_rejected := HNone; capability := 2 |})
    by reflexivity.
  split; [exact E1|]. split; [exact E2|].
  match type of E2 with _ = Some ?later =>
    assert (H3 : steps (exec (occur (EvTransportFailure 0 "ECONNRESET")) s)
                       later)
      by (eapply steps_trans; [eapply drain_steps, E1 | eapply turn_steps, E2])
  end.
  split; [repeat split; assumption|].
  split; [exact (transport_failure_stalls_the_dispatcher s 0 "ECONNRESET" _
                   _ H1 H2 H3)|].
  vm_compute. repeat split.
Defined.

(** *** Running a script, one turn at a time *)

Lemma run_cons fuel a rest s s1 R :
  turn fuel a s = Some s1 -> run fuel rest s1 = R -> run fuel (a :: rest) s = R.
Proof. intros H1 H2. simpl. now rewrite H1. Qed.

(** The callback of [request] sees of a successful response its
    remaining-quota header and its decoded body, nothing else. *)
Lemma on_response_successful req r p s :
  successful r p ->
  on_response req r s
  = on_response req (json_response 200 (x_ratelimit_remaining r) p) s.
Proof.
  intros [Hst Hd]. unfold on_response.
  assert (E : (status r >? 299)%Z = false)
    by (rewrite Z.gtb_ltb; apply Z.ltb_ge; lia).
  rewrite E. simpl.
  unfold decode. rewrite Hd. reflexivity.
Qed.

Lemma turn_response_successful fuel n r p s waiting req :
  successful r p ->
  microtasks s = [] ->
  nth_error (inflight s) n = Some waiting ->
  on_fulfilled waiting = HKont (KResponse req) ->
  turn fuel (Event (EvResponse n r)) s
  = turn fuel (Event (EvResponse n (json_response 200 (x_ratelimit_remaining r) p)))
      s.
Proof.
  intros Hs Hm Hn Hw. unfold turn, begin, exec, occur, bind, get.
  rewrite Hn. simpl.
  destruct fuel as [|fuel]; simpl; unfold microtask; simpl; rewrite Hm; simpl;
    [reflexivity|].
  unfold exec. rewrite Hw. simpl.
  now rewrite (on_response_successful req r p _ Hs).
Qed.

Lemma turn_begin fuel a s s0 R :
  begin a s = s0 -> drain fuel s0 = R -> turn fuel a s = R.
Proof. intros <- H. exact H. Qed.

Lemma drain_step fuel s s' R :
  microtask s = Some s' -> drain fuel s' = R -> drain (S fuel) s = R.
Proof. intros H1 H2. simpl. now rewrite H1. Qed.

Lemma drain_done fuel s : microtask s = None -> drain fuel s = Some s.
Proof. intro H. destruct fuel; simpl; now rewrite H. Qed.

Lemma createItemAllLocales_updates_found c d created mainItem s :
  find_main (PRIMARY_LOCALE (wf s)) created = mainItem ->
  createItemAllLocales_updates c d (VBulk created) s
  = createItemAllLocales_found c d mainItem s.
Proof. intros <-. reflexivity. Qed.

(** Evaluation leaves the arithmetic on the remaining-quota header and
    the objects built from item data alone, and stops at the search for
    the anchor item, which a hypothesis settles. *)
(** The callback of [request] on a response of which the status class
    and the decoded body are known. *)
Lemma on_response_upstream_eq req r outcome s :
  (status r > 299)%Z -> decoded r = outcome ->
  on_response req r s
  = on_response_upstream req (status r) (statusText r)
      (x_ratelimit_remaining r) outcome s.
Proof.
  intros Hs Hd. unfold on_response, on_response_upstream, decode.
  replace (status r >? 299)%Z with true by (symmetry; rewrite Z.gtb_ltb; apply Z.ltb_lt; lia).
  rewrite Hd. reflexivity.
Qed.

Lemma on_response_ok_eq req r outcome s :
  (status r <= 299)%Z -> decoded r = outcome ->
  on_response req r s
  = on_response_ok req (x_ratelimit_remaining r) outcome s.
Proof.
  intros Hs Hd. unfold on_response, on_response_ok, decode.
  replace (status r >? 299)%Z with false
    by (symmetry; rewrite Z.gtb_ltb; apply Z.ltb_ge; lia).
  rewrite Hd. reflexivity.
Qed.

(** The callback of [fetchAllItems] for a known number of further
    pages. *)
Lemma fetchAllItems_pages_further c r further s :
  Z.to_nat (ceil_div_100 (pg_total (pagination r)) - 1) = further ->
  fetchAllItems_pages c (VGetItemsResponse r) s
  = fetchAllItems_further c r further s.
Proof. intros <-. reflexivity. Qed.

(** A decoded body is never a promise, so resolving with it settles at
    once. *)
Lemma decoded_not_promise r v : decoded r = inl v -> forall q, v <> VPromise q.
Proof.
  unfold decoded. intros H q ->.
  destruct (content_type r) as [ct|];
    [destruct (includes _ ct); [destruct (body_json r) as [[]|]|]|];
    discriminate.
Qed.

Lemma resolve_with_value p v :
  (forall q, v <> VPromise q) -> resolve_with p v = settle p false v.
Proof. intro H. destruct v; try reflexivity. now destruct (H p0). Qed.

(** Evaluation of a step of the machine.  The numeric functions and
    the serialisers are left folded: their arguments are symbolic. *)
Ltac machine_eval :=
  lazy -[Number or_zero pacing_delay find_main js_of_PartialFieldData
         js_of_FieldData js_of_optional_locale].

(** The same when the outcome of one callback is known from a
    hypothesis only: the callback is left folded, rewritten with the
    hypothesis, and the evaluation goes on. *)
Ltac eval_response :=
  lazy -[Number or_zero pacing_delay find_main js_of_PartialFieldData
         js_of_FieldData js_of_optional_locale on_response];
  first [ erewrite on_response_upstream_eq by eassumption
        | erewrite on_response_ok_eq by eassumption ];
  machine_eval.

Ltac eval_updates :=
  lazy -[Number or_zero pacing_delay find_main js_of_PartialFieldData
         js_of_FieldData js_of_optional_locale createItemAllLocales_updates];
  erewrite createItemAllLocales_updates_found by eassumption;
  machine_eval.

Ltac eval_pages :=
  lazy -[Number or_zero pacing_delay find_main js_of_PartialFieldData
         js_of_FieldData js_of_optional_locale fetchAllItems_pages];
  erewrite fetchAllItems_pages_further by eassumption;
  machine_eval.

Ltac eval_resolution :=
  lazy -[Number or_zero pacing_delay find_main js_of_PartialFieldData
         js_of_FieldData js_of_optional_locale resolve_with];
  repeat match goal with
         | H : forall q, ?v <> VPromise q |- context [resolve_with ?p ?v] =>
             rewrite (resolve_with_value p v H)
         end;
  machine_eval.

Ltac eval_normalize :=
  lazy -[Number or_zero pacing_delay find_main js_of_PartialFieldData
         js_of_FieldData js_of_optional_locale resolve_with
         fetchItem_normalize fetchLocales_pick];
  match goal with
  | H : fetchItem_normalize ?x = ret ?v |- context [fetchItem_normalize ?x] =>
      rewrite H
  | H : fetchLocales_pick ?x = ret ?v |- context [fetchLocales_pick ?x] =>
      rewrite H
  end;
  eval_resolution.

(** The handler and the value of the oldest microtask decide which of
    them applies. *)
Ltac settle_microtask :=
  lazymatch goal with
  | |- microtask ?s = _ =>
      let j :=
        eval lazy -[Number or_zero pacing_delay find_main
                    js_of_PartialFieldData js_of_FieldData
                    js_of_optional_locale]
        in (match microtasks s with
            | PromiseReactionJob r rejected v :: _ =>
                Some (if rejected then on_rejected r else on_fulfilled r, v)
            | _ => None
            end) in
      lazymatch j with
      | Some (HKont (KResponse _), VResponse ?r) =>
          tryif is_var r then eval_response else machine_eval
      | Some (HKont (KCreateItemAllLocales _ _), VBulk _) =>
          lazymatch goal with
          | H : find_main _ _ = _ |- _ => eval_updates
          | _ => machine_eval
          end
      | Some (HKont (KFetchAllItems _), VGetItemsResponse _) =>
          lazymatch goal with
          | H : Z.to_nat (ceil_div_100 _ - 1) = _ |- _ => eval_pages
          | _ => machine_eval
          end
      | Some (HKont KFetchItem, _) =>
          lazymatch goal with
          | H : fetchItem_normalize _ = ret _ |- _ => eval_normalize
          | _ => machine_eval
          end
      | Some (HKont KFetchLocales, _) =>
          lazymatch goal with
          | H : fetchLocales_pick _ = ret _ |- _ => eval_normalize
          | _ => machine_eval
          end
      | Some (HAdoptResolve _, ?v) =>
          tryif is_var v then eval_resolution else machine_eval
      | _ => machine_eval
      end
  end;
  reflexivity.

Ltac settle_goal := machine_eval; reflexivity.

Ltac finish_turn :=
  eapply turn_begin; [settle_goal|];
  repeat (eapply drain_step; [settle_microtask|]);
  apply drain_done; settle_goal.

(** One turn of a script whose state is known. *)
Ltac one_turn := eapply run_cons; [finish_turn|].

(** The same for a response known to be [successful]. *)
Ltac one_response H :=
  eapply run_cons;
  [ erewrite (turn_response_successful _ _ _ _ _ _ _ H);
    [finish_turn | reflexivity | reflexivity | reflexivity]
  | ].

Ltac run_script :=
  repeat match goal with
         | H : successful ?r _ |- run _ (Event (EvResponse _ ?r) :: _) _ = _ =>
             one_response H
         | |- run _ (_ :: _) _ = _ => one_turn
         | |- run _ [] _ = _ => reflexivity
         end.

(** *** Runs of plain [fetch] calls *)

Lemma drain_quiet fuel s : microtasks s = [] -> drain fuel s = Some s.
Proof. intro H. apply drain_done. unfold microtask. now rewrite H. Qed.

Lemma fetch_busy o s :
  isFetching (wf s) = true ->
  let req := {| options := options_of o; handle := List.length (promises s) |} in
  fetch o s
  = (Ok (List.length (promises s)),
     set_promises (fun l => (l ++ [fresh_cell])
                              ++ [{| pstatus := Fulfilled VUndefined;
                                     alreadyResolved := true;
                                     reactions := [] |}])
       (set_submitted (fun l => l ++ [req])
          (set_wf (with_queue (fun q => q ++ [req])) s))).
Proof.
  intros H req. subst req. unfold fetch, bind, new_promise, modify.
  cbv beta iota zeta.
  rewrite request_idle by (left; exact H).
  cbn. unfold options_of. destruct o; reflexivity.
Qed.

Lemma resolve_fn_unsettled p v s :
  p < List.length (promises s) -> cell p s = fresh_cell ->
  (forall q, v <> VPromise q) ->
  resolve_fn p v s
  = (Ok tt,
     set_promises (list_update p (fun _ => {| pstatus := Fulfilled v;
                                              alreadyResolved := true;
                                              reactions := [] |})) s).
Proof.
  intros Hp Hc Hv. unfold resolve_fn, bind, get. rewrite Hc. cbn [alreadyResolved fresh_cell].
  rewrite (resolve_with_value p v Hv).
  unfold mark_resolved, update_cell, modify, settle, bind, get, enqueue_jobs.
  unfold cell in *. cbn.
  rewrite nth_list_update_eq by lia. rewrite Hc. cbn.
  unfold modify, set_promises, set_microtasks. cbn.
  rewrite list_update_twice, app_nil_r. now destruct s.
Qed.

Lemma list_update_at {A} n (f g : A -> A) (l : list A) d :
  f (nth n l d) = g (nth n l d) -> list_update n f l = list_update n g l.
Proof.
  revert n. induction l as [|x l IH]; intros [|n] H; simpl in *;
    try reflexivity; [now rewrite H|]. f_equal. apply IH, H.
Qed.

Lemma resolve_fn_adopts p d s :
  p < List.length (promises s) -> cell p s = fresh_cell -> d <> p ->
  resolve_fn p (VPromise d) s
  = (Ok tt,
     set_microtasks (fun q => q ++ [PromiseResolveThenableJob p d])
       (set_promises (list_update p (fun _ => {| pstatus := Pending;
                                                 alreadyResolved := true;
                                                 reactions := [] |})) s)).
Proof.
  intros Hp Hc Hd. unfold resolve_fn, bind, get. rewrite Hc. cbn [alreadyResolved fresh_cell].
  unfold mark_resolved, update_cell, modify, resolve_with.
  replace (Nat.eqb d p) with false by (symmetry; apply Nat.eqb_neq; exact Hd).
  unfold enqueue_jobs, modify. cbn. unfold set_microtasks, set_promises. cbn.
  do 2 f_equal.
  apply (list_update_at _ _ _ _ fresh_cell). unfold cell in Hc. now rewrite Hc.
Qed.

Lemma reject_fn_unsettled p e s :
  p < List.length (promises s) -> cell p s = fresh_cell ->
  reject_fn p e s
  = (Ok tt,
     set_promises (list_update p (fun _ => {| pstatus := Rejected e;
                                              alreadyResolved := true;
                                              reactions := [] |})) s).
Proof.
  intros Hp Hc. rewrite reject_fn_pending by (try rewrite Hc; auto).
  rewrite Hc. cbn. unfold set_microtasks. cbn. rewrite app_nil_r.
  now destruct s.
Qed.

(** *** Promises left alone *)

Lemma frame_refl touched s : frame touched s s.
Proof. split; auto. Qed.

Lemma frame_trans touched s1 s2 s3 :
  frame touched s1 s2 -> frame touched s2 s3 -> frame touched s1 s3.
Proof.
  intros [L1 C1] [L2 C2]. split; [lia|].
  intros q Hq Hn. rewrite C2 by (auto; lia). now apply C1.
Qed.

Lemma frame_promises touched s s' :
  promises s' = promises s -> frame touched s s'.
Proof. intro H. unfold frame, cell. rewrite H. auto. Qed.

Lemma frame_app touched s l :
  frame touched s (set_promises (fun ps => ps ++ l) s).
Proof.
  unfold frame, cell. cbn. rewrite length_app. split; [lia|].
  intros q Hq _. now rewrite app_nth1.
Qed.

Lemma frame_update p f s :
  frame [p] s (set_promises (list_update p f) s).
Proof.
  unfold frame, cell. cbn. rewrite length_list_update. split; [lia|].
  intros q _ Hn. apply nth_list_update_neq. intros ->. apply Hn. now left.
Qed.

Lemma frame_weaken t1 t2 s s' :
  incl t1 t2 -> frame t1 s s' -> frame t2 s s'.
Proof. intros Hi [L C]. split; [exact L|]. intros q Hq Hn. apply C; auto. Qed.

Lemma unsettled_frame ps touched s s' :
  unsettled ps s -> frame touched s s' ->
  (forall p, In p ps -> ~ In p touched) -> unsettled ps s'.
Proof.
  intros [Hn Hf] [L C] Hd. split; [exact Hn|].
  rewrite Forall_forall in *. intros p Hp. destruct (Hf p Hp) as [Hl Hc].
  split; [lia|]. rewrite C; auto.
Qed.

Lemma unsettled_lt ps s p : unsettled ps s -> In p ps -> p < List.length (promises s).
Proof. intros [_ Hf] Hp. rewrite Forall_forall in Hf. now apply Hf. Qed.

Lemma unsettled_cell ps s p : unsettled ps s -> In p ps -> cell p s = fresh_cell.
Proof. intros [_ Hf] Hp. rewrite Forall_forall in Hf. now apply Hf. Qed.

Lemma unsettled_incl ps qs s :
  unsettled ps s -> NoDup qs -> incl qs ps -> unsettled qs s.
Proof.
  intros [_ Hf] Hn Hi. split; [exact Hn|].
  rewrite Forall_forall in *. auto.
Qed.

Lemma unsettled_snoc ps s s' n :
  unsettled ps s -> frame [] s s' ->
  List.length (promises s) <= n < List.length (promises s') ->
  cell n s' = fresh_cell ->
  unsettled (ps ++ [n]) s'.
Proof.
  intros U F Hn Hc.
  pose proof (unsettled_frame ps [] s s' U F (fun _ _ H => H)) as [N Fa].
  split.
  - apply NoDup_app; [exact N | repeat constructor; auto |].
    intros a Ha [E|[]]. subst a. pose proof (unsettled_lt ps s n U Ha). lia.
  - apply Forall_app. split; [exact Fa|]. repeat constructor; [lia | exact Hc].
Qed.


Lemma begin_response r s w rest :
  inflight s = w :: rest ->
  begin (Event (EvResponse 0 r)) s
  = set_microtasks (fun q => q ++ [PromiseReactionJob w false (VResponse r)])
      (set_inflight (list_remove 0) s).
Proof. intro H. unfold begin, exec, occur, bind, get. now rewrite H. Qed.

Lemma microtask_head s j rest :
  microtasks s = j :: rest ->
  microtask s = Some (exec (run_job j) (set_microtasks (fun _ => rest) s)).
Proof. intro H. unfold microtask. now rewrite H. Qed.

(** The callback of [request] when the handle of its request is
    unsettled. *)
Lemma on_response_unsettled req r s :
  handle req < List.length (promises s) ->
  cell (handle req) s = fresh_cell ->
  exists s',
    on_response req r s = (Ok VUndefined, s')
    /\ wf s' = with_ratelimit (or_zero (Number (x_ratelimit_remaining r)))
                 (with_isFetching false (wf s))
    /\ inflight s' = inflight s /\ submitted s' = submitted s
    /\ exchanged s' = exchanged s
    /\ timers s'
       = timers s
         ++ match queue (wf s) with
            | [] => []
            | _ :: _ =>
                [pacing_delay (or_zero (Number (x_ratelimit_remaining r)))]
            end
    /\ frame [handle req] s s'
    /\ List.length (promises s') = S (List.length (promises s))
    /\ cell (List.length (promises s)) s' = fresh_cell
    /\ (microtasks s' = microtasks s
        \/ microtasks s'
           = microtasks s
             ++ [PromiseResolveThenableJob (handle req)
                   (List.length (promises s))]).
Proof.
  intros Hh Hc. unfold on_response.
  assert (Hl : forall (f : pcell -> pcell) (l : list pcell),
             List.length (list_update (handle req) f (l ++ [fresh_cell]))
             = S (List.length l))
    by (intros; rewrite length_list_update, length_app; cbn; lia).
  assert (Hn : forall (f : pcell -> pcell),
             nth (List.length (promises s))
               (list_update (handle req) f (promises s ++ [fresh_cell]))
               fresh_cell = fresh_cell)
    by (intros; rewrite nth_list_update_neq by lia; apply nth_app_length).
  assert (Hf : forall (f : pcell -> pcell) q,
             q < List.length (promises s) -> ~ In q [handle req] ->
             nth q (list_update (handle req) f (promises s ++ [fresh_cell]))
               fresh_cell = nth q (promises s) fresh_cell).
  { intros f q Hq Hi. rewrite nth_list_update_neq, app_nth1; auto.
    intro E. apply Hi. left. exact E. }
  destruct (status r >? 299)%Z eqn:Es.
  - cbv beta iota zeta delta [decode new_promise bind modify console_log get
                               ret setTimeout].
    rewrite reject_fn_unsettled.
    2:{ cbn. rewrite length_app. cbn. lia. }
    2:{ unfold cell in *. cbn. rewrite app_nth1 by lia. apply Hc. }
    cbv beta iota.
    cbn [queue wf set_promises set_decoding set_console set_wf set_timers
         with_ratelimit with_isFetching ratelimit].
    destruct (queue (wf s)) as [|q qs]; (eexists; split; [reflexivity|]);
      unfold frame, cell;
      cbn [wf inflight submitted exchanged timers microtasks promises
           set_promises set_decoding set_console set_wf set_timers];
      rewrite ?app_nil_r, Hl, Hn; repeat split; auto.
  - cbv beta iota zeta delta [decode new_promise bind modify console_log get
                               ret setTimeout].
    rewrite resolve_fn_adopts.
    2:{ cbn. rewrite length_app. cbn. lia. }
    2:{ unfold cell in *. cbn. rewrite app_nth1 by lia. apply Hc. }
    2:{ cbn. lia. }
    cbv beta iota.
    cbn [queue wf set_promises set_decoding set_console set_wf set_timers
         set_microtasks with_ratelimit with_isFetching ratelimit].
    destruct (queue (wf s)) as [|q qs]; (eexists; split; [reflexivity|]);
      unfold frame, cell;
      cbn [wf inflight submitted exchanged timers microtasks promises
           set_promises set_decoding set_console set_wf set_timers
           set_microtasks];
      rewrite ?app_nil_r, Hl, Hn; repeat split; auto.
Qed.

(** The job that adopts the promise of a body still being read. *)
Lemma thenable_job_unsettled p d s :
  d < List.length (promises s) -> cell d s = fresh_cell ->
  exists s',
    run_job (PromiseResolveThenableJob p d) s = (Ok tt, s')
    /\ wf s' = wf s /\ inflight s' = inflight s /\ submitted s' = submitted s
    /\ exchanged s' = exchanged s /\ timers s' = timers s
    /\ microtasks s' = microtasks s
    /\ frame [d] s s'.
Proof.
  intros Hd Hc. unfold run_job, perform_then.
  cbv beta iota zeta delta [new_promise bind get ret].
  replace (pstatus (cell d (set_promises (fun l => l ++ [fresh_cell]) s)))
    with Pending by (rewrite cell_alloc_lt, Hc by exact Hd; reflexivity).
  cbv beta iota zeta delta [update_cell modify].
  eexists. split; [reflexivity|].
  unfold frame, cell. cbn [wf inflight submitted exchanged timers microtasks
                           promises set_promises].
  rewrite length_list_update, length_app. cbn [List.length].
  repeat split; auto; [lia|].
  intros q Hq Hn. rewrite nth_list_update_neq, app_nth1; auto.
  intro E. apply Hn. left. exact E.
Qed.

Lemma turn_response fuel tok cur c r s :
  2 <= fuel -> fetching tok cur c s ->
  exists s',
    turn fuel (Event (EvResponse 0 r)) s = Some s'
    /\ paused tok s'
    /\ queue (wf s') = queue (wf s)
    /\ submitted s' = submitted s
    /\ exchanged s' = exchanged s.
Proof.
  intros Hfuel (Hm & Ht & Hf & Hi & Hu & Ho).
  destruct fuel as [|[|fuel]]; try lia.
  assert (Hc : c < List.length (promises s) /\ cell c s = fresh_cell).
  { split; [eapply unsettled_lt | eapply unsettled_cell]; eauto; now left. }
  assert (Hh : handle cur < List.length (promises s)
               /\ cell (handle cur) s = fresh_cell).
  { split; [eapply unsettled_lt | eapply unsettled_cell]; eauto;
      right; now left. }
  assert (Hne : handle cur <> c).
  { destruct Hu as [N _]. inversion N as [|? ? N1 _]. subst.
    intros E. apply N1. left. auto. }
  set (s0 := set_microtasks (fun _ => [])
               (set_microtasks
                  (fun q => q ++ [PromiseReactionJob
                                    {| on_fulfilled := HKont (KResponse cur);
                                       on_rejected := HNone;
                                       capability := c |} false (VResponse r)])
                  (set_inflight (list_remove 0) s))).
  destruct (on_response_unsettled cur r s0 (proj1 Hh) (proj2 Hh))
    as (s1 & E1 & Hw1 & Hi1 & Hs1 & Hx1 & Ht1 & Hf1 & Hl1 & Hd1 & Hm1).
  change (promises s0) with (promises s) in Hl1, Hd1, Hm1.
  change (microtasks s0) with (@nil job) in Hm1. cbn [app] in Hm1.
  assert (Hc1 : c < List.length (promises s1) /\ cell c s1 = fresh_cell).
  { destruct Hf1 as [L1 C1]. split; [cbn in L1; lia|].
    rewrite C1; [apply Hc | apply Hc |].
    intros [E|[]]. auto. }
  pose proof (resolve_fn_unsettled c VUndefined s1 (proj1 Hc1) (proj2 Hc1)
                ltac:(discriminate)) as E2.
  set (settled := list_update c _) in E2.
  set (s2 := set_promises settled s1) in *.
  assert (B : begin (Event (EvResponse 0 r)) s
              = set_microtasks
                  (fun q => q ++ [PromiseReactionJob
                                    {| on_fulfilled := HKont (KResponse cur);
                                       on_rejected := HNone;
                                       capability := c |} false (VResponse r)])
                  (set_inflight (list_remove 0) s))
    by (apply begin_response with (rest := []); exact Hi).
  assert (J : microtask (begin (Event (EvResponse 0 r)) s) = Some s2).
  { rewrite B. erewrite microtask_head by (cbn; rewrite Hm; reflexivity).
    fold s0. unfold exec, run_job.
    cbn [on_fulfilled run_handler run_kont capability].
    now rewrite E1, E2. }
  assert (F01 : frame [handle cur; c; List.length (promises s)] s s1).
  { apply (frame_weaken [handle cur]); [|exact Hf1].
    intros x [<-|[]]. now left. }
  assert (F02 : frame [handle cur; c; List.length (promises s)] s s2).
  { apply (frame_trans _ s s1 s2 F01).
    apply (frame_weaken [c]); [|apply frame_update].
    intros x [<-|[]]. right. now left. }
  assert (Q : forall s3, wf s3 = wf s1 -> inflight s3 = inflight s1 ->
                submitted s3 = submitted s1 -> exchanged s3 = exchanged s1 ->
                timers s3 = timers s1 -> microtasks s3 = [] ->
                frame [handle cur; c; List.length (promises s)] s s3 ->
                paused tok s3 /\ queue (wf s3) = queue (wf s)
                /\ submitted s3 = submitted s /\ exchanged s3 = exchanged s).
  { intros s3 Hw3 Hi3 Hs3 Hx3 Ht3 Hm3 Hf3.
    assert (Hq : queue (wf s3) = queue (wf s)) by (rewrite Hw3, Hw1; reflexivity).
    split; [|rewrite Hs3, Hx3, Hs1, Hx1; auto].
    unfold paused.
    split; [exact Hm3|].
    split; [rewrite Hw3, Hw1; reflexivity|].
    split; [rewrite Hi3, Hi1; cbn; rewrite Hi; reflexivity|].
    split; [rewrite Hq, Ht3, Ht1; cbn; rewrite Ht;
            now destruct (queue (wf s))|].
    rewrite Hq. split.
    - eapply unsettled_frame; [|exact Hf3|].
      + eapply unsettled_incl; [exact Hu | |].
        * destruct Hu as [N _]. inversion N as [|? ? _ N']. subst.
          now inversion N'.
        * intros x Hx. right. right. exact Hx.
      + intros p Hp' [E|[E|[E|[]]]]; subst p.
        * destruct Hu as [N _]. inversion N as [|? ? _ N']. subst.
          inversion N' as [|? ? N1 _]. subst. contradiction.
        * destruct Hu as [N _]. inversion N as [|? ? N1 _]. subst.
          apply N1. right. exact Hp'.
        * assert (List.length (promises s) < List.length (promises s)).
          { eapply unsettled_lt; [exact Hu|]. right. right. exact Hp'. }
          lia.
    - destruct Ho as (Hk & Hp & He). unfold orderly.
      rewrite Hq, Hw3, Hw1, Hs3, Hx3, Hs1, Hx1. cbn. auto. }
  destruct Hm1 as [Hm1|Hm1].
  - exists s2. split.
    + unfold turn. eapply drain_step; [exact J|]. apply drain_quiet.
      subst s2. cbn. rewrite Hm1. reflexivity.
    + apply Q; auto; subst s2; cbn; rewrite Hm1; reflexivity.
  - destruct (thenable_job_unsettled (handle cur) (List.length (promises s))
                (set_microtasks (fun _ => []) s2)) as
      (s3 & E3 & Hw3 & Hi3 & Hs3 & Hx3 & Ht3 & Hm3 & Hf3).
    { subst s2. cbn. subst settled. rewrite length_list_update, Hl1. cbn. lia. }
    { subst s2. unfold cell in *. cbn. subst settled.
      rewrite nth_list_update_neq by lia. exact Hd1. }
    exists s3. split.
    + unfold turn. eapply drain_step; [exact J|].
      eapply drain_step.
      * erewrite microtask_head by (subst s2; cbn; rewrite Hm1; reflexivity).
        unfold exec. rewrite E3. reflexivity.
      * apply drain_quiet. rewrite Hm3. reflexivity.
    + apply Q; auto.
      apply (frame_trans _ s s2 s3 F02).
      apply (frame_weaken [List.length (promises s)]).
      * intros x [<-|[]]. right. right. now left.
      * apply (frame_trans _ s2 (set_microtasks (fun _ => []) s2) s3);
          [apply frame_promises; reflexivity | exact Hf3].
Qed.

(** A dispatch cycle that sends: no call in flight, a request waiting. *)
Lemma request_sends s q qs :
  isFetching (wf s) = false -> queue (wf s) = q :: qs ->
  exists s',
    request s = (Ok (List.length (promises s)), s')
    /\ wf s' = with_isFetching true (with_queue (fun _ => qs) (wf s))
    /\ inflight s'
       = inflight s ++ [{| on_fulfilled := HKont (KResponse q);
                           on_rejected := HNone;
                           capability := S (List.length (promises s)) |}]
    /\ exchanged s' = exchanged s ++ [exchange_of (token (wf s)) q]
    /\ submitted s' = submitted s /\ timers s' = timers s
    /\ microtasks s' = microtasks s
    /\ frame [] s s'
    /\ List.length (promises s') = S (S (List.length (promises s)))
    /\ cell (S (List.length (promises s))) s' = fresh_cell.
Proof.
  intros Hf Hq. unfold request.
  assert (B : exists s3,
             request_body (set_promises (fun l => l ++ [fresh_cell]) s)
             = (Ok VUndefined, s3)
             /\ wf s3 = with_isFetching true (with_queue (fun _ => qs) (wf s))
             /\ inflight s3
                = inflight s ++ [{| on_fulfilled := HKont (KResponse q);
                                    on_rejected := HNone;
                                    capability := S (List.length (promises s)) |}]
             /\ exchanged s3 = exchanged s ++ [exchange_of (token (wf s)) q]
             /\ submitted s3 = submitted s /\ timers s3 = timers s
             /\ microtasks s3 = microtasks s
             /\ promises s3 = (promises s ++ [fresh_cell]) ++ [fresh_cell]).
  { unfold request_body, bind, get. cbn [set_promises wf promises].
    rewrite Hf, Hq. eexists. split; [reflexivity|].
    cbn. repeat split.
    do 3 f_equal. rewrite length_app. cbn. lia. }
  destruct B as (s3 & B & Hw & Hi & Hx & Hs & Ht & Hm & Hp).
  rewrite (async_ok _ _ _ _ B). unfold exec.
  rewrite resolve_fn_unsettled.
  2:{ rewrite Hp, !length_app. cbn. lia. }
  2:{ unfold cell. rewrite Hp, app_nth1 by (rewrite length_app; cbn; lia).
      apply nth_app_length. }
  2:{ discriminate. }
  eexists. split; [reflexivity|].
  unfold frame, cell.
  cbn [snd wf inflight submitted exchanged timers microtasks promises
       set_promises].
  rewrite length_list_update, Hp, !length_app. cbn [List.length].
  repeat split; auto; try lia.
  - intros p Hlt _. rewrite nth_list_update_neq by lia.
    rewrite <- app_assoc. now rewrite app_nth1.
  - rewrite nth_list_update_neq by lia.
    replace (S (List.length (promises s)))
      with (List.length (promises s ++ [fresh_cell]))
      by (rewrite length_app; cbn; lia).
    apply nth_app_length.
Qed.

Lemma turn_timer fuel tok s q qs :
  paused tok s -> queue (wf s) = q :: qs ->
  exists s' c,
    turn fuel (Event (EvTimer 0)) s = Some s'
    /\ fetching tok q c s'
    /\ queue (wf s') = qs
    /\ submitted s' = submitted s
    /\ exchanged s' = exchanged s ++ [exchange_of tok q].
Proof.
  intros (Hm & Hf & Hi & Ht & Hu & Hk & Hp & He) Hq.
  rewrite Hq in Ht, Hu.
  destruct (timers s) as [|t [|t' ts]] eqn:Et; try discriminate.
  set (s0 := set_timers (list_remove 0) s).
  destruct (request_sends s0 q qs Hf Hq)
    as (s1 & E1 & Hw1 & Hi1 & Hx1 & Hs1 & Ht1 & Hm1 & Hf1 & Hl1 & Hc1).
  change (promises s0) with (promises s) in *.
  exists s1, (S (List.length (promises s))).
  assert (B : begin (Event (EvTimer 0)) s = s1).
  { unfold begin, exec, occur, bind, get, modify. rewrite Et. cbn [nth_error].
    fold s0. now rewrite E1. }
  split; [unfold turn; rewrite B; apply drain_quiet; now rewrite Hm1|].
  split; [|split; [now rewrite Hw1 | split; [exact Hs1|]]].
  - unfold fetching.
    split; [now rewrite Hm1|].
    split; [rewrite Ht1; unfold s0; cbn; now rewrite Et|].
    split; [now rewrite Hw1|].
    split; [rewrite Hi1; unfold s0; cbn; now rewrite Hi|].
    split.
    + rewrite Hw1. cbn [queue with_isFetching with_queue].
      cbn [map] in Hu.
      assert (U1 : unsettled (handle q :: map handle qs) s1)
        by (eapply unsettled_frame; [exact Hu | exact Hf1 | auto]).
      destruct U1 as [N F]. split.
      * constructor; [|exact N]. intro Hin.
        pose proof (unsettled_lt _ _ _ Hu Hin). lia.
      * constructor; [|exact F]. split; [lia | exact Hc1].
    + unfold orderly. rewrite Hw1, Hs1, Hx1.
      cbn [queue token with_isFetching with_queue]. unfold s0. cbn.
      rewrite Hk. split; [reflexivity|].
      rewrite !map_app. cbn. split.
      * rewrite Hp, Hq, <- app_assoc. reflexivity.
      * rewrite <- He. reflexivity.
  - rewrite Hx1. unfold s0. cbn. now rewrite Hk.
Qed.

Lemma turn_timer_none fuel s :
  microtasks s = [] -> timers s = [] ->
  turn fuel (Event (EvTimer 0)) s = Some s.
Proof.
  intros Hm Ht. unfold turn, begin, exec, occur, bind, get. rewrite Ht.
  cbn. now apply drain_quiet.
Qed.

Lemma turn_fetch_busy fuel tok cur c o s :
  fetching tok cur c s ->
  exists s' req,
    turn fuel (Call (CallFetch o)) s = Some s'
    /\ fetching tok cur c s'
    /\ options req = options_of o
    /\ queue (wf s') = queue (wf s) ++ [req]
    /\ submitted s' = submitted s ++ [req]
    /\ exchanged s' = exchanged s.
Proof.
  intros (Hm & Ht & Hf & Hi & Hu & Hk & Hp & He).
  pose proof (fetch_busy o s Hf) as E. cbv zeta in E.
  set (req := {| options := options_of o;
                 handle := List.length (promises s) |}) in *.
  match type of E with _ = (_, ?x) => set (s' := x) in * end.
  exists s', req.
  assert (F : frame [] s s').
  { subst s'. unfold frame, cell. cbn. rewrite !length_app. cbn.
    split; [lia|]. intros q Hq _. rewrite <- app_assoc. now rewrite app_nth1. }
  split.
  { unfold turn, begin, perform, exec. rewrite E. now apply drain_quiet. }
  split; [|now repeat split].
  unfold fetching. repeat (split; [assumption|]).
  split.
  - subst s'. cbn [wf set_promises set_submitted set_wf queue with_queue].
    rewrite map_app. cbn [map handle req].
    apply (unsettled_snoc (c :: handle cur :: map handle (queue (wf s))) s).
    + exact Hu.
    + exact F.
    + cbn. rewrite !length_app. cbn. lia.
    + unfold cell. cbn. rewrite app_nth1 by (rewrite length_app; cbn; lia).
      apply nth_app_length.
  - unfold orderly. subst s'. cbn. rewrite Hp, <- app_assoc. auto.
Qed.

(** The first call on a new connection is sent at once. *)
Lemma turn_fetch_first fuel tok primaryLocale o :
  exists s req c,
    turn fuel (Call (CallFetch o)) (new_WebflowConnection tok primaryLocale)
    = Some s
    /\ fetching tok req c s
    /\ options req = options_of o
    /\ queue (wf s) = []
    /\ submitted s = [req]
    /\ exchanged s = [exchange_of tok req].
Proof.
  exists (exec (fetch o) (new_WebflowConnection tok primaryLocale)),
    {| options := options_of o; handle := 0 |}, 2.
  split; [apply drain_quiet; now destruct o|].
  split; [|now destruct o].
  unfold fetching, orderly, unsettled.
  repeat split; try (now destruct o).
  - destruct o; cbn; repeat constructor; cbn; intuition lia.
  - destruct o; cbn; repeat constructor; cbn; lia.
Qed.

(** Calls made while the first exchange is on the wire only queue. *)
Lemma run_fetch_calls_busy fuel tok cur c os :
  forall s,
    fetching tok cur c s ->
    exists s' reqs,
      run fuel (fetch_calls os) s = Some s'
      /\ fetching tok cur c s'
      /\ map options reqs = map options_of os
      /\ queue (wf s') = queue (wf s) ++ reqs
      /\ submitted s' = submitted s ++ reqs
      /\ exchanged s' = exchanged s.
Proof.
  induction os as [|o os IH]; intros s H.
  - exists s, []. cbn. rewrite !app_nil_r. auto 10.
  - destruct (turn_fetch_busy fuel tok cur c o s H)
      as (s1 & req & E1 & H1 & Ho1 & Hq1 & Hs1 & Hx1).
    destruct (IH s1 H1) as (s2 & reqs & E2 & H2 & Ho2 & Hq2 & Hs2 & Hx2).
    exists s2, (req :: reqs). cbn [fetch_calls map run]. rewrite E1.
    split; [exact E2|]. split; [exact H2|].
    split; [now rewrite Ho1, Ho2|].
    rewrite Hq2, Hs2, Hx2, Hq1, Hs1, Hx1, <- !app_assoc. auto.
Qed.

(** Each response, followed by its timer, lets the next request out. *)
Lemma run_answers fuel tok rs :
  2 <= fuel ->
  forall s cur c,
    fetching tok cur c s ->
    List.length rs <= S (List.length (queue (wf s))) ->
    exists s',
      run fuel (answers rs) s = Some s'
      /\ orderly tok s'
      /\ submitted s' = submitted s
      /\ List.length (exchanged s')
         = Nat.min (List.length (exchanged s) + List.length rs)
                   (List.length (submitted s))
      /\ List.length (inflight s') <= 1.
Proof.
  intro Hfuel. induction rs as [|r rs IH]; intros s cur c H Hlen.
  - exists s. destruct H as (_ & _ & _ & Hi & _ & Ho).
    split; [reflexivity|]. split; [exact Ho|]. split; [reflexivity|].
    split; [|rewrite Hi; cbn; lia].
    destruct Ho as (_ & Hp & _). rewrite Hp, length_app, length_map.
    cbn [List.length]. lia.
  - destruct (turn_response fuel tok cur c r s Hfuel H)
      as (s1 & E1 & H1 & Hq1 & Hs1 & Hx1).
    cbn [answers flat_map app]. cbn [run]. rewrite E1.
    destruct (queue (wf s)) as [|q qs] eqn:Eq.
    + destruct rs; [|cbn in Hlen; lia].
      destruct H1 as (Hm1 & Hf1 & Hi1 & Ht1 & Hu1 & Ho1).
      rewrite Hq1 in Ht1.
      rewrite turn_timer_none
        by (auto; now destruct (timers s1)).
      exists s1. split; [reflexivity|]. split; [exact Ho1|].
      split; [exact Hs1|]. rewrite Hx1, Hi1. split; [|cbn; lia].
      destruct H as (_ & _ & _ & _ & _ & _ & Hp & _).
      rewrite Hp, Eq, app_nil_r, length_map. cbn. lia.
    + destruct (turn_timer fuel tok s1 q qs H1 Hq1)
        as (s2 & c2 & E2 & H2 & Hq2 & Hs2 & Hx2).
      rewrite E2.
      destruct (IH s2 q c2 H2) as (s3 & E3 & Ho3 & Hs3 & Hx3 & Hi3).
      { rewrite Hq2. cbn in Hlen. lia. }
      exists s3. split; [exact E3|]. split; [exact Ho3|].
      split; [now rewrite Hs3, Hs2|]. split; [|exact Hi3].
      rewrite Hx3, Hx2, Hx1, Hs2, Hs1, length_app. cbn. lia.
Qed.

Lemma run_app fuel a b : forall s s1,
  run fuel a s = Some s1 -> run fuel (a ++ b) s = run fuel b s1.
Proof.
  induction a as [|x a IH]; intros s s1 H; cbn in *.
  - now injection H as ->.
  - destruct (turn fuel x s) as [s0|]; [|discriminate]. now apply IH.
Qed.

Lemma split_at {A} (l1 l2 : list A) n :
  List.length l1 = Nat.min n (List.length (l1 ++ l2)) ->
  l1 = firstn n (l1 ++ l2) /\ l2 = skipn n (l1 ++ l2).
Proof.
  rewrite length_app. intro H.
  destruct (Nat.le_gt_cases n (List.length l1 + List.length l2)) as [L|L].
  - assert (n = List.length l1) as -> by lia.
    rewrite firstn_app, skipn_app, Nat.sub_diag, firstn_all, skipn_all.
    cbn. now rewrite app_nil_r.
  - assert (E : l2 = []) by (destruct l2; [reflexivity | cbn in H; lia]).
    subst l2. rewrite app_nil_r in *. cbn in L.
    rewrite firstn_all2, skipn_all2 by lia. auto.
Qed.

(** What a run leaves when the dispatcher has been orderly. *)
Lemma orderly_prefix tok s n :
  orderly tok s ->
  List.length (exchanged s) = Nat.min n (List.length (submitted s)) ->
  exchanged s = map (exchange_of tok) (firstn n (submitted s))
  /\ queue (wf s) = skipn n (submitted s).
Proof.
  intros (_ & Hp & He) Hl. rewrite Hp in Hl |- *.
  rewrite <- (length_map x_request) in Hl.
  destruct (split_at _ _ _ Hl) as [H1 H2].
  rewrite <- H1, <- H2. auto.
Qed.

(** On a new connection, [fetch] calls made one after the other and
    then answered one after the other are exchanged in the order they
    were made. *)
Lemma fetch_calls_in_order fuel tok primaryLocale os rs :
  2 <= fuel -> List.length rs <= List.length os ->
  exists s,
    run fuel (fetch_calls os ++ answers rs)
      (new_WebflowConnection tok primaryLocale) = Some s
    /\ map options (submitted s) = map options_of os
    /\ exchanged s
       = map (exchange_of tok) (firstn (S (List.length rs)) (submitted s))
    /\ queue (wf s) = skipn (S (List.length rs)) (submitted s)
    /\ List.length (exchanged s)
       = Nat.min (S (List.length rs)) (List.length os)
    /\ List.length (inflight s) <= 1.
Proof.
  intros Hfuel Hlen.
  destruct os as [|o os].
  - destruct rs; [|cbn in Hlen; lia].
    exists (new_WebflowConnection tok primaryLocale). cbn. auto 10.
  - destruct (turn_fetch_first fuel tok primaryLocale o)
      as (s1 & req & c & E1 & H1 & Ho1 & Hq1 & Hs1 & Hx1).
    destruct (run_fetch_calls_busy fuel tok req c os s1 H1)
      as (s2 & reqs & E2 & H2 & Ho2 & Hq2 & Hs2 & Hx2).
    destruct (run_answers fuel tok rs Hfuel s2 req c H2)
      as (s3 & E3 & Ho3 & Hs3 & Hx3 & Hi3).
    { rewrite Hq2, Hq1. cbn. rewrite <- (length_map options), Ho2, length_map.
      cbn in Hlen. lia. }
    exists s3. split.
    { cbn [fetch_calls map app run]. rewrite E1.
      change (map (fun o => Call (CallFetch o)) os) with (fetch_calls os).
      now rewrite (run_app _ _ _ _ _ E2). }
    assert (Hs : map options (submitted s3) = map options_of (o :: os))
      by (rewrite Hs3, Hs2, Hs1; cbn; now rewrite Ho1, Ho2).
    split; [exact Hs|].
    assert (L : List.length (exchanged s3)
                = Nat.min (S (List.length rs)) (List.length (submitted s3))).
    { rewrite Hx3, Hs3, Hx2, Hx1. reflexivity. }
    destruct (orderly_prefix tok s3 _ Ho3 L) as [Hx Hq].
    split; [exact Hx|]. split; [exact Hq|]. split; [|exact Hi3].
    rewrite L, <- (length_map options (submitted s3)), Hs, length_map.
    reflexivity.
Qed.

(** **** C3 *)

(** C3.  In every state the machine can reach, whatever calls were made
    and whatever the environment did:
    - the requests sent ([exchanged], in the order their exchanges were
      started) followed by the requests still queued are exactly the
      requests pushed, in the order they were pushed: the dispatcher
      sends in submission order and skips none;
    - at most one exchange is under way (on the wire, or answered with
      its callback still to run), and none while [isFetching] is false;
    - a dispatch cycle that finds [isFetching] set, or the queue empty,
      changes nothing: it only makes the settled promise every call of
      an [async] function returns.
    And the exchanges are performed: when N calls of [fetch] are made on
    a new connection and k of the exchanges are then answered, one after
    the other, each response (of any status) followed by the pacing
    timer its callback set, the run ends, the requests pushed are those
    of the N calls in the order of the calls, the exchanges started are
    those of the first k + 1 requests (of all N when k = N), in that
    order, each to the URL, with the method, the body and the token of
    its request, the other requests are still queued in their order, and
    at most one exchange is in flight. *)
Theorem dispatcher_is_fifo_and_single_flight :
  (forall s,
      reachable s ->
      submitted s = map x_request (exchanged s) ++ queue (wf s)
      /\ List.length (inflight s) + arrived s <= 1
      /\ (isFetching (wf s) = false -> inflight s = [] /\ arrived s = 0)
      /\ (isFetching (wf s) = true \/ queue (wf s) = [] ->
          request s
          = (Ok (List.length (promises s)),
             set_promises
               (fun l => l ++ [{| pstatus := Fulfilled VUndefined;
                                  alreadyResolved := true;
                                  reactions := [] |}]) s)))
  /\ (forall fuel tok primaryLocale os rs,
         2 <= fuel -> List.length rs <= List.length os ->
         exists s,
           run fuel (fetch_calls os ++ answers rs)
             (new_WebflowConnection tok primaryLocale) = Some s
           /\ map options (submitted s) = map options_of os
           /\ exchanged s
              = map (exchange_of tok)
                  (firstn (S (List.length rs)) (submitted s))
           /\ queue (wf s) = skipn (S (List.length rs)) (submitted s)
           /\ List.length (exchanged s)
              = Nat.min (S (List.length rs)) (List.length os)
           /\ List.length (inflight s) <= 1).
Proof.
  split.
  - intros s Hr.
    destruct (single_flight_reachable s Hr) as (_ & Hq & Hb & Hf).
    split; [exact Hq|]. split; [exact Hb|]. split.
    + intro H. apply busy_0, Hf, H.
    + apply request_idle.
  - intros. now apply fetch_calls_in_order.
Qed.

(** Three calls, the first answered with a 200 and the second with a
    429: the three exchanges were started in the order of the calls. *)
Lemma dispatcher_is_fifo_witness :
  (2 <= 2 /\ 2 <= 3)
  /\ exists s,
      run 2 (fetch_calls [inr "a"; inr "b"; inr "c"]
               ++ answers [json_response 200 (Some "0") (PJson (JObj []));
                           json_response 429 None validation_error])
        (new_WebflowConnection "token" ENGLISH) = Some s
      /\ map url (exchanged s)
         = [(api_base ++ "a")%string; (api_base ++ "b")%string;
            (api_base ++ "c")%string]
      /\ queue (wf s) = []
      /\ submitted s = map x_request (exchanged s) ++ queue (wf s)
      /\ List.length (inflight s) + arrived s <= 1.
Proof.
  split; [lia|].
  destruct dispatcher_is_fifo_and_single_flight as [Safe Live].
  destruct (Live 2 "token" ENGLISH [inr "a"; inr "b"; inr "c"]
              [json_response 200 (Some "0") (PJson (JObj []));
               json_response 429 None validation_error])
    as (s & E & Hs & Hx & Hq & _); [lia | cbn; lia |].
  exists s. split; [exact E|].
  destruct (Safe s (run_reachable _ _ _ _ _ E)) as (H1 & H2 & _).
  split; [|split; [|split; [exact H1 | exact H2]]].
  - rewrite Hx. destruct (submitted s) as [|[o1 h1] [|[o2 h2] [|[o3 h3] l]]];
      try discriminate Hs.
    cbn in Hs. injection Hs as -> -> -> _. reflexivity.
  - rewrite Hq. destruct (submitted s) as [|r1 [|r2 [|r3 [|r4 l]]]];
      try discriminate Hs; reflexivity.
Defined.

(* ================================================================== *)
(** * Further properties of the connection *)

(** ** Computations that never throw *)

Lemma succeeds_ret {A} (a : A) : succeeds (ret a).
Proof. intro s. now exists a. Qed.

Lemma succeeds_get : succeeds get.
Proof. intro s. now exists s. Qed.

Lemma succeeds_modify f : succeeds (modify f).
Proof. intro s. now exists tt. Qed.

Lemma succeeds_bind {A B} (m : M A) (k : A -> M B) :
  succeeds m -> (forall a, succeeds (k a)) -> succeeds (bind m k).
Proof.
  intros Hm Hk s. unfold bind. destruct (Hm s) as [a Ha].
  destruct (m s) as [[a'|e] s']; simpl in Ha; [|discriminate].
  apply Hk.
Qed.

Lemma succeeds_mapM {A B} (k : A -> M B) l :
  (forall a, succeeds (k a)) -> succeeds (mapM k l).
Proof.
  intro Hk. induction l as [|x l IH]; simpl.
  - apply succeeds_ret.
  - apply succeeds_bind; [apply Hk|]. intro y.
    apply succeeds_bind; [apply IH|]. intro ys. apply succeeds_ret.
Qed.

Lemma succeeds_async (body : M value) : succeeds (async body).
Proof. intro s. eexists. apply async_returns. Qed.

Lemma succeeds_new_promise : succeeds new_promise.
Proof. intro s. now eexists. Qed.

Create HintDb succeeds.
#[export] Hint Resolve succeeds_async succeeds_new_promise : succeeds.

Ltac succeeds_step :=
  match goal with
  | |- succeeds (bind _ _) => apply succeeds_bind; [|intro]
  | |- succeeds (ret _) => apply succeeds_ret
  | |- succeeds get => apply succeeds_get
  | |- succeeds (mapM _ _) => apply succeeds_mapM; intro
  | |- succeeds (modify _) => apply succeeds_modify
  | |- succeeds (if ?b then _ else _) => destruct b
  | |- succeeds (match ?x with _ => _ end) => destruct x
  | |- succeeds _ => solve [auto with succeeds]
  end.

Ltac succeeds_auto := repeat succeeds_step.

Lemma succeeds_resolve_fn p v : succeeds (resolve_fn p v).
Proof.
  unfold resolve_fn, resolve_with, settle, mark_resolved, update_cell,
    enqueue_jobs. succeeds_auto.
Qed.

Lemma succeeds_reject_fn p v : succeeds (reject_fn p v).
Proof.
  unfold reject_fn, settle, mark_resolved, update_cell, enqueue_jobs.
  succeeds_auto.
Qed.

Lemma succeeds_decode r : succeeds (decode r).
Proof. unfold decode. succeeds_auto. Qed.

Lemma succeeds_console_log e : succeeds (console_log e).
Proof. unfold console_log. succeeds_auto. Qed.

Lemma succeeds_fetch o : succeeds (fetch o).
Proof. intro s. eexists. apply submitted_fetch. Qed.
#[export] Hint Resolve succeeds_resolve_fn succeeds_reject_fn succeeds_decode
  succeeds_console_log succeeds_fetch : succeeds.

Lemma succeeds_perform_then p h1 h2 : succeeds (perform_then p h1 h2).
Proof.
  unfold perform_then, update_cell, enqueue_jobs. cbv zeta.
  apply succeeds_bind; [auto with succeeds|]. intro d.
  apply succeeds_bind; [apply succeeds_get|]. intro s.
  apply succeeds_bind; [|intro; apply succeeds_ret].
  destruct (pstatus (cell p s)); apply succeeds_modify.
Qed.
#[export] Hint Resolve succeeds_perform_then : succeeds.

Lemma succeeds_all_countdown r : succeeds (all_countdown r).
Proof. unfold all_countdown, update_rec. cbv zeta. succeeds_auto. Qed.
#[export] Hint Resolve succeeds_all_countdown : succeeds.

Lemma succeeds_promise_resolve v : succeeds (promise_resolve v).
Proof. unfold promise_resolve. succeeds_auto. Qed.
#[export] Hint Resolve succeeds_promise_resolve : succeeds.

Lemma succeeds_all_loop r result vs :
  forall index, succeeds (all_loop r result index vs).
Proof.
  induction vs as [|v vs IH]; intro index; cbn [all_loop]; unfold update_rec;
    succeeds_auto.
Qed.

Lemma succeeds_promise_all vs : succeeds (promise_all vs).
Proof.
  unfold promise_all. cbv zeta. pose proof succeeds_all_loop. succeeds_auto.
Qed.
#[export] Hint Resolve succeeds_promise_all : succeeds.

(** ** What a call pushes on the queue *)

Lemma timers_resolve_fn p v : keeps timers (resolve_fn p v).
Proof.
  unfold resolve_fn, resolve_with, settle, mark_resolved, update_cell,
    enqueue_jobs. keeps_auto.
Qed.

Lemma timers_reject_fn p v : keeps timers (reject_fn p v).
Proof.
  unfold reject_fn, settle, mark_resolved, update_cell, enqueue_jobs.
  keeps_auto.
Qed.

(** An [async] function pushes what its body pushes. *)
Lemma submitted_async (body : M value) s :
  submitted (snd (async body s))
  = submitted (snd (body (set_promises (fun l => l ++ [fresh_cell]) s))).
Proof.
  unfold async, new_promise.
  destruct (body _) as [[v|e] s1]; cbn [snd]; unfold exec.
  - assert (R : keeps submitted (resolve_fn (List.length (promises s)) v))
      by keeps_step.
    apply R.
  - assert (R : keeps submitted (reject_fn (List.length (promises s)) e))
      by keeps_step.
    apply R.
Qed.

(** A loop whose every round pushes one request pushes them in order. *)
Lemma mapM_submitted {A B} (f : A -> M B) (o : A -> RequestOptions) l :
  (forall a s, exists b s' h,
      f a s = (Ok b, s')
      /\ submitted s' = submitted s ++ [{| options := o a; handle := h |}]) ->
  forall s, exists bs s' added,
    mapM f l s = (Ok bs, s')
    /\ submitted s' = submitted s ++ added
    /\ map options added = map o l.
Proof.
  intro Hf. induction l as [|a l IH]; intro s.
  - exists [], s, []. now rewrite app_nil_r.
  - cbn [mapM]. unfold bind at 1.
    destruct (Hf a s) as (b & s1 & h & E & H). rewrite E.
    destruct (IH s1) as (bs & s2 & added & E2 & H2 & Ho).
    unfold bind at 1. rewrite E2. unfold ret.
    eexists _, _, (_ :: added). split; [reflexivity|].
    rewrite H2, H, <- app_assoc. split; [reflexivity|].
    cbn [map options]. now rewrite Ho.
Qed.

(** A step that pushes one request, followed by steps that push none
    and do not throw. *)
Lemma bind_submits {A B} (m : M A) (k : A -> M B) (o : RequestOptions) s :
  (exists a s' h,
      m s = (Ok a, s')
      /\ submitted s' = submitted s ++ [{| options := o; handle := h |}]) ->
  (forall a, succeeds (k a)) -> (forall a, keeps submitted (k a)) ->
  exists b s' h,
    bind m k s = (Ok b, s')
    /\ submitted s' = submitted s ++ [{| options := o; handle := h |}].
Proof.
  intros (a & s1 & h & E & H) Hs Hk. unfold bind. rewrite E.
  specialize (Hs a s1). specialize (Hk a s1). destruct Hs as [b Hb].
  destruct (k a s1) as [[b'|e] s2]; cbn [fst snd] in *; [|discriminate].
  exists b', s2, h. split; [reflexivity|]. now rewrite Hk.
Qed.

Lemma fetch_submits o s :
  exists p s' h,
    fetch o s = (Ok p, s')
    /\ submitted s' = submitted s ++ [{| options := options_of o; handle := h |}].
Proof.
  destruct (submitted_fetch o s) as [R H].
  destruct (fetch o s) as [[p|e] s1]; cbn [fst snd] in *; [|discriminate].
  eexists _, _, _. split; [reflexivity | exact H].
Qed.

Lemma async_fetch_submits o (k : pid -> M value) s :
  (forall p, keeps submitted (k p)) ->
  exists p s' h,
    async (bind (fetch o) k) s = (Ok p, s')
    /\ submitted s' = submitted s ++ [{| options := options_of o; handle := h |}].
Proof.
  intro Hk. pose proof (submitted_async_fetch o k s Hk) as H.
  pose proof (async_returns (bind (fetch o) k) s) as R.
  destruct (async _ s) as [[p|e] s1]; cbn [fst snd] in *; [|discriminate].
  eexists _, _, _. split; [reflexivity | exact H].
Qed.

Lemma append_empty_r (s : string) : (s ++ "")%string = s.
Proof. induction s as [|a s IH]; cbn; [reflexivity | now rewrite IH]. Qed.

(** ** The dispatcher: [fetch] and [request] *)

(** X1.  [fetch] on a connection whose [isFetching] flag is clear sends
    a request at once, and the request it sends is the oldest one
    waiting: the head of the queue if there is one, the new request
    otherwise.  It goes to the API base URL followed by the request's
    endpoint, with the request's method ([GET] when it has none), its
    body and the connection's token as bearer; only a fulfilment callback
    is attached to the exchange.  No timer is consulted or set: a request
    that waits for the pacing timer is sent by the next [fetch] call, if
    that comes first.  (The flag, not the wire, decides: after a
    transport failure the flag stays set with nothing in flight, and
    [fetch] only queues.) *)
Theorem fetch_when_idle_sends_the_oldest_request o s :
  isFetching (wf s) = false ->
  let p := List.length (promises s) in
  let req := {| options := options_of o; handle := p |} in
  let oldest := hd req (queue (wf s)) in
  let s' := snd (fetch o s) in
  fst (fetch o s) = Ok p
  /\ queue (wf s') = tl (queue (wf s) ++ [req])
  /\ isFetching (wf s') = true
  /\ exchanged s' = exchanged s ++ [exchange_of (token (wf s)) oldest]
  /\ inflight s'
     = inflight s ++ [{| on_fulfilled := HKont (KResponse oldest);
                         on_rejected := HNone;
                         capability := S (S p) |}]
  /\ timers s' = timers s.
Proof.
  intros H p req oldest s'.
  assert (O : options_of o = match o with
                             | inr e => {| endpoint := e; method := None;
                                           body := None |}
                             | inl o => o
                             end) by now destruct o.
  subst s'. unfold fetch, bind, new_promise, modify. cbv beta iota zeta.
  rewrite <- O. fold p. fold req.
  match goal with |- context [request ?s0] => set (s1 := s0) end.
  assert (Q : queue (wf s1) = oldest :: tl (queue (wf s) ++ [req])).
  { subst s1 oldest. cbn. now destruct (queue (wf s)). }
  assert (B : exists s3,
             request_body (set_promises (fun l => l ++ [fresh_cell]) s1)
             = (Ok VUndefined, s3)
             /\ queue (wf s3) = tl (queue (wf s) ++ [req])
             /\ isFetching (wf s3) = true
             /\ exchanged s3 = exchanged s ++ [exchange_of (token (wf s)) oldest]
             /\ inflight s3
                = inflight s ++ [{| on_fulfilled := HKont (KResponse oldest);
                                    on_rejected := HNone;
                                    capability := S (S p) |}]
             /\ timers s3 = timers s).
  { unfold request_body, bind, get. cbn [set_promises wf promises].
    replace (isFetching (wf s1)) with false by (subst s1; cbn; now rewrite H).
    rewrite Q. eexists. split; [reflexivity|].
    subst s1. cbn. repeat split.
    do 3 f_equal. rewrite !length_app. cbn. fold p. lia. }
  destruct B as (s3 & B & Hq & Hf & Hx & Hi & Ht).
  unfold request. rewrite (async_ok _ _ _ _ B). cbn [fst snd].
  unfold exec.
  pose proof (keeps_part (fun d => fst (fst (fst d))) _
                (dispatch_resolve_fn (List.length (promises s1)) VUndefined)
                s3) as K1.
  pose proof (keeps_part (fun d => snd d) _
                (dispatch_resolve_fn (List.length (promises s1)) VUndefined)
                s3) as K2.
  pose proof (keeps_part (fun d => snd (fst (fst d))) _
                (dispatch_resolve_fn (List.length (promises s1)) VUndefined)
                s3) as K3.
  pose proof (timers_resolve_fn (List.length (promises s1)) VUndefined s3)
    as K4.
  unfold dispatch in K1, K2, K3. cbn [fst snd] in K1, K2, K3.
  unfold ret. cbn [fst snd]. rewrite K1, K2, K3, K4. subst s1.
  cbn [promises set_submitted set_wf set_promises].
  repeat split; assumption.
Qed.

(** A third call made after the first has been answered, while the
    second still waits for the pacing timer (60 seconds, the quota header
    reading 0): the second request is sent by that call. *)
Lemma fetch_when_idle_witness :
  exists s,
    run 20 [ Call (CallFetch (inr "a")); Call (CallFetch (inr "b"));
             Event (EvResponse 0 (json_response 200 (Some "0")
                                    (PJson (JObj [])))) ]
      (new_WebflowConnection "token" ENGLISH) = Some s
    /\ isFetching (wf s) = false
    /\ timers s = [JNum 60000%Q]
    /\ map url (exchanged s) = [(api_base ++ "a")%string]
    /\ map url (exchanged (snd (fetch (inr "c") s)))
       = [(api_base ++ "a")%string; (api_base ++ "b")%string]
    /\ timers (snd (fetch (inr "c") s)) = [JNum 60000%Q].
Proof.
  evaluate (run 20 [ Call (CallFetch (inr "a")); Call (CallFetch (inr "b"));
                     Event (EvResponse 0 (json_response 200 (Some "0")
                                            (PJson (JObj [])))) ]
              (new_WebflowConnection "token" ENGLISH)) E.
  match type of E with
  | _ = Some ?s =>
      exists s;
      pose proof (fetch_when_idle_sends_the_oldest_request (inr "c") s eq_refl)
        as P
  end.
  cbv zeta in P. destruct P as (_ & _ & _ & Hx & _ & Ht).
  split; [exact E|]. split; [reflexivity|]. split; [reflexivity|].
  split; [reflexivity|]. split.
  - rewrite Hx. reflexivity.
  - rewrite Ht. reflexivity.
Defined.

(** X2.  [fetch] while a call is in flight only queues: the new request
    goes to the back of the queue, nothing is sent, no timer is set, no
    microtask is left, and the promise returned is pending. *)
Theorem fetch_while_fetching_only_queues o s :
  isFetching (wf s) = true ->
  let p := List.length (promises s) in
  let req := {| options := options_of o; handle := p |} in
  let s' := snd (fetch o s) in
  fst (fetch o s) = Ok p
  /\ queue (wf s') = queue (wf s) ++ [req]
  /\ isFetching (wf s') = true
  /\ exchanged s' = exchanged s
  /\ inflight s' = inflight s
  /\ timers s' = timers s
  /\ microtasks s' = microtasks s
  /\ cell p s' = fresh_cell.
Proof.
  intro H. unfold fetch, bind, new_promise, modify. cbv beta iota zeta.
  rewrite request_idle by (left; exact H).
  cbn. unfold cell. cbn.
  repeat split; try assumption; try (now destruct o).
  rewrite <- app_assoc. rewrite app_nth2 by lia. now rewrite Nat.sub_diag.
Qed.

Lemma fetch_while_fetching_witness :
  isFetching (wf (first_fetch "a")) = true
  /\ map (fun r => endpoint (options r))
       (queue (wf (snd (fetch (inr "b") (first_fetch "a"))))) = ["b"]
  /\ exchanged (snd (fetch (inr "b") (first_fetch "a")))
     = exchanged (first_fetch "a").
Proof.
  split; [reflexivity|].
  pose proof (fetch_while_fetching_only_queues (inr "b") (first_fetch "a")
                eq_refl) as P.
  cbv zeta in P. destruct P as (_ & Hq & _ & Hx & _).
  split; [rewrite Hq; reflexivity | exact Hx].
Defined.

(** The state in which the callback of [request] decides on a timer. *)
Lemma on_response_timers req response s :
  timers (snd (on_response req response s))
  = timers s
    ++ match queue (wf s) with
       | [] => []
       | _ :: _ =>
           [pacing_delay (or_zero (Number (x_ratelimit_remaining response)))]
       end.
Proof.
  unfold on_response. unfold bind at 1 2. unfold modify at 1 2.
  cbv beta iota.
  match goal with
  | |- timers (snd (bind ?m ?k ?s0)) = _ =>
      assert (K : keeps wf m) by keeps_auto;
      assert (T : keeps timers m)
        by (unfold decode; pose proof timers_resolve_fn;
            pose proof timers_reject_fn; keeps_auto);
      assert (S : succeeds m) by succeeds_auto;
      specialize (K s0); specialize (T s0); destruct (S s0) as [u Hu];
      unfold bind at 1; destruct (m s0) as [[u'|e] s1]
  end; simpl in Hu; [|discriminate].
  cbn [snd] in K, T. unfold bind, get. cbv beta iota. rewrite K. cbn.
  destruct (queue (wf s)).
  - cbn. rewrite T. cbn. now rewrite app_nil_r.
  - cbn. rewrite T. reflexivity.
Qed.

(** The delay for a header made of decimal digits. *)
Lemma pacing_delay_digits ds :
  ds <> [] -> forallb is_decimal_digit ds = true ->
  (decimal_value ds < 2 ^ 53)%Z ->
  pacing_delay (or_zero (Number (Some (string_of_list_ascii ds))))
  = JNum (inject_Z (if (60 <=? decimal_value ds)%Z then 0
                    else 1000 * (60 - decimal_value ds))).
Proof.
  intros Hne Hd Hb. rewrite (Number_digits ds Hne Hd Hb).
  pose proof (decimal_value_nonneg ds) as Hn.
  set (n := decimal_value ds) in *.
  assert (O : or_zero (JNum (inject_Z n)) = JNum (inject_Z n)).
  { unfold or_zero. destruct (Qeq_bool _ _) eqn:E; [|reflexivity].
    apply Qeq_bool_iff in E. unfold Qeq in E. simpl in E.
    rewrite Z.mul_1_r in E. now rewrite E. }
  rewrite O. unfold pacing_delay.
  assert (L : Qle_bool 60 (inject_Z n) = (60 <=? n)%Z).
  { unfold Qle_bool. simpl. now rewrite Z.mul_1_r. }
  rewrite L. destruct (60 <=? n)%Z eqn:E; [reflexivity|].
  apply Z.leb_gt in E.
  replace (60 - inject_Z n)%Q with (inject_Z (60 - n))
    by (unfold inject_Z, Qminus, Qplus, Qopp; cbn [Qnum Qden Pos.mul];
        f_equal; lia).
  rewrite binary64_integer by lia.
  replace (1000 * inject_Z (60 - n))%Q with (inject_Z (1000 * (60 - n)))
    by (unfold inject_Z, Qmult; cbn [Qnum Qden Pos.mul]; f_equal).
  apply binary64_integer. lia.
Qed.

(** X3.  The callback of [request] sets a timer only when a request is
    waiting, and then exactly one, whose delay is computed from the
    quota header of the response just received: 0 when the header reads
    60 or more, 1000 * (60 - n) milliseconds when it reads n below 60,
    and 60000 when the header is missing.  (Numbers below 2^53, which a
    double holds exactly.) *)
Theorem pacing_timer_after_response :
  forall s req response,
    let s' := snd (on_response req response s) in
    let delay :=
      pacing_delay (or_zero (Number (x_ratelimit_remaining response))) in
    (queue (wf s) = [] -> timers s' = timers s)
    /\ (queue (wf s) <> [] -> timers s' = timers s ++ [delay])
    /\ (x_ratelimit_remaining response = None -> delay = JNum 60000%Q)
    /\ (forall ds,
           ds <> [] -> forallb is_decimal_digit ds = true ->
           (decimal_value ds < 2 ^ 53)%Z ->
           x_ratelimit_remaining response = Some (string_of_list_ascii ds) ->
           delay = JNum (inject_Z (if (60 <=? decimal_value ds)%Z then 0
                                   else 1000 * (60 - decimal_value ds)))).
Proof.
  intros s req response s' delay. subst s'.
  rewrite on_response_timers. fold delay.
  split; [|split; [|split]].
  - intros ->. apply app_nil_r.
  - destruct (queue (wf s)); [congruence | reflexivity].
  - intro H. subst delay. rewrite H. reflexivity.
  - intros ds Hne Hd Hb H. subst delay. rewrite H.
    now apply pacing_delay_digits.
Qed.

(** With one request waiting and a quota header that reads 42, the
    timer is set to 18 seconds. *)
Lemma pacing_timer_witness :
  queue (wf (exec (fetch (inr "b")) (first_fetch "a"))) <> []
  /\ (["4"; "2"]%char <> [] /\ forallb is_decimal_digit ["4"; "2"]%char = true
      /\ (decimal_value ["4"; "2"]%char < 2 ^ 53)%Z)
  /\ timers (snd (on_response (first_request "a")
                    (json_response 200 (Some "42") (PJson (JObj [])))
                    (exec (fetch (inr "b")) (first_fetch "a"))))
     = [JNum 18000%Q].
Proof.
  split; [discriminate|].
  split; [split; [discriminate | split; reflexivity]|].
  pose proof (pacing_timer_after_response
                (exec (fetch (inr "b")) (first_fetch "a"))
                (first_request "a")
                (json_response 200 (Some "42") (PJson (JObj [])))) as P.
  cbv zeta in P. destruct P as (_ & Hq & _ & Hd).
  rewrite Hq by discriminate.
  pose proof (Hd ["4"; "2"]%char ltac:(discriminate) eq_refl eq_refl eq_refl)
    as E.
  rewrite E. reflexivity.
Defined.

(** ** One call on a new connection, from the call to its result *)

(** What a body decodes to, by content type. *)
Lemma decoded_text r :
  content_type r = None -> decoded r = inl (VString (body_text r)).
Proof. unfold decoded. now intros ->. Qed.

Lemma decoded_malformed r ct :
  content_type r = Some ct -> includes "application/json" ct = true ->
  body_json r = None -> decoded r = inr VSyntaxError.
Proof. unfold decoded. now intros -> -> ->. Qed.

(** X4.  [fetch] on a new connection, answered with a status of 299 or
    less: one exchange goes out, for the endpoint, method ([GET] by
    default) and body of the options; once the body has been read the
    promise returned settles with what the body decodes to.  It fulfils
    with the decoded JSON or with the text, and it rejects when a body
    announced as JSON does not parse.  The dispatcher is free again and,
    the queue being empty, no timer is set. *)
Theorem fetch_settles_with_the_decoded_body :
  forall tok primaryLocale o r fuel,
    (status r <= 299)%Z -> 40 <= fuel ->
    exists s,
      run fuel [ Call (CallFetch o); Event (EvResponse 0 r); Event (EvBody 0) ]
        (new_WebflowConnection tok primaryLocale) = Some s
      /\ sent s
         = [ (method_or_GET (method (options_of o)),
              (api_base ++ endpoint (options_of o))%string,
              body (options_of o)) ]
      /\ pstatus (cell 0 s)
         = match decoded r with
           | inl v => Fulfilled v
           | inr e => Rejected e
           end
      /\ isFetching (wf s) = false /\ timers s = [].
Proof.
  intros tok primaryLocale o r fuel Hs Hfuel.
  destruct (decoded r) as [v|e] eqn:Hd.
  - pose proof (decoded_not_promise _ _ Hd) as Hv.
    destruct o; (eexists; split;
      [ apply run_more with (fuel := 40); [|exact Hfuel]; run_script
      | repeat split; reflexivity ]).
  - destruct o; (eexists; split;
      [ apply run_more with (fuel := 40); [|exact Hfuel]; run_script
      | repeat split; reflexivity ]).
Qed.

(** A body announced as JSON that does not parse: the promise rejects
    with the syntax error. *)
Lemma fetch_settles_witness :
  exists s,
    run 40 [ Call (CallFetch (inr "sites"));
             Event (EvResponse 0
                      {| status := 200; statusText := "OK";
                         x_ratelimit_remaining := Some "59";
                         content_type := Some "application/json";
                         body_text := "<html>"; body_json := None |});
             Event (EvBody 0) ]
      (new_WebflowConnection "token" ENGLISH) = Some s
    /\ sent s = [ (GET, (api_base ++ "sites")%string, None) ]
    /\ pstatus (cell 0 s) = Rejected VSyntaxError.
Proof.
  destruct (fetch_settles_with_the_decoded_body "token" ENGLISH (inr "sites")
              {| status := 200; statusText := "OK";
                 x_ratelimit_remaining := Some "59";
                 content_type := Some "application/json";
                 body_text := "<html>"; body_json := None |} 40)
    as (s & R & Hs & Hp & _); [cbn; lia | lia |].
  exists s. split; [exact R|]. split; [exact Hs | exact Hp].
Defined.

(** X5.  [fetchItem] on a new connection, no other call being made,
    asks for the item with one [GET] on [collections/<c>/items/<i>?],
    followed by [cmsLocaleId=<locale>] when a locale is given and by
    nothing otherwise (the question mark stays).  When the answer has a
    status of 299 or less and decodes to an item, the promise returned
    fulfils, once the body is read, with [undefined] if the item's [id]
    is the empty string and with the item otherwise. *)
Theorem fetchItem_without_id_is_undefined :
  forall tok primaryLocale c i l r it fuel,
    successful r (PItem it) -> 40 <= fuel ->
    exists s,
      run fuel [ Call (CallFetchItem c i l); Event (EvResponse 0 r);
                 Event (EvBody 0) ]
        (new_WebflowConnection tok primaryLocale) = Some s
      /\ wire s
         = [ (GET,
              (api_base ++ "collections/" ++ c ++ "/items/" ++ i ++ "?"
                 ++ match l with
                    | Some l => "cmsLocaleId=" ++ Locales_value l
                    | None => ""
                    end)%string) ]
      /\ pstatus (cell 0 s)
         = Fulfilled (if String.eqb (Item_id it) "" then VUndefined
                      else VItem it).
Proof.
  intros tok primaryLocale c i l r it fuel H Hfuel.
  assert (Hn : exists v,
             fetchItem_normalize (VItem it) = ret v
             /\ (forall q, v <> VPromise q)
             /\ v = if String.eqb (Item_id it) "" then VUndefined
                    else VItem it).
  { eexists. split; [reflexivity|]. split; [|reflexivity].
    intro q. now destruct (String.eqb _ _). }
  destruct Hn as (v & Hn & Hv & <-).
  eexists. split.
  - apply run_more with (fuel := 40); [|exact Hfuel]. run_script.
  - split; reflexivity.
Qed.

Lemma fetchItem_without_id_witness :
  successful (json_response 200 (Some "59") (PItem (sample_item "" SPANISH)))
    (PItem (sample_item "" SPANISH))
  /\ exists s,
      run 40 [ Call (CallFetchItem "c" "i" None);
               Event (EvResponse 0
                        (json_response 200 (Some "59")
                           (PItem (sample_item "" SPANISH))));
               Event (EvBody 0) ]
        (new_WebflowConnection "token" ENGLISH) = Some s
      /\ wire s = [ (GET, (api_base ++ "collections/c/items/i?")%string) ]
      /\ pstatus (cell 0 s) = Fulfilled VUndefined.
Proof.
  assert (H : successful
                (json_response 200 (Some "59") (PItem (sample_item "" SPANISH)))
                (PItem (sample_item "" SPANISH)))
    by (split; [cbn; lia | reflexivity]).
  split; [exact H|].
  destruct (fetchItem_without_id_is_undefined "token" ENGLISH "c" "i" None
              _ _ 40 H (le_n 40)) as (s & R & Hw & Hp).
  exists s. split; [exact R|]. split; [exact Hw | exact Hp].
Defined.

(** X6.  [fetchLocales] on a new connection asks for the site with a
    [GET] on [sites/65012459c8bf8aa9d483a9f7]; when the answer has a
    status of 299 or less and decodes to JSON, the promise returned
    fulfils, once the body is read, with the [locales] member of that
    JSON, and with [undefined] when there is none (an object without that
    member, or a value that is no object); when the JSON is [null] the
    read of [locales] throws and the promise rejects with the
    TypeError. *)
Theorem fetchLocales_picks_the_locales_member :
  forall tok primaryLocale r j fuel,
    successful r (PJson j) -> 40 <= fuel ->
    exists s,
      run fuel [ Call CallFetchLocales; Event (EvResponse 0 r);
                 Event (EvBody 0) ]
        (new_WebflowConnection tok primaryLocale) = Some s
      /\ wire s = [ (GET, (api_base ++ "sites/65012459c8bf8aa9d483a9f7")%string) ]
      /\ pstatus (cell 0 s)
         = match j with
           | JNull => Rejected (VTypeError "Cannot read properties of null")
           | _ => Fulfilled (match obj_get "locales" j with
                             | Some l => VJson l
                             | None => VUndefined
                             end)
           end.
Proof.
  intros tok primaryLocale r j fuel H Hfuel.
  destruct (match j with JNull => true | _ => false end) eqn:Ej.
  - destruct j; try discriminate Ej.
    eexists. split.
    + apply run_more with (fuel := 40); [|exact Hfuel]. run_script.
    + split; reflexivity.
  - assert (Hn : exists v,
               fetchLocales_pick (VJson j) = ret v
               /\ (forall q, v <> VPromise q)
               /\ v = match obj_get "locales" j with
                      | Some l => VJson l
                      | None => VUndefined
                      end).
    { eexists. split; [destruct j; try discriminate Ej; reflexivity|].
      split; [|reflexivity].
      intro q. now destruct (obj_get _ _). }
    destruct Hn as (v & Hn & Hv & Ev).
    assert (G : match j with
                | JNull => Rejected (VTypeError "Cannot read properties of null")
                | _ => Fulfilled (match obj_get "locales" j with
                                  | Some l => VJson l
                                  | None => VUndefined
                                  end)
                end = Fulfilled v)
      by (rewrite Ev; destruct j; try discriminate Ej; reflexivity).
    rewrite G. clear G Ev Ej.
    eexists. split.
    + apply run_more with (fuel := 40); [|exact Hfuel]. run_script.
    + split; reflexivity.
Qed.

Lemma fetchLocales_picks_witness :
  exists s,
    run 40 [ Call CallFetchLocales;
             Event (EvResponse 0
                      (json_response 200 (Some "59")
                         (PJson (JObj [("id", JStr "site");
                                       ("locales", JArr [JStr "en"])]))));
             Event (EvBody 0) ]
      (new_WebflowConnection "token" ENGLISH) = Some s
    /\ pstatus (cell 0 s) = Fulfilled (VJson (JArr [JStr "en"])).
Proof.
  destruct (fetchLocales_picks_the_locales_member "token" ENGLISH
              (json_response 200 (Some "59")
                 (PJson (JObj [("id", JStr "site");
                               ("locales", JArr [JStr "en"])])))
              (JObj [("id", JStr "site"); ("locales", JArr [JStr "en"])]) 40)
    as (s & R & _ & Hp); [split; [cbn; lia | reflexivity] | lia |].
  exists s. split; [exact R | exact Hp].
Defined.

(** X7.  [updateItem] on a new connection, no other call being made,
    sends one [PATCH] on [collections/<c>/items/<i>], with the suffix
    [/live] exactly when [live] is set, and a body made of [isArchived],
    [isDraft], [fieldData] and [cmsLocaleId] of the item data; when the
    answer has a status of 299 or less, the promise returned settles,
    once the body is read, as the call does: it fulfils with the decoded
    body and rejects when a body announced as JSON does not parse. *)
Theorem updateItem_patches_and_passes_the_answer :
  forall tok primaryLocale c i d live r fuel,
    (status r <= 299)%Z -> 40 <= fuel ->
    exists s,
      run fuel [ Call (CallUpdateItem c i d live); Event (EvResponse 0 r);
                 Event (EvBody 0) ]
        (new_WebflowConnection tok primaryLocale) = Some s
      /\ sent s
         = [ (PATCH,
              (api_base ++ "collections/" ++ c ++ "/items/" ++ i
                 ++ (if live then "/live" else ""))%string,
              Some (JObj [ ("isArchived", JBool (isArchived d));
                           ("isDraft", JBool (isDraft d));
                           ("fieldData", js_of_PartialFieldData (fieldData d));
                           ("cmsLocaleId",
                            js_of_optional_locale (cmsLocaleId d)) ])) ]
      /\ pstatus (cell 0 s)
         = match decoded r with
           | inl v => Fulfilled v
           | inr e => Rejected e
           end.
Proof.
  intros tok primaryLocale c i d live r fuel Hs Hfuel.
  destruct (decoded r) as [v|e] eqn:Hd.
  - pose proof (decoded_not_promise _ _ Hd) as Hv.
    eexists; split;
      [ apply run_more with (fuel := 40); [|exact Hfuel]; run_script
      | repeat split; reflexivity ].
  - eexists; split;
      [ apply run_more with (fuel := 40); [|exact Hfuel]; run_script
      | repeat split; reflexivity ].
Qed.

Lemma updateItem_patches_witness :
  exists s,
    run 40 [ Call (CallUpdateItem "c" "i" (sample_partial "Clase" "Lunes")
                     false);
             Event (EvResponse 0
                      (json_response 200 (Some "59")
                         (PItem (sample_item "i" SPANISH))));
             Event (EvBody 0) ]
      (new_WebflowConnection "token" ENGLISH) = Some s
    /\ wire s = [ (PATCH, (api_base ++ "collections/c/items/i")%string) ]
    /\ pstatus (cell 0 s) = Fulfilled (VItem (sample_item "i" SPANISH)).
Proof.
  destruct (updateItem_patches_and_passes_the_answer "token" ENGLISH "c" "i"
              (sample_partial "Clase" "Lunes") false
              (json_response 200 (Some "59") (PItem (sample_item "i" SPANISH)))
              40)
    as (s & R & Hs & Hp); [cbn; lia | lia |].
  exists s. split; [exact R|]. split; [|exact Hp].
  unfold wire. unfold sent in Hs.
  apply (f_equal (map (fun x => (fst (fst x), snd (fst x))))) in Hs.
  rewrite map_map in Hs. exact Hs.
Defined.

(** X8.  [publishItems] on a new connection, no other call being made,
    sends one [POST] on [collections/<c>/items/publish] whose body is the
    object [{itemIds}], the identifiers in the order given; when the
    answer has a status of 299 or less, the promise returned settles,
    once the body is read, as the call does: it fulfils with the decoded
    body and rejects when a body announced as JSON does not parse. *)
Theorem publishItems_posts_the_identifiers :
  forall tok primaryLocale c ids r fuel,
    (status r <= 299)%Z -> 40 <= fuel ->
    exists s,
      run fuel [ Call (CallPublishItems c ids); Event (EvResponse 0 r);
                 Event (EvBody 0) ]
        (new_WebflowConnection tok primaryLocale) = Some s
      /\ sent s
         = [ (POST,
              (api_base ++ "collections/" ++ c ++ "/items/publish")%string,
              Some (JObj [("itemIds", JArr (map JStr ids))])) ]
      /\ pstatus (cell 0 s)
         = match decoded r with
           | inl v => Fulfilled v
           | inr e => Rejected e
           end.
Proof.
  intros tok primaryLocale c ids r fuel Hs Hfuel.
  destruct (decoded r) as [v|e] eqn:Hd.
  - pose proof (decoded_not_promise _ _ Hd) as Hv.
    eexists; split;
      [ apply run_more with (fuel := 40); [|exact Hfuel]; run_script
      | repeat split; reflexivity ].
  - eexists; split;
      [ apply run_more with (fuel := 40); [|exact Hfuel]; run_script
      | repeat split; reflexivity ].
Qed.

Lemma publishItems_posts_witness :
  exists s,
    run 40 [ Call (CallPublishItems "c" ["i1"; "i2"]);
             Event (EvResponse 0
                      (json_response 202 (Some "59")
                         (PJson (JObj [("publishedItemIds", JArr [])]))));
             Event (EvBody 0) ]
      (new_WebflowConnection "token" ENGLISH) = Some s
    /\ sent s
       = [ (POST, (api_base ++ "collections/c/items/publish")%string,
            Some (JObj [("itemIds", JArr [JStr "i1"; JStr "i2"])])) ]
    /\ pstatus (cell 0 s)
       = Fulfilled (VJson (JObj [("publishedItemIds", JArr [])])).
Proof.
  destruct (publishItems_posts_the_identifiers "token" ENGLISH "c"
              ["i1"; "i2"]
              (json_response 202 (Some "59")
                 (PJson (JObj [("publishedItemIds", JArr [])]))) 40)
    as (s & R & Hs & Hp); [cbn; lia | lia |].
  exists s. split; [exact R|]. split; [exact Hs | exact Hp].
Defined.

(** ** [deleteItem] *)

(** X9.  In any state of the connection, [deleteItem] pushes exactly one
    request per locale of the list, in the order of the list, and
    nothing else: each is a [DELETE] without a body on
    [collections/<c>/items/<i>?cmsLocaleIds=<locale>], with [/live]
    before the query exactly when [live] is not set. *)
Theorem deleteItem_submits_one_delete_per_locale :
  forall s c i ls live,
    exists added,
      submitted (snd (deleteItem c i ls live s)) = submitted s ++ added
      /\ map options added = map (delete_options c i live) ls
      /\ (forall r, In r added ->
            method (options r) = Some DELETE /\ body (options r) = None)
      /\ (forall l,
            endpoint (delete_options c i live l)
            = ("collections/" ++ c ++ "/items/" ++ i
                 ++ (if live then "" else "/live")
                 ++ "?cmsLocaleIds=" ++ Locales_value l)%string).
Proof.
  intros s c i ls live.
  assert (S : exists added,
             submitted (snd (deleteItem c i ls live s)) = submitted s ++ added
             /\ map options added = map (delete_options c i live) ls).
  { unfold deleteItem. rewrite submitted_async.
    match goal with
    | |- context [bind (mapM ?f ls) ?k ?s0] =>
        destruct (mapM_submitted f (delete_options c i live) ls) with (s := s0)
          as (hs & s1 & added & E & H & Ho);
        [ | unfold bind at 1; rewrite E;
            assert (K : keeps submitted (k hs)) by keeps_auto ]
    end.
    - intros l s0. apply bind_submits.
      + apply (fetch_submits (inl (delete_options c i live l))).
      + intro p. succeeds_auto.
      + intro p. keeps_auto.
    - exists added. rewrite K. split; [exact H | exact Ho]. }
  destruct S as (added & Hs & Ho). exists added.
  split; [exact Hs|]. split; [exact Ho|]. split; [|reflexivity].
  intros r Hr. apply (in_map options) in Hr. rewrite Ho in Hr.
  apply in_map_iff in Hr. destruct Hr as (l & <- & _). split; reflexivity.
Qed.

(** X10.  [deleteItem] for two locales on a new connection, both
    deletions answered with a status of 299 or less and a body that
    decodes: two [DELETE] exchanges go out, in the order of the locales,
    the second when the pacing timer set after the first response fires,
    and once both bodies are read the promise returned fulfils with the
    array of the two decoded bodies, in the order of the locales,
    whether the first body is read before the second deletion is sent
    or, [late], after the body of the second. *)
Theorem deleteItem_two_locales :
  forall tok primaryLocale c i l1 l2 live r1 r2 v1 v2 fuel (late : bool),
    (status r1 <= 299)%Z -> decoded r1 = inl v1 ->
    (status r2 <= 299)%Z -> decoded r2 = inl v2 ->
    40 <= fuel ->
    exists s,
      run fuel ([ Call (CallDeleteItem c i [l1; l2] live);
                  Event (EvResponse 0 r1) ]
                ++ (if late
                    then [ Event (EvTimer 0); Event (EvResponse 0 r2);
                           Event (EvBody 1); Event (EvBody 0) ]
                    else [ Event (EvBody 0); Event (EvTimer 0);
                           Event (EvResponse 0 r2); Event (EvBody 0) ]))
        (new_WebflowConnection tok primaryLocale) = Some s
      /\ sent s
         = [ (DELETE, (api_base ++ delete_endpoint c i live l1)%string, None);
             (DELETE, (api_base ++ delete_endpoint c i live l2)%string, None) ]
      /\ queue (wf s) = [] /\ inflight s = [] /\ decoding s = []
      /\ pstatus (cell 0 s) = Fulfilled (VArray [v1; v2]).
Proof.
  intros tok primaryLocale c i l1 l2 live r1 r2 v1 v2 fuel late
    Hs1 Hd1 Hs2 Hd2 Hfuel.
  pose proof (decoded_not_promise _ _ Hd1) as Hv1.
  pose proof (decoded_not_promise _ _ Hd2) as Hv2.
  destruct late; cbn [app];
    (eexists; split;
     [ apply run_more with (fuel := 40); [|exact Hfuel]; run_script
     | repeat split; reflexivity ]).
Qed.

(** Two deletions answered 204 without a body, the second body read
    first: the result is an array of two texts, the first locale's
    first. *)
Lemma deleteItem_two_locales_witness :
  exists s,
    run 40 [ Call (CallDeleteItem "c" "i" [ENGLISH; SPANISH] true);
             Event (EvResponse 0
                      {| status := 204; statusText := "No Content";
                         x_ratelimit_remaining := Some "59";
                         content_type := None; body_text := "first";
                         body_json := None |});
             Event (EvTimer 0);
             Event (EvResponse 0
                      {| status := 204; statusText := "No Content";
                         x_ratelimit_remaining := Some "58";
                         content_type := None; body_text := "second";
                         body_json := None |});
             Event (EvBody 1); Event (EvBody 0) ]
      (new_WebflowConnection "token" ENGLISH) = Some s
    /\ wire s
       = [ (DELETE,
            (api_base ++ "collections/c/items/i?cmsLocaleIds="
               ++ "6501245cc8bf8aa9d483b104")%string);
           (DELETE,
            (api_base ++ "collections/c/items/i?cmsLocaleIds="
               ++ "657ce37cdbd66c75792d9429")%string) ]
    /\ pstatus (cell 0 s)
       = Fulfilled (VArray [VString "first"; VString "second"]).
Proof.
  destruct (deleteItem_two_locales "token" ENGLISH "c" "i" ENGLISH SPANISH true
              {| status := 204; statusText := "No Content";
                 x_ratelimit_remaining := Some "59";
                 content_type := None; body_text := "first";
                 body_json := None |}
              {| status := 204; statusText := "No Content";
                 x_ratelimit_remaining := Some "58";
                 content_type := None; body_text := "second";
                 body_json := None |}
              (VString "first") (VString "second") 40 true)
    as (s & R & Hs & _ & _ & _ & Hp);
    [cbn; lia | reflexivity | cbn; lia | reflexivity | lia |].
  exists s. split; [exact R|]. split; [|exact Hp].
  unfold wire. unfold sent in Hs.
  apply (f_equal (map (fun x => (fst (fst x), snd (fst x))))) in Hs.
  rewrite map_map in Hs. exact Hs.
Defined.

(** X11.  [deleteItem] for two locales on a new connection, no other
    call being made, the first deletion answered with a status above
    299: in the turn of that response, before its body has been read and
    before the second deletion has been sent, the promise returned
    rejects, and its reason is the pending promise of the body.  The
    second deletion still waits in the queue and is sent when the timer
    fires; the promise returned stays as it is. *)
Theorem deleteItem_first_failure :
  forall tok primaryLocale c i l1 l2 live r1 outcome fuel,
    (status r1 > 299)%Z -> decoded r1 = outcome ->
    40 <= fuel ->
    exists s s' d,
      run fuel [ Call (CallDeleteItem c i [l1; l2] live);
                 Event (EvResponse 0 r1) ]
        (new_WebflowConnection tok primaryLocale) = Some s
      /\ pstatus (cell 0 s) = Rejected (VPromise d)
      /\ pstatus (cell d s) = Pending
      /\ decoding s = [(d, outcome)]
      /\ sent s
         = [ (DELETE, (api_base ++ delete_endpoint c i live l1)%string, None) ]
      /\ map options (queue (wf s)) = [delete_options c i live l2]
      /\ run fuel [ Event (EvTimer 0) ] s = Some s'
      /\ sent s'
         = [ (DELETE, (api_base ++ delete_endpoint c i live l1)%string, None);
             (DELETE, (api_base ++ delete_endpoint c i live l2)%string, None) ]
      /\ pstatus (cell 0 s') = Rejected (VPromise d).
Proof.
  intros tok primaryLocale c i l1 l2 live r1 outcome fuel Hs1 Hd1 Hfuel.
  eexists _, _, _. split.
  - apply run_more with (fuel := 40); [|exact Hfuel]. run_script.
  - do 5 (split; [reflexivity|]). split.
    + apply run_more with (fuel := 40); [|exact Hfuel]. run_script.
    + split; reflexivity.
Qed.

Lemma deleteItem_first_failure_witness :
  exists s d,
    run 40 [ Call (CallDeleteItem "c" "i" [ENGLISH; SPANISH] true);
             Event (EvResponse 0
                      (json_response 404 (Some "59") validation_error)) ]
      (new_WebflowConnection "token" ENGLISH) = Some s
    /\ pstatus (cell 0 s) = Rejected (VPromise d)
    /\ pstatus (cell d s) = Pending.
Proof.
  destruct (deleteItem_first_failure "token" ENGLISH "c" "i" ENGLISH SPANISH
              true (json_response 404 (Some "59") validation_error)
              (inl (value_of_payload validation_error)) 40)
    as (s & s' & d & R & Hp & Hd & _); [cbn; lia | reflexivity | lia |].
  exists s, d. split; [exact R|]. split; [exact Hp | exact Hd].
Defined.

(** X12.  [deleteItem] with an empty list of locales sends nothing and
    pushes nothing; the promise returned fulfils with the empty array in
    the turn of the call. *)
Theorem deleteItem_no_locale :
  forall tok primaryLocale c i live fuel,
    40 <= fuel ->
    exists s,
      run fuel [ Call (CallDeleteItem c i [] live) ]
        (new_WebflowConnection tok primaryLocale) = Some s
      /\ pstatus (cell 0 s) = Fulfilled (VArray [])
      /\ sent s = [] /\ submitted s = [].
Proof.
  intros tok primaryLocale c i live fuel Hfuel.
  eexists. split.
  - apply run_more with (fuel := 40); [|exact Hfuel]. run_script.
  - repeat split; reflexivity.
Qed.

Lemma deleteItem_no_locale_witness :
  exists s,
    run 40 [ Call (CallDeleteItem "c" "i" [] true) ]
      (new_WebflowConnection "token" ENGLISH) = Some s
    /\ pstatus (cell 0 s) = Fulfilled (VArray []).
Proof.
  destruct (deleteItem_no_locale "token" ENGLISH "c" "i" true 40 (le_n 40))
    as (s & R & Hp & _).
  exists s. split; [exact R | exact Hp].
Defined.

(** ** [fetchAllItems] *)



(** X14.  [fetchAllItems] on a new connection, no other call being
    made, when the first page reports 250 items and every list call is
    answered with a status of 299 or less and a page.  The run has four
    orders of events, told apart by when the body of the page at offset
    100 is read: before the pacing timer ([k = 0]), after it ([k = 1]),
    after the response for offset 200 ([k = 2]), or after the body of
    that response ([k >= 3]).  In each of them exactly three list calls
    go out, for offsets 0, 100 and 200 with limit 100, in that order, and
    the promise returned fulfils with one array: the items of the first
    page, then the items of the other two pages in the order in which
    their bodies are read (each page exactly once).  That is page order
    in the first three orders of events, and not in the fourth. *)
Theorem fetchAllItems_three_pages :
  forall tok primaryLocale c r0 r1 r2 p0 p1 p2 limit offset pg1 pg2 fuel k,
    successful r0
      (PGetItems {| items := p0;
                    pagination := {| pg_limit := limit; pg_offset := offset;
                                     pg_total := 250 |} |}) ->
    successful r1 (PGetItems {| items := p1; pagination := pg1 |}) ->
    successful r2 (PGetItems {| items := p2; pagination := pg2 |}) ->
    40 <= fuel ->
    exists s,
      run fuel (fetchAll_schedule c r0 r1 r2 k)
        (new_WebflowConnection tok primaryLocale) = Some s
      /\ wire s
         = [ (GET, (api_base ++ items_endpoint c 100 0)%string);
             (GET, (api_base ++ items_endpoint c 100 100)%string);
             (GET, (api_base ++ items_endpoint c 100 200)%string) ]
      /\ queue (wf s) = [] /\ inflight s = [] /\ decoding s = []
      /\ pstatus (cell 0 s) = Fulfilled (VItemsRef 0)
      /\ nth 0 (arrays s) []
         = if (k <=? 2)%nat then (p0 ++ p1) ++ p2 else (p0 ++ p2) ++ p1.
Proof.
  intros tok primaryLocale c r0 r1 r2 p0 p1 p2 limit offset pg1 pg2 fuel k
    H0 H1 H2 Hfuel.
  destruct k as [|[|[|k]]];
    (eexists; split;
     [ apply run_more with (fuel := 40); [|exact Hfuel];
       unfold fetchAll_schedule; cbn [app]; run_script
     | repeat split; reflexivity ]).
Qed.

(** The body of the third page arrives before the body of the second:
    the third page's item comes second in the result. *)
Lemma fetchAllItems_three_pages_witness :
  exists s,
    run 40 (fetchAll_schedule "c"
              (json_response 200 (Some "59")
                 (page 250 0 [sample_item "a" ENGLISH]))
              (json_response 200 (Some "58")
                 (page 250 100 [sample_item "b" ENGLISH]))
              (json_response 200 (Some "57")
                 (page 250 200 [sample_item "c" ENGLISH])) 3)
      (new_WebflowConnection "token" ENGLISH) = Some s
    /\ map Item_id (nth 0 (arrays s) []) = ["a"; "c"; "b"].
Proof.
  destruct (fetchAllItems_three_pages "token" ENGLISH "c"
              (json_response 200 (Some "59")
                 (page 250 0 [sample_item "a" ENGLISH]))
              (json_response 200 (Some "58")
                 (page 250 100 [sample_item "b" ENGLISH]))
              (json_response 200 (Some "57")
                 (page 250 200 [sample_item "c" ENGLISH]))
              [sample_item "a" ENGLISH] [sample_item "b" ENGLISH]
              [sample_item "c" ENGLISH] 100 0
              {| pg_limit := 100; pg_offset := 100; pg_total := 250 |}
              {| pg_limit := 100; pg_offset := 200; pg_total := 250 |}
              40 3)
    as (s & R & _ & _ & _ & _ & _ & Ha);
    [ split; [cbn; lia | reflexivity] | split; [cbn; lia | reflexivity]
    | split; [cbn; lia | reflexivity] | lia | ].
  exists s. split; [exact R|]. rewrite Ha. reflexivity.
Defined.

(** X15.  [fetchAllItems] on a new connection, no other call being
    made, when the list call is answered with a status of 299 or less
    and a page that reports 100 items or fewer (none, or a negative
    number, included): exactly one list call goes out, for offset 0 with
    limit 100, and once its body has been read the promise returned
    fulfils with the items of that page; nothing is left waiting and no
    timer is set. *)
Theorem fetchAllItems_single_page :
  forall tok primaryLocale c r0 p0 limit offset total fuel,
    successful r0
      (PGetItems {| items := p0;
                    pagination := {| pg_limit := limit; pg_offset := offset;
                                     pg_total := total |} |}) ->
    (total <= 100)%Z ->
    40 <= fuel ->
    exists s,
      run fuel [ Call (CallFetchAllItems c); Event (EvResponse 0 r0);
                 Event (EvBody 0) ]
        (new_WebflowConnection tok primaryLocale) = Some s
      /\ wire s = [ (GET, (api_base ++ items_endpoint c 100 0)%string) ]
      /\ queue (wf s) = [] /\ inflight s = [] /\ timers s = []
      /\ pstatus (cell 0 s) = Fulfilled (VItemsRef 0)
      /\ nth 0 (arrays s) [] = p0.
Proof.
  intros tok primaryLocale c r0 p0 limit offset total fuel H0 Ht Hfuel.
  assert (Hn : Z.to_nat (ceil_div_100 total - 1) = 0).
  { unfold ceil_div_100.
    assert ((total + 99) / 100 <= 1)%Z
      by (apply Z.lt_succ_r, Z.div_lt_upper_bound; lia).
    lia. }
  eexists. split.
  - apply run_more with (fuel := 40); [|exact Hfuel]. run_script.
  - repeat split; reflexivity.
Qed.

Lemma fetchAllItems_single_page_witness :
  exists s,
    run 40 [ Call (CallFetchAllItems "c");
             Event (EvResponse 0
                      (json_response 200 (Some "59")
                         (page 1 0 [sample_item "a" ENGLISH])));
             Event (EvBody 0) ]
      (new_WebflowConnection "token" ENGLISH) = Some s
    /\ wire s
       = [ (GET, (api_base ++ "collections/c/items?offset=0&limit=100")%string) ]
    /\ nth 0 (arrays s) [] = [sample_item "a" ENGLISH].
Proof.
  destruct (fetchAllItems_single_page "token" ENGLISH "c"
              (json_response 200 (Some "59")
                 (page 1 0 [sample_item "a" ENGLISH]))
              [sample_item "a" ENGLISH] 100 0 1 40)
    as (s & R & Hw & _ & _ & _ & _ & Ha);
    [split; [cbn; lia | reflexivity] | lia | lia |].
  exists s. split; [exact R|]. split; [exact Hw | exact Ha].
Defined.

(** ** Timers *)

(** A dispatch cycle on an idle connection with a request waiting. *)
Lemma request_dispatches s r rest :
  isFetching (wf s) = false -> queue (wf s) = r :: rest ->
  let s' := snd (request s) in
  queue (wf s') = rest
  /\ isFetching (wf s') = true
  /\ exchanged s' = exchanged s ++ [exchange_of (token (wf s)) r]
  /\ inflight s'
     = inflight s ++ [{| on_fulfilled := HKont (KResponse r);
                         on_rejected := HNone;
                         capability := S (List.length (promises s)) |}]
  /\ timers s' = timers s.
Proof.
  intros Hf Hq.
  assert (B : exists s3,
             request_body (set_promises (fun l => l ++ [fresh_cell]) s)
             = (Ok VUndefined, s3)
             /\ queue (wf s3) = rest
             /\ isFetching (wf s3) = true
             /\ exchanged s3 = exchanged s ++ [exchange_of (token (wf s)) r]
             /\ inflight s3
                = inflight s ++ [{| on_fulfilled := HKont (KResponse r);
                                    on_rejected := HNone;
                                    capability := S (List.length (promises s)) |}]
             /\ timers s3 = timers s).
  { unfold request_body, bind, get. cbn [set_promises wf promises].
    rewrite Hf, Hq. eexists. split; [reflexivity|].
    cbn. repeat split.
    do 3 f_equal. rewrite length_app. cbn. lia. }
  destruct B as (s3 & B & H1 & H2 & H3 & H4 & H5).
  cbv zeta. unfold request. rewrite (async_ok _ _ _ _ B). cbn [fst snd].
  unfold exec.
  pose proof (keeps_part (fun d => fst (fst (fst d))) _
                (dispatch_resolve_fn (List.length (promises s)) VUndefined)
                s3) as K1.
  pose proof (keeps_part (fun d => snd d) _
                (dispatch_resolve_fn (List.length (promises s)) VUndefined)
                s3) as K2.
  pose proof (keeps_part (fun d => snd (fst (fst d))) _
                (dispatch_resolve_fn (List.length (promises s)) VUndefined)
                s3) as K3.
  pose proof (timers_resolve_fn (List.length (promises s)) VUndefined s3)
    as K4.
  unfold dispatch in K1, K2, K3. cbn [fst snd] in K1, K2, K3.
  rewrite K1, K2, K3, K4. repeat split; assumption.
Qed.

Lemma occur_timer s n delay :
  nth_error (timers s) n = Some delay ->
  exec (occur (EvTimer n)) s = snd (request (set_timers (list_remove n) s)).
Proof.
  intro Hn. unfold exec, occur, bind, get, modify. rewrite Hn.
  now destruct (request _) as [[q|e] s1].
Qed.

(** X21.  A timer that fires is consumed, and what it does depends on
    the connection at that moment only: when the [isFetching] flag is
    set (a call sent by a [fetch] call that came before the timer is
    under way, or a transport failure left the flag set) or the queue is
    empty, nothing is sent and nothing else changes in the dispatcher;
    when the flag is clear and requests are waiting, exactly the oldest
    one is sent and the others stay queued. *)
Theorem timer_sends_the_oldest_request_if_idle :
  forall s n delay,
    nth_error (timers s) n = Some delay ->
    let s' := exec (occur (EvTimer n)) s in
    timers s' = list_remove n (timers s)
    /\ (isFetching (wf s) = true \/ queue (wf s) = [] ->
        wf s' = wf s /\ exchanged s' = exchanged s /\ inflight s' = inflight s)
    /\ (forall r rest,
           isFetching (wf s) = false -> queue (wf s) = r :: rest ->
           queue (wf s') = rest
           /\ isFetching (wf s') = true
           /\ exchanged s' = exchanged s ++ [exchange_of (token (wf s)) r]
           /\ List.length (inflight s') = S (List.length (inflight s))).
Proof.
  intros s n delay Hn. cbv zeta. rewrite (occur_timer s n delay Hn).
  set (s0 := set_timers (list_remove n) s).
  split; [|split].
  - destruct (isFetching (wf s)) eqn:Hf;
      [|destruct (queue (wf s)) as [|r rest] eqn:Hq].
    + rewrite (request_idle s0) by (left; exact Hf). reflexivity.
    + rewrite (request_idle s0) by (right; exact Hq). reflexivity.
    + now destruct (request_dispatches s0 r rest Hf Hq) as (_ & _ & _ & _ & Ht).
  - intro H. rewrite (request_idle s0) by exact H. repeat split.
  - intros r rest Hf Hq.
    destruct (request_dispatches s0 r rest Hf Hq) as (H1 & H2 & H3 & H4 & _).
    repeat split; try assumption.
    rewrite H4, length_app. cbn. lia.
Qed.

(** The timer set for the second request: when it fires first, it sends
    that request; when it fires after a third call has already sent that
    request, nothing more is sent and the third request stays queued. *)
Lemma timer_sends_witness :
  exists s0 s,
    run 20 [ Call (CallFetch (inr "a")); Call (CallFetch (inr "b"));
             Event (EvResponse 0 (json_response 200 (Some "0")
                                    (PJson (JObj [])))) ]
      (new_WebflowConnection "token" ENGLISH) = Some s0
    /\ run 20 [ Call (CallFetch (inr "c")) ] s0 = Some s
    /\ nth_error (timers s0) 0 = Some (JNum 60000%Q)
    /\ isFetching (wf s0) = false
    /\ map (fun r => endpoint (options r)) (queue (wf s0)) = ["b"]
    /\ map url (exchanged (exec (occur (EvTimer 0)) s0))
       = [(api_base ++ "a")%string; (api_base ++ "b")%string]
    /\ queue (wf (exec (occur (EvTimer 0)) s0)) = []
    /\ nth_error (timers s) 0 = Some (JNum 60000%Q)
    /\ isFetching (wf s) = true
    /\ map url (exchanged (exec (occur (EvTimer 0)) s))
       = [(api_base ++ "a")%string; (api_base ++ "b")%string]
    /\ map (fun r => endpoint (options r))
         (queue (wf (exec (occur (EvTimer 0)) s))) = ["c"]
    /\ timers (exec (occur (EvTimer 0)) s) = [].
Proof.
  evaluate (run 20 [ Call (CallFetch (inr "a")); Call (CallFetch (inr "b"));
                     Event (EvResponse 0 (json_response 200 (Some "0")
                                            (PJson (JObj [])))) ]
              (new_WebflowConnection "token" ENGLISH)) E0.
  match type of E0 with
  | _ = Some ?s0 =>
      exists s0;
      pose proof (timer_sends_the_oldest_request_if_idle s0 0 (JNum 60000%Q)
                    eq_refl) as P0;
      evaluate (run 20 [ Call (CallFetch (inr "c")) ] s0) E
  end.
  match type of E with
  | _ = Some ?s =>
      exists s;
      pose proof (timer_sends_the_oldest_request_if_idle s 0 (JNum 60000%Q)
                    eq_refl) as P
  end.
  cbv zeta in P0, P. destruct P0 as (_ & _ & Hsend). destruct P as (Ht & Hidle & _).
  destruct (Hsend _ _ eq_refl eq_refl) as (Hq0 & _ & Hx0 & _).
  destruct Hidle as (Hw & Hx & _); [left; reflexivity|].
  split; [exact E0|]. split; [exact E|].
  do 3 (split; [reflexivity|]).
  split; [rewrite Hx0; reflexivity|]. split; [exact Hq0|].
  do 2 (split; [reflexivity|]).
  split; [rewrite Hx; reflexivity|].
  split; [rewrite Hw; reflexivity|].
  rewrite Ht. reflexivity.
Defined.

(** ** [I18n.format] and [I18n.formatSpecial] *)

Lemma array_get_index {A} (a : list A) (k : nat) :
  I18n.array_get a (I18n.minus_one (JNum (inject_Z (Z.of_nat (S k)))))
  = nth_error a k.
Proof.
  unfold I18n.minus_one.
  replace (inject_Z (Z.of_nat (S k)) - 1)%Q with (inject_Z (Z.of_nat k)).
  - rewrite Qred_inject_Z. unfold I18n.array_get, inject_Z. cbn [Qden Qnum].
    replace (0 <=? Z.of_nat k)%Z with true by (symmetry; apply Z.leb_le; lia).
    cbn. now rewrite Nat2Z.id.
  - unfold inject_Z, Qminus, Qplus, Qopp. cbn [Qnum Qden Pos.mul].
    f_equal. lia.
Qed.

(** The argument a placeholder asks for: the one its digits name when
    they denote a number other than 0, the one the counter names
    otherwise. *)
Lemma argument_spec args number i matched :
  I18n.digits_only number = true ->
  (decimal_value (list_ascii_of_string number) < 2 ^ 53)%Z ->
  I18n.argument args number (S i) matched
  = I18n.filler args
      (if (decimal_value (list_ascii_of_string number) =? 0)%Z then i
       else pred (Z.to_nat (decimal_value (list_ascii_of_string number))))
      matched.
Proof.
  intros Hd Hb. unfold I18n.argument, I18n.filler.
  set (ds := list_ascii_of_string number) in *.
  assert (N : Number (Some number) = JNum (inject_Z (decimal_value ds))).
  { destruct number as [|c number]; [reflexivity|].
    rewrite <- (string_of_list_ascii_of_string (String c number)).
    fold ds.
    apply Number_digits; [subst ds; discriminate | exact Hd | exact Hb]. }
  rewrite N. pose proof (decimal_value_nonneg ds) as Hn.
  set (n := decimal_value ds) in *.
  unfold I18n.or_number.
  assert (Q : Qeq_bool (inject_Z n) 0 = (n =? 0)%Z).
  { unfold Qeq_bool, inject_Z. cbn. now rewrite Z.mul_1_r. }
  rewrite Q. destruct (n =? 0)%Z eqn:E.
  - now rewrite array_get_index.
  - apply Z.eqb_neq in E.
    replace n with (Z.of_nat (S (pred (Z.to_nat n)))) at 1 by lia.
    now rewrite array_get_index.
Qed.

(** Text without [%] is copied. *)
Lemma replace_literal tags cb i l s :
  I18n.without "%" l = true ->
  I18n.replace_placeholders tags cb 0 i (l ++ s)
  = match I18n.replace_placeholders tags cb 0 i s with
    | inl e => inl e
    | inr out => inr (l ++ out)%string
    end.
Proof.
  induction l as [|c l IH]; intro H; cbn [append].
  - destruct (I18n.replace_placeholders _ _ _ _ _); reflexivity.
  - cbn [I18n.without] in H. apply andb_prop in H. destruct H as [Hc Hl].
    cbn [I18n.replace_placeholders].
    destruct (Ascii.eqb c "%"); [discriminate|].
    rewrite (IH Hl).
    destruct (I18n.replace_placeholders tags cb 0 i s); reflexivity.
Qed.

Lemma replace_literal_end tags cb i l :
  I18n.without "%" l = true ->
  I18n.replace_placeholders tags cb 0 i l = inr l.
Proof.
  intro H. rewrite <- (append_empty_r l) at 1.
  rewrite (replace_literal tags cb i l "" H). cbn. now rewrite append_empty_r.
Qed.

(** Passing over the code units of a placeholder. *)
Lemma replace_skip tags cb i l s :
  I18n.replace_placeholders tags cb (String.length l) i (l ++ s)
  = I18n.replace_placeholders tags cb 0 i s.
Proof.
  induction l as [|c l IH]; cbn [String.length append]; [reflexivity|].
  cbn [I18n.replace_placeholders]. exact IH.
Qed.

(** A run of digits followed by a tag is a placeholder. *)
Lemma placeholder_digits tags number tag s :
  I18n.digits_only number = true ->
  existsb (Ascii.eqb tag) tags = true ->
  (forall c, is_decimal_digit c = true -> existsb (Ascii.eqb c) tags = false) ->
  I18n.placeholder tags (number ++ String tag s)
  = Some (number, tag, S (String.length number)).
Proof.
  intros Hd Ht Hdt. induction number as [|c number IH]; cbn [append].
  - cbn [I18n.placeholder]. now rewrite Ht.
  - unfold I18n.digits_only in Hd. cbn in Hd. apply andb_prop in Hd.
    destruct Hd as [Hc Hd]. cbn [I18n.placeholder].
    rewrite (Hdt c Hc), Hc, (IH Hd). reflexivity.
Qed.

Lemma digit_is_no_tag_s c :
  is_decimal_digit c = true -> existsb (Ascii.eqb c) ["s"%char] = false.
Proof.
  intro H. cbn. destruct (Ascii.eqb_spec c "s") as [->|]; [discriminate H|].
  reflexivity.
Qed.

(** [format] never throws. *)
Lemma replace_returns tags (f : nat -> string -> string -> ascii -> string) s :
  forall skip i,
    exists out,
      I18n.replace_placeholders tags (fun i m n t => inr (f i m n t)) skip i s
      = inr out.
Proof.
  induction s as [|c s IH]; intros skip i; cbn [I18n.replace_placeholders].
  - now eexists.
  - destruct skip as [|k]; [|apply IH].
    destruct (if Ascii.eqb c "%" then I18n.placeholder tags s else None)
      as [[[number tag] n]|].
    + destruct (IH n (S i)) as [out ->]. now eexists.
    + destruct (IH 0 i) as [out ->]. now eexists.
Qed.

Lemma format_returns_never_throws formatter args :
  exists out, snd (I18n.format formatter args) = inr out.
Proof.
  apply (replace_returns ["s"%char] (fun i m n _ => I18n.argument args n i m)).
Qed.

(** X22.  [format] on a string writes one line to the console (the word
    Formatting, the formatter and the arguments), never throws, and
    returns a formatter without any [%] as it is, whatever the
    arguments. *)
Theorem format_returns_and_copies_plain_text :
  forall formatter args,
    fst (I18n.format formatter args) = [I18n.Formatting formatter args]
    /\ (exists out, snd (I18n.format formatter args) = inr out)
    /\ (I18n.without "%" formatter = true ->
        snd (I18n.format formatter args) = inr formatter).
Proof.
  intros formatter args. split; [reflexivity|]. split.
  - apply format_returns_never_throws.
  - intro H. apply replace_literal_end, H.
Qed.

Lemma format_copies_witness :
  I18n.without "%" "No classes today" = true
  /\ snd (I18n.format "No classes today" ["Monday"]) = inr "No classes today".
Proof.
  split; [reflexivity|].
  now apply (format_returns_and_copies_plain_text "No classes today" ["Monday"]).
Defined.

Lemma format_template args :
  forall rest first i,
    Forall (fun l => I18n.without "%" l = true) (first :: rest) ->
    I18n.replace_placeholders ["s"%char]
      (fun i matched number _ => inr (I18n.argument args number i matched))
      0 i (I18n.template first rest)
    = inr (I18n.filled args i first rest).
Proof.
  induction rest as [|next rest IH]; intros first i H;
    cbn [I18n.template I18n.filled].
  - apply replace_literal_end. now inversion H.
  - inversion H as [|? ? Hf Hr]; subst.
    rewrite (replace_literal _ _ _ _ _ Hf).
    cbn [append I18n.replace_placeholders Ascii.eqb Bool.eqb I18n.placeholder
         existsb orb].
    cbn [Ascii.eqb Bool.eqb andb orb].
    rewrite (argument_spec args "" i "%s" eq_refl eq_refl).
    cbn [list_ascii_of_string].
    change (decimal_value [] =? 0)%Z with true. cbv iota.
    rewrite (IH next (S i) Hr). reflexivity.
Qed.

(** X23.  [format] on literal texts joined by [%s] (the texts holding
    no [%]) fills the placeholders from left to right: the k-th
    placeholder is replaced with the k-th argument, and it is left as
    [%s] when there is no k-th argument or when that argument is the
    empty string; the texts between the placeholders are copied. *)
Theorem format_fills_placeholders_in_order :
  forall first rest args,
    Forall (fun l => I18n.without "%" l = true) (first :: rest) ->
    snd (I18n.format (I18n.template first rest) args)
    = inr (I18n.filled args 0 first rest).
Proof. intros first rest args H. apply format_template, H. Qed.

Lemma format_fills_witness :
  Forall (fun l => I18n.without "%" l = true) ["My "; " is "; ""; "!"]
  /\ snd (I18n.format "My %s is %s%s!" ["name"; ""]) = inr "My name is %s%s!".
Proof.
  assert (H : Forall (fun l => I18n.without "%" l = true)
                ["My "; " is "; ""; "!"]) by (repeat constructor).
  split; [exact H|].
  exact (format_fills_placeholders_in_order "My " [" is "; ""; "!"]
           ["name"; ""] H).
Defined.

Lemma append_assoc (a b c : string) :
  ((a ++ b) ++ c)%string = (a ++ (b ++ c))%string.
Proof. induction a as [|x a IH]; cbn; [reflexivity | now rewrite IH]. Qed.

Lemma length_append (a b : string) :
  String.length (a ++ b) = String.length a + String.length b.
Proof. induction a as [|x a IH]; cbn; [reflexivity | now rewrite IH]. Qed.

(** X24.  A placeholder with digits, [%<n>s], between two texts without
    [%]: it is replaced with the n-th argument (counted from 1), whatever
    its place, when the digits denote a number n other than 0; digits
    that denote 0 behave as no digits and, this being the first
    placeholder, ask for the first argument.  A missing or empty
    argument leaves the placeholder as written, digits included.
    (Numbers below 2^53, which a double holds exactly.) *)
Theorem format_numbered_placeholder :
  forall before number after args,
    I18n.without "%" before = true -> I18n.without "%" after = true ->
    I18n.digits_only number = true ->
    (decimal_value (list_ascii_of_string number) < 2 ^ 53)%Z ->
    let n := decimal_value (list_ascii_of_string number) in
    let placeholder := ("%" ++ number ++ "s")%string in
    snd (I18n.format (before ++ placeholder ++ after) args)
    = inr (before
             ++ I18n.filler args (if (n =? 0)%Z then 0 else pred (Z.to_nat n))
                  placeholder
             ++ after)%string.
Proof.
  intros before number after args Hb Ha Hd Hlt n placeholder.
  unfold I18n.format. cbn [snd]. rewrite (replace_literal _ _ _ _ _ Hb).
  subst placeholder. cbn [append]. rewrite append_assoc. cbn [append].
  cbn [I18n.replace_placeholders].
  change (Ascii.eqb "%" "%") with true. cbv iota.
  rewrite (placeholder_digits ["s"%char] number "s" after Hd eq_refl
             digit_is_no_tag_s).
  rewrite (argument_spec args number 0 _ Hd Hlt). fold n.
  replace (S (String.length number)) with (String.length (number ++ "s"))
    by (rewrite length_append; cbn; lia).
  change (number ++ String "s" after)%string
    with (number ++ ("s" ++ after))%string.
  rewrite <- append_assoc, replace_skip, (replace_literal_end _ _ _ _ Ha).
  reflexivity.
Qed.

Lemma format_numbered_witness :
  snd (I18n.format "Hello %2s" ["World"; "There!"]) = inr "Hello There!".
Proof.
  exact (format_numbered_placeholder "Hello " "2" "" ["World"; "There!"]
           eq_refl eq_refl eq_refl eq_refl).
Defined.

Lemma language_check locale :
  In locale I18n.languages ->
  negb (existsb (String.eqb locale) I18n.languages) = false.
Proof.
  intro H. apply negb_false_iff, existsb_exists. exists locale.
  split; [exact H | apply String.eqb_refl].
Qed.

(** X25.  [formatSpecial] on a string whose first rest argument is
    missing or is not one of [english], [spanish], [chinese] writes its
    line to the console and throws the error [No locale provided]:
    nothing is formatted. *)
Theorem formatSpecial_requires_a_locale :
  forall cache formatter localeArgs,
    (forall locale, hd_error localeArgs = Some locale ->
                    ~ In locale I18n.languages) ->
    I18n.formatSpecial cache formatter localeArgs
    = ([I18n.FormattingSpecial formatter (hd_error localeArgs)
          (tl localeArgs)],
       inl (I18n.Error "No locale provided")).
Proof.
  intros cache formatter [|locale args] H; [reflexivity|].
  unfold I18n.formatSpecial. cbn [hd_error tl].
  destruct (existsb (String.eqb locale) I18n.languages) eqn:E; [|reflexivity].
  apply existsb_exists in E. destruct E as (l & Hin & Heq).
  apply String.eqb_eq in Heq. subst l. now destruct (H locale eq_refl).
Qed.

(** The example of the documentation with the locale left out. *)
Lemma formatSpecial_requires_witness :
  snd (I18n.formatSpecial I18n.sample_cache "%s is open %w"
         ["Ramen"; "Monday through Friday"])
  = inl (I18n.Error "No locale provided").
Proof.
  rewrite formatSpecial_requires_a_locale; [reflexivity|].
  intros locale H. injection H as <-. cbn.
  intros [H|[H|[H|H]]]; discriminate || exact H.
Defined.

Lemma placeholder_tag_s s number tag n :
  I18n.placeholder ["s"%char] s = Some (number, tag, n) -> tag = "s"%char.
Proof.
  revert number n. induction s as [|c s IH]; intros number n; cbn; [discriminate|].
  destruct (Ascii.eqb_spec c "s") as [->|Hc]; cbn.
  - now intros [= _ <- _].
  - destruct (is_decimal_digit c); [|discriminate].
    destruct (I18n.placeholder ["s"%char] s) as [[[number' tag'] n']|];
      [|discriminate].
    intros [= _ <- _]. now apply (IH number' n').
Qed.

Lemma placeholder_without_w s :
  I18n.without "w" s = true ->
  I18n.placeholder ["s"%char; "w"%char] s = I18n.placeholder ["s"%char] s.
Proof.
  induction s as [|c s IH]; intro H; cbn [I18n.placeholder]; [reflexivity|].
  cbn [I18n.without] in H. apply andb_prop in H. destruct H as [Hc Hs].
  apply negb_true_iff in Hc. cbn [existsb]. rewrite Hc, (IH Hs). reflexivity.
Qed.

Lemma replace_without_w
  (cb2 cb1 : nat -> string -> string -> ascii -> I18n.thrown + string) s :
  (forall i matched number,
      cb2 i matched number "s"%char = cb1 i matched number "s"%char) ->
  forall skip i,
    I18n.without "w" s = true ->
    I18n.replace_placeholders ["s"%char; "w"%char] cb2 skip i s
    = I18n.replace_placeholders ["s"%char] cb1 skip i s.
Proof.
  intro Hcb. induction s as [|c s IH]; intros skip i H; [reflexivity|].
  cbn [I18n.without] in H. apply andb_prop in H. destruct H as [Hc Hs].
  cbn [I18n.replace_placeholders]. destruct skip as [|k]; [|apply IH, Hs].
  rewrite (placeholder_without_w s Hs).
  destruct (if Ascii.eqb c "%" then I18n.placeholder ["s"%char] s else None)
    as [[[number tag] n]|] eqn:E.
  - assert (tag = "s"%char) as ->.
    { destruct (Ascii.eqb c "%"); [|discriminate].
      now apply (placeholder_tag_s s number tag n). }
    now rewrite Hcb, (IH n (S i) Hs).
  - now rewrite (IH 0 i Hs).
Qed.

(** X26.  With a locale that is one of the three languages and a
    formatter in which the letter [w] does not occur, [formatSpecial]
    returns what [format] returns on the same formatter and arguments;
    the cache is not read. *)
Theorem formatSpecial_without_w_is_format :
  forall cache formatter locale args,
    In locale I18n.languages ->
    I18n.without "w" formatter = true ->
    snd (I18n.formatSpecial cache formatter (locale :: args))
    = snd (I18n.format formatter args).
Proof.
  intros cache formatter locale args Hl Hw.
  unfold I18n.formatSpecial, I18n.format. cbn [hd_error tl snd].
  rewrite (language_check locale Hl).
  apply replace_without_w; [reflexivity | exact Hw].
Qed.

Lemma formatSpecial_without_w_witness :
  In "chinese" I18n.languages
  /\ I18n.without "w" "%s: %2s" = true
  /\ snd (I18n.formatSpecial [] "%s: %2s" ["chinese"; "Ke"; "Zhouyi"])
     = inr "Ke: Zhouyi".
Proof.
  assert (H : In "chinese" I18n.languages) by (cbn; auto).
  split; [exact H|]. split; [reflexivity|].
  rewrite (formatSpecial_without_w_is_format [] "%s: %2s" "chinese"
             ["Ke"; "Zhouyi"] H eq_refl).
  reflexivity.
Defined.

Lemma lower_idempotent c : I18n.lower (I18n.lower c) = I18n.lower c.
Proof.
  destruct c as [[] [] [] [] [] [] [] []]; reflexivity.
Qed.

Lemma matches_lower name s :
  I18n.matches_ignoring_case name (I18n.toLowerCase s)
  = I18n.matches_ignoring_case name s.
Proof.
  revert s. induction name as [|a name IH]; intros [|b s]; cbn;
    try reflexivity.
  now rewrite lower_idempotent, IH.
Qed.

Lemma day_at_lower names s :
  forall index,
    I18n.day_at names index (I18n.toLowerCase s) = I18n.day_at names index s.
Proof.
  induction names as [|name names IH]; intro index; cbn; [reflexivity|].
  now rewrite matches_lower, IH.
Qed.

Lemma length_toLowerCase s :
  String.length (I18n.toLowerCase s) = String.length s.
Proof. induction s as [|c s IH]; cbn; [reflexivity | now rewrite IH]. Qed.

Lemma take_all s : I18n.take (String.length s) s = s.
Proof. induction s as [|c s IH]; cbn; [reflexivity | now rewrite IH]. Qed.

Lemma replace_days_skip cb s :
  I18n.replace_days cb (String.length s) s = inr "".
Proof. induction s as [|c s IH]; cbn; [reflexivity | exact IH]. Qed.

(** [%w] on an argument that is the name of a day. *)
Lemma replace_days_name cb k name text :
  nth_error I18n.days k = Some name ->
  I18n.toLowerCase text = name ->
  I18n.replace_days cb 0 text
  = match cb text with
    | inl e => inl e
    | inr replacement => inr replacement
    end.
Proof.
  intros Hk Ht.
  assert (Hd : I18n.day_at I18n.days 0 text = Some (k, name)).
  { rewrite <- day_at_lower, Ht.
    do 7 (destruct k as [|k]; [injection Hk as <-; reflexivity|]).
    destruct k; discriminate. }
  assert (Hl : String.length text = String.length name)
    by (now rewrite <- Ht, length_toLowerCase).
  destruct text as [|c rest].
  { cbn in Ht. subst name.
    do 7 (destruct k as [|k]; [discriminate|]). destruct k; discriminate. }
  cbn [I18n.replace_days]. rewrite Hd, <- Hl, take_all.
  destruct (cb (String c rest)) as [e|replacement]; [reflexivity|].
  cbn [String.length pred]. rewrite replace_days_skip.
  now rewrite append_empty_r.
Qed.

(** X27.  The formatter [%w] applied to an argument that is the English
    name of a day of the week in any letter case: the name is looked up
    in the cache under [general.day<k>], k being the number of the day
    counted from Sunday as 0.  The result is the entry of that record
    for the locale; it is the text [undefined] when the record has no
    such entry, and the call throws a [TypeError] when the cache has no
    such key. *)
Theorem formatSpecial_translates_a_day :
  forall cache locale text k name,
    In locale I18n.languages ->
    nth_error I18n.days k = Some name ->
    I18n.toLowerCase text = name ->
    snd (I18n.formatSpecial cache "%w" [locale; text])
    = match I18n.get ("general.day" ++ string_of_Z (Z.of_nat k)) cache with
      | None => inl (I18n.TypeError "Cannot read properties of undefined")
      | Some record =>
          match I18n.get locale record with
          | Some translation => inr translation
          | None => inr "undefined"
          end
      end.
Proof.
  intros cache locale text k name Hl Hk Ht.
  assert (Hne : String.eqb text "" = false).
  { destruct text; [|reflexivity]. cbn in Ht. subst name.
    do 7 (destruct k as [|k]; [discriminate|]). destruct k; discriminate. }
  assert (Hi : I18n.indexOf name I18n.days 0 = Z.of_nat k).
  { do 7 (destruct k as [|k]; [injection Hk as <-; reflexivity|]).
    destruct k; discriminate. }
  unfold I18n.formatSpecial. cbn [hd_error tl snd].
  rewrite (language_check locale Hl).
  cbn [I18n.replace_placeholders I18n.placeholder existsb].
  change (Ascii.eqb "%" "%") with true.
  change (Ascii.eqb "w" "s") with false.
  change (Ascii.eqb "w" "w") with true.
  cbn [orb]. cbv beta iota zeta.
  cbn [Ascii.eqb Bool.eqb andb append].
  rewrite (argument_spec [text] "" 0 "%w" eq_refl eq_refl).
  cbn [list_ascii_of_string]. change (decimal_value [] =? 0)%Z with true.
  cbv iota. unfold I18n.filler. cbn [nth_error]. rewrite Hne.
  rewrite (replace_days_name _ k name text Hk Ht).
  unfold I18n.translate_day. rewrite Ht, Hi.
  destruct (I18n.get _ cache) as [record|]; [|reflexivity].
  destruct (I18n.get locale record); cbn; now rewrite ?append_empty_r.
Qed.

Lemma formatSpecial_translates_witness :
  (In "spanish" I18n.languages
   /\ nth_error I18n.days 6 = Some "saturday"
   /\ I18n.toLowerCase "sAtUrDaY" = "saturday")
  /\ snd (I18n.formatSpecial I18n.sample_cache "%w" ["spanish"; "sAtUrDaY"])
     = inr "Sabado"
  /\ snd (I18n.formatSpecial I18n.sample_cache "%w" ["spanish"; "Friday"])
     = inl (I18n.TypeError "Cannot read properties of undefined").
Proof.
  assert (H : In "spanish" I18n.languages) by (cbn; auto).
  split; [split; [exact H | split; reflexivity]|]. split.
  - rewrite (formatSpecial_translates_a_day I18n.sample_cache "spanish"
               "sAtUrDaY" 6 "saturday" H eq_refl eq_refl).
    reflexivity.
  - rewrite (formatSpecial_translates_a_day I18n.sample_cache "spanish"
               "Friday" 5 "friday" H eq_refl eq_refl).
    reflexivity.
Defined.

Lemma format_record_missing_key formatter record key :
  In key (map fst formatter) -> I18n.get key record = None ->
  exists msg,
    snd (I18n.format_record formatter (Some record))
    = inl (I18n.TypeError msg).
Proof.
  unfold I18n.format_record.
  induction formatter as [|[key' value] formatter IH]; intros Hin Hg;
    [destruct Hin|].
  cbn [I18n.format_entries].
  destruct (I18n.get key' record) as [args|] eqn:Hg'; [|now eexists].
  cbn [map fst] in Hin. destruct Hin as [<-|Hin]; [congruence|].
  destruct (format_returns_never_throws value args) as [formatted Hf].
  destruct (I18n.format value args) as [logs [e|formatted']];
    cbn [snd] in Hf; [discriminate|].
  destruct (IH Hin Hg) as [msg Hm].
  destruct (I18n.format_entries _ formatter (Some record))
    as [logs' [e|entries]]; cbn [snd] in Hm; [|discriminate].
  injection Hm as ->. now eexists.
Qed.

(** X28.  [format] on an object whose every key is a key of the record
    of arguments returns an object with the same keys in the same order,
    each value being the value of the formatter formatted with the
    arguments listed under its key.  When a key of the formatter is
    missing from the record of arguments the call throws a
    [TypeError]. *)
Theorem format_record_formats_every_entry :
  forall formatter record,
    ((forall key, In key (map fst formatter) -> I18n.get key record <> None) ->
     exists out,
       snd (I18n.format_record formatter (Some record)) = inr out
       /\ map fst out = map fst formatter
       /\ Forall2 (fun entry formatted =>
                     exists args,
                       I18n.get (fst entry) record = Some args
                       /\ snd (I18n.format (snd entry) args)
                          = inr (snd formatted))
            formatter out)
    /\ (forall key,
           In key (map fst formatter) -> I18n.get key record = None ->
           exists msg,
             snd (I18n.format_record formatter (Some record))
             = inl (I18n.TypeError msg)).
Proof.
  intros formatter record.
  split; [|intros key; apply format_record_missing_key].
  unfold I18n.format_record.
  induction formatter as [|[key value] formatter IH]; intro H.
  - exists []. repeat split. constructor.
  - cbn [I18n.format_entries].
    destruct (I18n.get key record) as [args|] eqn:Hg;
      [|now destruct (H key (or_introl eq_refl))].
    destruct (format_returns_never_throws value args) as [formatted Hf].
    destruct (I18n.format value args) as [logs [e|formatted']] eqn:E;
      cbn [snd] in Hf; [discriminate|]. injection Hf as ->.
    destruct IH as (out & Ho & Hk & Hall).
    { intros k Hk. apply H. now right. }
    destruct (I18n.format_entries _ formatter (Some record))
      as [logs' [e|entries]]; cbn [snd] in Ho; [discriminate|].
    injection Ho as ->.
    exists ((key, formatted) :: out). cbn [snd map fst].
    split; [reflexivity|]. split; [now rewrite Hk|].
    constructor; [|exact Hall].
    exists args. cbn [fst snd]. split; [exact Hg | now rewrite E].
Qed.

(** The example of the documentation. *)
Lemma format_record_witness :
  exists out,
    snd (I18n.format_record
           [("key1", "Hello %2s"); ("key2", "Goodbye %s")]
           (Some [("key1", ["World"; "There!"]); ("key2", [])]))
    = inr out
    /\ map fst out = ["key1"; "key2"].
Proof.
  destruct (format_record_formats_every_entry
              [("key1", "Hello %2s"); ("key2", "Goodbye %s")]
              [("key1", ["World"; "There!"]); ("key2", [])]) as [H _].
  destruct H as (out & Ho & Hk & _).
  - cbn. intros key [<-|[<-|[]]]; discriminate.
  - exists out. split; [exact Ho | exact Hk].
Defined.

Lemma formatSpecial_returns_locale cache formatter locale args out :
  snd (I18n.formatSpecial cache formatter (locale :: args)) = inr out ->
  In locale I18n.languages.
Proof.
  unfold I18n.formatSpecial. cbn [hd_error tl snd].
  destruct (existsb (String.eqb locale) I18n.languages) eqn:E;
    [|discriminate].
  intros _. apply existsb_exists in E. destruct E as (l & Hin & Heq).
  apply String.eqb_eq in Heq. now subst l.
Qed.

(** X29.  When [formatSpecial] on an object returns, the object returned
    has the keys of the formatter in the same order, every key is one of
    the three languages, and each value is the value of the formatter
    formatted by [formatSpecial] with its key as the locale and the
    arguments listed under that key. *)
Theorem formatSpecial_record_formats_each_entry_in_its_locale :
  forall cache formatter record out,
    snd (I18n.formatSpecial_record cache formatter (Some record)) = inr out ->
    map fst out = map fst formatter
    /\ Forall (fun entry => In (fst entry) I18n.languages) formatter
    /\ Forall2 (fun entry formatted =>
                  exists args,
                    I18n.get (fst entry) record = Some args
                    /\ snd (I18n.formatSpecial cache (snd entry)
                              (fst entry :: args))
                       = inr (snd formatted))
         formatter out.
Proof.
  intros cache formatter record. unfold I18n.formatSpecial_record.
  induction formatter as [|[key value] formatter IH]; intros out H.
  - cbn in H. injection H as <-. repeat split; constructor.
  - cbn [I18n.format_entries] in H.
    destruct (I18n.get key record) as [args|] eqn:Hg; [|discriminate].
    destruct (I18n.formatSpecial cache value (key :: args))
      as [logs [e|formatted]] eqn:E; [discriminate|].
    destruct (I18n.format_entries _ formatter (Some record))
      as [logs' [e|entries]]; [discriminate|].
    cbn [snd] in H. injection H as <-.
    destruct (IH entries eq_refl) as (Hk & Hl & Hall).
    cbn [map fst]. split; [now rewrite Hk|]. split.
    + constructor; [|exact Hl]. cbn [fst].
      apply (formatSpecial_returns_locale cache value key args formatted).
      now rewrite E.
    + constructor; [|exact Hall].
      exists args. cbn [fst snd]. split; [exact Hg | now rewrite E].
Qed.

Lemma formatSpecial_record_witness :
  snd (I18n.formatSpecial_record I18n.sample_cache
         [("english", "%s is open %w"); ("spanish", "%s es abierto %w")]
         (Some [("english", ["Ramen"; "Monday"]);
                ("spanish", ["Ramen"; "tuesday y sAtUrDaY"])]))
  = inr [("english", "Ramen is open Monday");
         ("spanish", "Ramen es abierto Martes y Sabado")]
  /\ Forall (fun entry => In (fst entry) I18n.languages)
       [("english", "%s is open %w"); ("spanish", "%s es abierto %w")].
Proof.
  split; [reflexivity|].
  now apply (formatSpecial_record_formats_each_entry_in_its_locale
               I18n.sample_cache
               [("english", "%s is open %w"); ("spanish", "%s es abierto %w")]
               [("english", ["Ramen"; "Monday"]);
                ("spanish", ["Ramen"; "tuesday y sAtUrDaY"])]
               [("english", "Ramen is open Monday");
                ("spanish", "Ramen es abierto Martes y Sabado")] eq_refl).
Defined.

(** ** [createItemAllLocales] *)

Lemma lookup_locale_entry d :
  NoDup (Object_keys d) ->
  forall e, In e d -> lookup_locale (fst e) d = Some (snd e).
Proof.
  induction d as [|[k x] d IH]; intros Hn e Hin; [destruct Hin|].
  cbn in Hn. apply NoDup_cons_iff in Hn. destruct Hn as [Hk Hn].
  cbn [lookup_locale]. destruct Hin as [<-|Hin].
  - cbn. now rewrite Locales_eqb_refl.
  - destruct (Locales_eqb_spec (fst e) k) as [<-|Hne].
    + destruct Hk. apply in_map_iff. now exists e.
    + now apply IH.
Qed.

(** The loop of the callback of [createItemAllLocales], when [find] has
    found the anchor: one request per entry other than the primary
    locale's. *)
Lemma update_locales_submitted c m primary d es :
  (forall e, In e es -> lookup_locale (fst e) d = Some (snd e)) ->
  forall s, exists ps s' added,
    update_locales c (Some m) primary d (map fst es) s = (Ok ps, s')
    /\ submitted s' = submitted s ++ added
    /\ map options added
       = map (fun e =>
                {| endpoint := ("collections/" ++ c ++ "/items/" ++ Item_id m)%string;
                   method := Some PATCH;
                   body := Some (JObj
                     [ ("isArchived", JBool (isArchived (snd e)));
                       ("isDraft", JBool (isDraft (snd e)));
                       ("fieldData",
                        js_of_PartialFieldData (fieldData (snd e)));
                       ("cmsLocaleId",
                        js_of_optional_locale
                          (cmsLocaleId (spread_locale (fst e) (snd e)))) ]) |})
           (secondary primary es).
Proof.
  induction es as [|e es IH]; intros Hl s.
  - exists [], s, []. now rewrite app_nil_r.
  - cbn [map update_locales secondary filter].
    destruct (Locales_eqb (fst e) primary); cbn [negb].
    + apply IH. intros e' He'. apply Hl. now right.
    + rewrite (Hl e (or_introl eq_refl)).
      unfold bind at 1.
      destruct (async_fetch_submits
                  (inl {| endpoint := ("collections/" ++ c ++ "/items/"
                                         ++ Item_id m ++ live_suffix false)%string;
                          method := Some PATCH;
                          body := Some (JObj
                            [ ("isArchived",
                               JBool (isArchived (spread_locale (fst e) (snd e))));
                              ("isDraft",
                               JBool (isDraft (spread_locale (fst e) (snd e))));
                              ("fieldData",
                               js_of_PartialFieldData
                                 (fieldData (spread_locale (fst e) (snd e))));
                              ("cmsLocaleId",
                               js_of_optional_locale
                                 (cmsLocaleId (spread_locale (fst e) (snd e)))) ]) |})
                  (fun p => ret (VPromise p)) s)
        as (p & s1 & h & E & H); [intro; keeps_auto|].
      unfold updateItem. rewrite E.
      destruct (IH (fun e' He' => Hl e' (or_intror He')) s1)
        as (ps & s2 & added & E2 & H2 & Ho).
      unfold bind at 1. rewrite E2. unfold ret.
      eexists _, _, (_ :: added). split; [reflexivity|].
      rewrite H2, H, <- app_assoc. split; [reflexivity|].
      cbn [map options options_of]. rewrite Ho.
      unfold live_suffix. now rewrite append_empty_r.
Qed.

(** X16.  In any state of the connection, when the list the bulk call
    returned holds an item in the primary locale (the anchor), the
    callback of [createItemAllLocales] pushes exactly one request per
    key of the locale map other than the primary locale, in key order,
    and returns the promise of their [Promise.all]: each request is a
    [PATCH] on [collections/<c>/items/<anchor id>] without the [/live]
    suffix, whose body carries [isArchived], [isDraft] and [fieldData]
    of that key's data and, as [cmsLocaleId], the [cmsLocaleId] of the
    data when it has one and the key otherwise.  (The keys of an object
    are distinct.) *)
Theorem createItemAllLocales_updates_one_patch_per_other_locale :
  forall s c d created m,
    NoDup (Object_keys d) ->
    find_main (PRIMARY_LOCALE (wf s)) created = Some m ->
    exists all added,
      fst (createItemAllLocales_updates c d (VBulk created) s)
      = Ok (VPromise all)
      /\ submitted (snd (createItemAllLocales_updates c d (VBulk created) s))
         = submitted s ++ added
      /\ map options added
         = map (fun e =>
                  {| endpoint := ("collections/" ++ c ++ "/items/"
                                    ++ Item_id m)%string;
                     method := Some PATCH;
                     body := Some (JObj
                       [ ("isArchived", JBool (isArchived (snd e)));
                         ("isDraft", JBool (isDraft (snd e)));
                         ("fieldData",
                          js_of_PartialFieldData (fieldData (snd e)));
                         ("cmsLocaleId",
                          js_of_optional_locale
                            (cmsLocaleId (spread_locale (fst e) (snd e)))) ]) |})
             (secondary (PRIMARY_LOCALE (wf s)) d).
Proof.
  intros s c d created m Hn Hm.
  rewrite (createItemAllLocales_updates_found c d created (Some m) s Hm).
  destruct (update_locales_submitted c m (PRIMARY_LOCALE (wf s)) d d
              (lookup_locale_entry d Hn) s)
    as (ps & s1 & added & E & H & Ho).
  pose proof (dispatch_promise_all (VItem m :: ps) s1) as K.
  apply (f_equal (fun d => snd (fst d))) in K. cbn [dispatch fst snd] in K.
  destruct (succeeds_promise_all (VItem m :: ps) s1) as [all S].
  unfold createItemAllLocales_found, Object_keys, bind, get. cbv beta iota.
  rewrite E.
  destruct (promise_all (VItem m :: ps) s1) as [[all'|e] s2];
    cbn [fst snd] in *; [|discriminate].
  exists all', added. unfold ret. cbn [fst snd].
  repeat split; [now rewrite K | exact Ho].
Qed.

Lemma createItemAllLocales_updates_witness :
  NoDup (Object_keys sample_locales)
  /\ find_main (PRIMARY_LOCALE (wf (new_WebflowConnection "token" SPANISH)))
       [sample_item "a" ENGLISH; sample_item "m" SPANISH]
     = Some (sample_item "m" SPANISH)
  /\ map (fun r => endpoint (options r))
       (submitted
          (snd (createItemAllLocales_updates "c" sample_locales
                  (VBulk [sample_item "a" ENGLISH; sample_item "m" SPANISH])
                  (new_WebflowConnection "token" SPANISH))))
     = ["collections/c/items/m"; "collections/c/items/m"].
Proof.
  assert (Hn : NoDup (Object_keys sample_locales)).
  { cbn. repeat constructor; cbn; intuition discriminate. }
  split; [exact Hn|]. split; [reflexivity|].
  destruct (createItemAllLocales_updates_one_patch_per_other_locale
              (new_WebflowConnection "token" SPANISH) "c" sample_locales
              [sample_item "a" ENGLISH; sample_item "m" SPANISH]
              (sample_item "m" SPANISH) Hn eq_refl)
    as (all & added & _ & Hs & Ho).
  rewrite Hs. cbn [submitted new_WebflowConnection app].
  rewrite <- (map_map options endpoint), Ho. reflexivity.
Defined.

Lemma update_locales_without_anchor c primary d keys s :
  existsb (fun k => negb (Locales_eqb k primary)) keys = true ->
  update_locales c None primary d keys s
  = (Throw (VTypeError "Cannot read properties of undefined"), s).
Proof.
  induction keys as [|k keys IH]; cbn [existsb update_locales];
    [discriminate|].
  destruct (Locales_eqb k primary); cbn [negb orb]; [exact IH | reflexivity].
Qed.

(** X17.  In any state of the connection, when the list the bulk call
    returned holds no item in the primary locale and the locale map has
    a key other than the primary locale, the callback of
    [createItemAllLocales] throws a [TypeError] (reading [mainItem.id])
    and leaves the state as it is: no update is pushed. *)
Theorem createItemAllLocales_updates_without_anchor_throws :
  forall s c d created,
    find_main (PRIMARY_LOCALE (wf s)) created = None ->
    secondary (PRIMARY_LOCALE (wf s)) d <> [] ->
    exists msg,
      createItemAllLocales_updates c d (VBulk created) s
      = (Throw (VTypeError msg), s).
Proof.
  intros s c d created Hm Hs. eexists.
  rewrite (createItemAllLocales_updates_found c d created None s Hm).
  unfold createItemAllLocales_found. unfold bind at 1 2. unfold get.
  cbv beta iota. rewrite update_locales_without_anchor; [reflexivity|].
  unfold Object_keys, secondary in *.
  induction d as [|e d IH]; cbn [map existsb filter] in *;
    [now destruct Hs|].
  destruct (Locales_eqb (fst e) _); cbn [negb orb] in *;
    [now apply IH | reflexivity].
Qed.

Lemma createItemAllLocales_updates_without_anchor_witness :
  find_main (PRIMARY_LOCALE (wf (new_WebflowConnection "token" ENGLISH)))
    [sample_item "x" SPANISH] = None
  /\ secondary (PRIMARY_LOCALE (wf (new_WebflowConnection "token" ENGLISH)))
       sample_locales <> []
  /\ exists msg,
      createItemAllLocales_updates "c" sample_locales
        (VBulk [sample_item "x" SPANISH])
        (new_WebflowConnection "token" ENGLISH)
      = (Throw (VTypeError msg), new_WebflowConnection "token" ENGLISH).
Proof.
  split; [reflexivity|]. split; [discriminate|].
  apply (createItemAllLocales_updates_without_anchor_throws
           (new_WebflowConnection "token" ENGLISH) "c" sample_locales
           [sample_item "x" SPANISH]); [reflexivity | discriminate].
Defined.

(** X18.  [createItemAllLocales] on a new connection, no other call
    being made, for a map with two keys, the primary locale and one
    other locale, in either order, when the bulk call is answered with a
    status of 299 or less and a list that holds no item in the primary
    locale: once the body has been read the promise returned rejects with
    a [TypeError]; the bulk call is the only exchange (no update, and no
    publish call even when [live] is set), nothing is left waiting and
    [console.log] is not called. *)
Theorem createItemAllLocales_without_anchor_rejects :
  forall tok primary c pd k d live rb created fuel (primary_first : bool),
    let itemData :=
      if primary_first then [(primary, pd); (k, d)]
      else [(k, d); (primary, pd)] in
    k <> primary ->
    successful rb (PBulk created) ->
    find_main primary created = None ->
    40 <= fuel ->
    exists s msg,
      run fuel [ Call (CallCreateItemAllLocales c itemData live);
                 Event (EvResponse 0 rb); Event (EvBody 0) ]
        (new_WebflowConnection tok primary) = Some s
      /\ pstatus (cell 0 s) = Rejected (VTypeError msg)
      /\ sent s = [bulk_exchange c itemData pd]
      /\ queue (wf s) = [] /\ inflight s = []
      /\ (forall v, ~ In (LogValue v) (console s)).
Proof.
  intros tok primary c pd k d live rb created fuel primary_first itemData
    Hk Hb Hm Hfuel.
  subst itemData.
  destruct primary_first, live, primary, k; try congruence;
    (eexists _, _; split;
     [ apply run_more with (fuel := 40); [|exact Hfuel]; run_script
     | do 4 (split; [reflexivity|]);
       intros v Hin; cbn in Hin;
       repeat (destruct Hin as [Hin|Hin]; [discriminate|]); exact Hin ]).
Qed.

(** The other locale first, [live] set, an empty list as answer. *)
Lemma createItemAllLocales_without_anchor_witness :
  exists s msg,
    run 40 [ Call (CallCreateItemAllLocales "c"
                     [ (SPANISH, sample_partial "Clase" "Lunes");
                       (ENGLISH, sample_partial "Class" "Monday") ] true);
             Event (EvResponse 0 (json_response 200 (Some "59") (PBulk [])));
             Event (EvBody 0) ]
      (new_WebflowConnection "token" ENGLISH) = Some s
    /\ pstatus (cell 0 s) = Rejected (VTypeError msg)
    /\ wire s = [ (POST, (api_base ++ "collections/c/items/bulk")%string) ].
Proof.
  destruct (createItemAllLocales_without_anchor_rejects "token" ENGLISH "c"
              (sample_partial "Class" "Monday") SPANISH
              (sample_partial "Clase" "Lunes") true
              (json_response 200 (Some "59") (PBulk [])) [] 40 false)
    as (s & msg & R & Hp & Hs & _);
    [discriminate | split; [cbn; lia | reflexivity] | reflexivity | lia |].
  exists s, msg. split; [exact R|]. split; [exact Hp|].
  unfold wire. unfold sent in Hs.
  apply (f_equal (map (fun x => (fst (fst x), snd (fst x))))) in Hs.
  rewrite map_map in Hs. exact Hs.
Defined.

(** X19.  [createItemAllLocales] with [live] set on a new connection,
    no other call being made, for a map with the primary locale only,
    when the bulk call is answered with a status of 299 or less and a
    list that holds the anchor: in the turn in which that body is read
    the promise returned fulfils with the array of the anchor alone, no
    update is sent, and the publish call for the anchor's identifier is
    sent.  The outcome of the publish call does not reach the promise
    returned: when the publish call is answered with a status above 299,
    the promise stays fulfilled and [console.log] is not called; when it
    is answered with a status of 299 or less and a body that decodes,
    [console.log] is called with the decoded answer. *)
Theorem createItemAllLocales_publish_outcome :
  forall tok primary c pd rb created anchor rp fuel,
    successful rb (PBulk created) ->
    find_main primary created = Some anchor ->
    40 <= fuel ->
    exists s,
      run fuel [ Call (CallCreateItemAllLocales c [(primary, pd)] true);
                 Event (EvResponse 0 rb); Event (EvBody 0) ]
        (new_WebflowConnection tok primary) = Some s
      /\ pstatus (cell 0 s) = Fulfilled (VArray [VItem anchor])
      /\ sent s = [ bulk_exchange c [(primary, pd)] pd;
                    publish_exchange c (Item_id anchor) ]
      /\ ((status rp > 299)%Z ->
          exists s',
            run fuel [ Event (EvResponse 0 rp); Event (EvBody 0) ] s = Some s'
            /\ pstatus (cell 0 s') = Fulfilled (VArray [VItem anchor])
            /\ (forall v, ~ In (LogValue v) (console s')))
      /\ (forall v, (status rp <= 299)%Z -> decoded rp = inl v ->
          exists s',
            run fuel [ Event (EvResponse 0 rp); Event (EvBody 0) ] s = Some s'
            /\ pstatus (cell 0 s') = Fulfilled (VArray [VItem anchor])
            /\ In (LogValue v) (console s')).
Proof.
  intros tok primary c pd rb created anchor rp fuel Hb Hm Hfuel.
  destruct primary;
    (eexists; split;
     [ apply run_more with (fuel := 40); [|exact Hfuel]; run_script
     | do 2 (split; [reflexivity|]); split;
       [ intro Hs; destruct (decoded rp) as [v|e] eqn:Hd;
         (eexists; split;
          [ apply run_more with (fuel := 40); [|exact Hfuel]; run_script
          | split; [reflexivity|];
            intros v' Hin; cbn in Hin;
            repeat (destruct Hin as [Hin|Hin]; [discriminate|]); exact Hin ])
       | intros v Hs Hd; pose proof (decoded_not_promise _ _ Hd) as Hv;
         eexists; split;
         [ apply run_more with (fuel := 40); [|exact Hfuel]; run_script
         | split; [reflexivity|]; cbn; auto 10 ] ] ]).
Qed.

(** The publish call answered 400, as the comment in [Sync.ts] reports:
    the result is the anchor all the same. *)
Lemma createItemAllLocales_publish_witness :
  exists s s',
    run 40 [ Call (CallCreateItemAllLocales "c"
                     [(ENGLISH, sample_partial "Class" "Monday")] true);
             Event (EvResponse 0
                      (json_response 200 (Some "59")
                         (PBulk [sample_item "m" ENGLISH])));
             Event (EvBody 0) ]
      (new_WebflowConnection "token" ENGLISH) = Some s
    /\ run 40 [ Event (EvResponse 0
                         (json_response 400 (Some "58") validation_error));
                Event (EvBody 0) ] s = Some s'
    /\ pstatus (cell 0 s') = Fulfilled (VArray [VItem (sample_item "m" ENGLISH)]).
Proof.
  destruct (createItemAllLocales_publish_outcome "token" ENGLISH "c"
              (sample_partial "Class" "Monday")
              (json_response 200 (Some "59") (PBulk [sample_item "m" ENGLISH]))
              [sample_item "m" ENGLISH] (sample_item "m" ENGLISH)
              (json_response 400 (Some "58") validation_error) 40)
    as (s & R & _ & _ & Hf & _);
    [split; [cbn; lia | reflexivity] | reflexivity | lia |].
  destruct Hf as (s' & R' & Hp & _); [cbn; lia|].
  exists s, s'. split; [exact R|]. split; [exact R' | exact Hp].
Defined.

(** X20.  [createItemAllLocales] on a new connection, no other call
    being made, for a locale map with three keys (all locales, the
    primary one among them, in any key order), when the server answers
    the bulk call with a status of 299 or less and a list that holds the
    anchor, and answers each update with a status of 299 or less and an
    item.  In both of these orders of events, the body of the first
    update read before the second update is sent, or after the body of
    the second ([late]):
    - while the bulk call has been answered but its body not yet read,
      it is the only call issued and the result is pending;
    - the exchanges are the bulk call, then one update per other key in
      key order, each a [PATCH] on the anchor's identifier without the
      [/live] suffix, and, only when [live] is set, the publish call
      after them;
    - the promise returned fulfils with the array of the anchor and the
      two items the updates returned, in key order. *)
Theorem createItemAllLocales_three_locales :
  forall tok primary c k1 k2 k3 d1 d2 d3 live rb created anchor
         ru1 ru2 i1 i2 fuel (late : bool),
    let itemData := [(k1, d1); (k2, d2); (k3, d3)] in
    k1 <> k2 -> k1 <> k3 -> k2 <> k3 ->
    successful rb (PBulk created) ->
    find_main primary created = Some anchor ->
    successful ru1 (PItem i1) -> successful ru2 (PItem i2) ->
    40 <= fuel ->
    exists primaryData e1 e2,
      lookup_locale primary itemData = Some primaryData
      /\ secondary primary itemData = [e1; e2]
      /\ (exists s1,
             run fuel [ Call (CallCreateItemAllLocales c itemData live);
                        Event (EvResponse 0 rb) ]
               (new_WebflowConnection tok primary) = Some s1
             /\ sent s1 = [bulk_exchange c itemData primaryData]
             /\ List.length (submitted s1) = 1
             /\ pstatus (cell 0 s1) = Pending)
      /\ exists s,
          run fuel (create_schedule c itemData live rb ru1 ru2
                      (if late then 3 else 0))
            (new_WebflowConnection tok primary) = Some s
          /\ sent s
             = [ bulk_exchange c itemData primaryData;
                 update_exchange c (Item_id anchor) false e1;
                 update_exchange c (Item_id anchor) false e2 ]
               ++ (if live then [publish_exchange c (Item_id anchor)] else [])
          /\ pstatus (cell 0 s)
             = Fulfilled (VArray [VItem anchor; VItem i1; VItem i2]).
Proof.
  intros tok primary c k1 k2 k3 d1 d2 d3 live rb created anchor ru1 ru2 i1 i2
    fuel late itemData N12 N13 N23 Hb Hfind H1 H2 Hfuel.
  subst itemData.
  destruct live, primary, k1, k2, k3; try congruence;
    (eexists _, _, _; split; [reflexivity|]; split; [reflexivity|]; split;
     [ eexists; split;
       [ apply run_more with (fuel := 40); [|exact Hfuel]; run_script
       | repeat split; reflexivity ]
     | destruct late;
       (eexists; split;
        [ apply run_more with (fuel := 40); [|exact Hfuel];
          unfold create_schedule; cbn [app]; run_script
        | split; reflexivity ]) ]).
Qed.

(** The locale map of [Sync.ts]: English, Spanish, Chinese, English
    being the primary locale. *)
Lemma createItemAllLocales_three_locales_witness :
  exists s,
    run 40 (create_schedule "c" sample_locales true
              (json_response 200 (Some "59")
                 (PBulk [sample_item "m" ENGLISH]))
              (json_response 200 (Some "58") (PItem (sample_item "m" SPANISH)))
              (json_response 200 (Some "57") (PItem (sample_item "m" CHINESE)))
              3)
      (new_WebflowConnection "token" ENGLISH) = Some s
    /\ wire s
       = [ (POST, (api_base ++ "collections/c/items/bulk")%string);
           (PATCH, (api_base ++ "collections/c/items/m")%string);
           (PATCH, (api_base ++ "collections/c/items/m")%string);
           (POST, (api_base ++ "collections/c/items/publish")%string) ]
    /\ pstatus (cell 0 s)
       = Fulfilled (VArray [ VItem (sample_item "m" ENGLISH);
                             VItem (sample_item "m" SPANISH);
                             VItem (sample_item "m" CHINESE) ]).
Proof.
  destruct (createItemAllLocales_three_locales "token" ENGLISH "c"
              ENGLISH SPANISH CHINESE
              (sample_partial "Class" "Monday") (sample_partial "Clase" "Lunes")
              (sample_partial "Ke" "Zhouyi") true
              (json_response 200 (Some "59") (PBulk [sample_item "m" ENGLISH]))
              [sample_item "m" ENGLISH] (sample_item "m" ENGLISH)
              (json_response 200 (Some "58") (PItem (sample_item "m" SPANISH)))
              (json_response 200 (Some "57") (PItem (sample_item "m" CHINESE)))
              (sample_item "m" SPANISH) (sample_item "m" CHINESE) 40 true)
    as (pd & e1 & e2 & Hl & He & _ & s & R & Hs & Hp);
    [ discriminate | discriminate | discriminate
    | split; [cbn; lia | reflexivity] | reflexivity
    | split; [cbn; lia | reflexivity] | split; [cbn; lia | reflexivity]
    | lia | ].
  exists s. split; [exact R|]. split; [|exact Hp].
  injection Hl as <-. injection He as <- <-.
  unfold wire. unfold sent in Hs.
  apply (f_equal (map (fun x => (fst (fst x), snd (fst x))))) in Hs.
  rewrite map_map in Hs. exact Hs.
Defined.
